(** * log-to-csv: the event extraction and cycle aggregation engine

    A shallow embedding of [GenericLogProcessor] (main processsor.py):
    [extract_timestamp], [parse_line], [analyze_events], [finalize_cycle],
    [build_record] and [validate_record], followed by the properties of
    the specification that concern them; and of the pipeline around
    them: [process_files], [process_file], [gather_files],
    [natural_sort_key], [save_results] and [print_summary].

    Python dictionaries are finite maps ([gmap]), sets are [gset], and
    exceptions are the [Raise] results of an error monad.  What the code
    takes from the Python runtime (regular expressions, [datetime] parsing
    and printing, floating point) is the interface [Runtime]; every
    theorem holds for every runtime, and [Sample] is a small executable
    one on which the definitions are run. *)

From Stdlib Require Import Ascii String.
From stdpp Require Import gmap strings list fin_maps sorting.

Open Scope string_scope.
Open Scope list_scope.
Open Scope Z_scope.

(** ** Exceptions *)

Inductive exn :=
  | KeyError | IndexError | ValueError | TypeError | AttributeError | RegexError
  | FileNotFoundError | OSError.

Inductive res (A : Type) :=
  | Ok (a : A)
  | Raise (e : exn).
Arguments Ok {A} a.
Arguments Raise {A} e.

Definition bind {A B : Type} (m : res A) (f : A → res B) : res B :=
  match m with
  | Ok a => f a
  | Raise e => Raise e
  end.

Notation "x <- m ;; k" := (bind m (λ x, k))
  (at level 100, m at next level, right associativity).

(** A [for] loop whose body may raise. *)
Fixpoint foldM {A B : Type} (f : B → A → res B) (b : B) (l : list A) : res B :=
  match l with
  | [] => Ok b
  | x :: l' => b' <- f b x;; foldM f b' l'
  end.

(** A list comprehension whose element expression may raise. *)
Fixpoint mapM {A B : Type} (f : A → res B) (l : list A) : res (list B) :=
  match l with
  | [] => Ok []
  | x :: l' => y <- f x;; ys <- mapM f l';; Ok (y :: ys)
  end.

(** [d[k]] on a dictionary. *)
Definition getitem {V : Type} (d : gmap string V) (k : string) : res V :=
  match d !! k with
  | Some v => Ok v
  | None => Raise KeyError
  end.

(** ** Values

    An event dictionary holds a [datetime] under ['time'] and strings
    elsewhere; a field pattern named like a reserved key overwrites it, so
    every key may hold either.  A [datetime] without an offset (naive) is
    its number of microseconds since 0001-01-01 00:00:00; one with a UTC
    offset (aware, as a format with [%z] gives) is that number for its
    local time, with the offset in microseconds. *)

Inductive datetime :=
  | Naive (t : Z)
  | Aware (t offset : Z).

Inductive evval :=
  | ETime (t : Z)
  | EAware (t offset : Z)
  | EStr (s : string).

Definition time_value (d : datetime) : evval :=
  match d with
  | Naive t => ETime t
  | Aware t offset => EAware t offset
  end.

#[global] Instance evval_eq_dec : EqDecision evval.
Proof. solve_decision. Defined.

#[global] Instance evval_countable : Countable evval.
Proof.
  refine (inj_countable'
            (λ v, match v with
                  | ETime t => inl t
                  | EAware t offset => inr (inl (t, offset))
                  | EStr s => inr (inr s)
                  end)
            (λ x, match x with
                  | inl t => ETime t
                  | inr (inl (t, offset)) => EAware t offset
                  | inr (inr s) => EStr s
                  end) _).
  by intros [].
Defined.

Abbreviation event := (gmap string evval).

(** A stage of the cycle under construction: [None], one event, or the
    list of the accumulating stage. *)
Inductive slot :=
  | SNone
  | SEvent (e : event)
  | SList (l : list event).

Abbreviation cycle := (gmap string slot).

(** The result of [re.search(pat, line)] followed by [m.group(1)]: no
    match, the text of group 1, or the exception raised by an invalid
    pattern ([re.error]), by a pattern without a group 1 ([IndexError]
    from [m.group(1)]) or by one whose group 1 took no part in the match
    ([AttributeError] from [None.strip()]). *)
Inductive search_result :=
  | NoMatch
  | Group1 (g : string)
  | SearchRaises (e : exn).

(** The result of [datetime.strptime(text, fmt)]: the [datetime], a
    [ValueError], or another exception, as the [re.error] of a format
    that repeats a directive. *)
Inductive parsed :=
  | Parsed (d : datetime)
  | Unparsed
  | ParseRaises (e : exn).

(** ** The Python runtime *)

Class Runtime := {
  float : Type;
  (** [float(s)] for a string; [None] is [ValueError] *)
  float_of_str : string → option float;
  (** [float(n)] for an integer *)
  float_of_int : Z → float;
  (** [sum(values)] *)
  float_sum : list float → float;
  (** [x / y] *)
  float_div : float → float → float;
  (** [round(x, ndigits)] *)
  float_round : float → Z → float;
  (** [x != x] *)
  float_is_nan : float → bool;
  (** [x == 0.0] *)
  float_is_zero : float → bool;
  (** [timedelta.total_seconds()] of a difference in microseconds *)
  total_seconds : Z → float;
  (** [datetime.strptime(text, fmt)] *)
  strptime : string → string → parsed;
  (** [t.strftime("%y/%m/%d %H:%M:%S")], of the local time *)
  strftime : Z → string;
  (** [re.search(pat, line)] and its group 1 *)
  re_search : string → string → search_result;
  (** [s.strip()] *)
  str_strip : string → string;
}.

(** ** Strings *)

(** ['+'.join(l)] *)
Fixpoint join (sep : string) (l : list string) : string :=
  match l with
  | [] => ""
  | [s] => s
  | s :: l' => s +:+ sep +:+ join sep l'
  end.

(** [seq.index(x)]; [None] is [ValueError]. *)
Fixpoint index (seq : list string) (x : string) : option nat :=
  match seq with
  | [] => None
  | y :: seq' => if decide (y = x) then Some 0%nat else S <$> index seq' x
  end.

(** The order of [str] under [<]. *)
Definition str_le (a b : string) : Prop := String.leb a b = true.

#[global] Instance str_le_dec a b : Decision (str_le a b).
Proof. unfold str_le. apply _. Defined.

(** ** Timestamps: [re.search(r"\[([^\]]+)\]", line)]

    [span_bracket s] splits [s] before its first ["]"]. *)
Fixpoint span_bracket (s : string) : string * string :=
  match s with
  | EmptyString => (EmptyString, EmptyString)
  | String c s' =>
      if Ascii.eqb c "]" then (EmptyString, s)
      else let '(g, r) := span_bracket s' in (String c g, r)
  end.

(** Group 1 of the leftmost match: at the first ["["] that is followed by
    one or more characters other than ["]"] and then a ["]"]. *)
Fixpoint search_bracket (line : string) : option string :=
  match line with
  | EmptyString => None
  | String c rest =>
      if Ascii.eqb c "[" then
        match span_bracket rest with
        | (String a g, String _ _) => Some (String a g)
        | _ => search_bracket rest
        end
      else search_bracket rest
  end.

(** ** Configuration: the keys of the configuration the engine reads *)

Record config := Config {
  TIMESTAMP_FORMATS : list string;
  (** event type ↦ its (field, pattern) items, in the order of the mapping *)
  PATTERN_CONFIG : gmap string (list (string * string));
  EVENT_SEQUENCE : list string;
}.

(** ** Records and the processor

    The values of a record: [None], [str], [int], [float], [datetime]
    (naive or aware), over the floats [F] of the runtime. *)
Inductive pyval (F : Type) :=
  | VNone
  | VStr (s : string)
  | VInt (n : Z)
  | VFloat (x : F)
  | VTime (t : Z)
  | VAware (t offset : Z).
Arguments VNone {F}.
Arguments VStr {F} s.
Arguments VInt {F} n.
Arguments VFloat {F} x.
Arguments VTime {F} t.
Arguments VAware {F} t offset.

(** The attributes of the processor the engine reads and writes;
    [metrics] is a [defaultdict(int)]. *)
Record GenericLogProcessor (F : Type) := Processor {
  events : list event;
  results : list (gmap string (pyval F));
  metrics : gmap string Z;
}.
Arguments Processor {F} events results metrics.
Arguments events {F} g.
Arguments results {F} g.
Arguments metrics {F} g.

Abbreviation record := (gmap string (pyval float)).
Abbreviation processor := (GenericLogProcessor float).

Section processor.
Context `{Runtime}.

Definition incr (k : string) (m : gmap string Z) : gmap string Z :=
  <[k := default 0 (m !! k) + 1]> m.

(** *** extract_timestamp *)

(** The loop over the formats: [except ValueError: continue], and any
    other exception leaves the function. *)
Fixpoint first_format (ts_str : string) (fmts : list string)
    : res (option datetime) :=
  match fmts with
  | [] => Ok None
  | fmt :: fmts' =>
      match strptime ts_str fmt with
      | Parsed d => Ok (Some d)
      | Unparsed => first_format ts_str fmts'
      | ParseRaises e => Raise e
      end
  end.

Definition extract_timestamp (cfg : config) (line : string)
    : res (option datetime) :=
  match search_bracket line with
  | None => Ok None
  | Some ts_str => first_format ts_str (TIMESTAMP_FORMATS cfg)
  end.

(** *** parse_line *)

(** The loop over [patterns.items()]: the flag [matched] and the event. *)
Definition match_field (line : string) (acc : bool * event)
    (item : string * string) : res (bool * event) :=
  match re_search item.2 line with
  | NoMatch => Ok acc
  | Group1 g => Ok (true, <[item.1 := EStr (str_strip g)]> acc.2)
  | SearchRaises e => Raise e
  end.

Definition new_event (ts : datetime) (filename evt : string) : event :=
  <["type" := EStr evt]>
    (<["file" := EStr filename]> (<["time" := time_value ts]> ∅)).

(** The loop over [EVENT_SEQUENCE]; it returns at the first event type
    with a matching pattern. *)
Fixpoint parse_events (cfg : config) (ts : datetime) (line filename : string)
    (seq : list string) (self : processor) : res processor :=
  match seq with
  | [] => Ok self
  | evt :: seq' =>
      patterns <- getitem (PATTERN_CONFIG cfg) evt;;
      r <- foldM (match_field line) (false, new_event ts filename evt) patterns;;
      if fst r then
        Ok (Processor (events self ++ [snd r]) (results self)
              (incr "events_parsed" (metrics self)))
      else parse_events cfg ts line filename seq' self
  end.

Definition parse_line (cfg : config) (line filename : string)
    (self : processor) : res processor :=
  ts <- extract_timestamp cfg line;;
  match ts with
  | None => Ok self
  | Some ts => parse_events cfg ts line filename (EVENT_SEQUENCE cfg) self
  end.

(** *** process_file

    The lines of a readable file.  [parse_line] appends its event after
    everything in it that may raise, so a line on which it raises leaves
    the processor as it was; the file ends there and is not counted. *)
Fixpoint process_file (cfg : config) (path : string) (lines : list string)
    (self : processor) : processor :=
  match lines with
  | [] =>
      Processor (events self) (results self) (incr "files_processed" (metrics self))
  | line :: lines' =>
      match parse_line cfg line path self with
      | Ok self' => process_file cfg path lines' self'
      | Raise _ => self
      end
  end.

(** *** build_record *)

(** [cycle.get(stage)] *)
Definition cycle_get (cyc : cycle) (stage : string) : slot :=
  default SNone (cyc !! stage).

(** [EVENT_SEQUENCE[-1]] *)
Definition last_stage (cfg : config) : res string :=
  match last (EVENT_SEQUENCE cfg) with
  | Some s => Ok s
  | None => Raise IndexError
  end.

(** The truth value of what a stage holds. *)
Definition slot_truthy (s : slot) : bool :=
  match s with
  | SNone => false
  | SEvent e => negb (size e =? 0)%nat
  | SList l => negb (length l =? 0)%nat
  end.

Definition evval_to_py (v : evval) : pyval float :=
  match v with
  | ETime t => VTime t
  | EAware t offset => VAware t offset
  | EStr s => VStr s
  end.

(** ['+'.join(sorted(source_files))] *)
Definition as_str (v : evval) : res string :=
  match v with
  | EStr s => Ok s
  | ETime _ | EAware _ _ => Raise TypeError
  end.

Definition source_files_str (source_files : gset evval) : res string :=
  strs <- mapM as_str (elements source_files);;
  Ok (join "+" (merge_sort str_le strs)).

(** [tech['time'].strftime("%y/%m/%d %H:%M:%S") if tech else 'NA'] *)
Definition start_time (tech : slot) : res string :=
  if slot_truthy tech then
    match tech with
    | SEvent e =>
        t <- getitem e "time";;
        match t with
        | ETime t | EAware t _ => Ok (strftime t)
        | EStr _ => Raise AttributeError
        end
    | _ => Raise TypeError
    end
  else Ok "NA".

(** The body of [for stage in ['query', 'technique']]. *)
Definition copy_stage (cfg : config) (cyc : cycle) (rec : record)
    (stage : string) : res record :=
  let evt := cycle_get cyc stage in
  if slot_truthy evt then
    patterns <- getitem (PATTERN_CONFIG cfg) stage;;
    foldM (λ (rec : record) (item : string * string),
             match evt with
             | SEvent e =>
                 Ok (<[item.1 := from_option evval_to_py (VStr "NA") (e !! item.1)]> rec)
             | _ => Raise AttributeError
             end) rec patterns
  else Ok rec.

(** [float(e.get(field, 0))] under [except (ValueError, TypeError): continue]:
    the value appended to [values], if any. *)
Definition numeric (field : string) (e : event) : option float :=
  match e !! field with
  | None => Some (float_of_int 0)
  | Some (EStr s) => float_of_str s
  | Some (ETime _) | Some (EAware _ _) => None
  end.

(** [values] after the loop [for e in timing_events]; iterating a
    dictionary yields its keys, which have no [get]. *)
Definition field_values (timing_events : slot) (field : string) : res (list float) :=
  match timing_events with
  | SList l => Ok (omap (numeric field) l)
  | SEvent e => if (size e =? 0)%nat then Ok [] else Raise AttributeError
  | SNone => Raise TypeError
  end.

(** [round(sum(values) / len(values), 2) if values else None] *)
Definition average (values : list float) : pyval float :=
  match values with
  | [] => VNone
  | _ => VFloat (float_round
                   (float_div (float_sum values) (float_of_int (Z.of_nat (length values)))) 2)
  end.

(** The body of [for field in self.config['PATTERN_CONFIG'][last_stage]]. *)
Definition store_average (timing_events : slot) (rec : record)
    (item : string * string) : res record :=
  values <- field_values timing_events item.1;;
  Ok (<["Avg" +:+ item.1 := average values]> rec).

(** [len(timing_events)] *)
Definition slot_len (s : slot) : res Z :=
  match s with
  | SList l => Ok (Z.of_nat (length l))
  | SEvent e => Ok (Z.of_nat (size e))
  | SNone => Raise TypeError
  end.

(** [end_t - start_t] in microseconds: two naive [datetime]s or two
    aware ones subtract, the aware ones as instants; anything else
    raises. *)
Definition time_difference (end_t start_t : option evval) : option Z :=
  match end_t, start_t with
  | Some (ETime e), Some (ETime s) => Some (e - s)
  | Some (EAware e oe), Some (EAware s os) => Some ((e - oe) - (s - os))
  | _, _ => None
  end.

(** The value stored under ['Duration(s)'], when one is stored: the rounded
    difference, or [None] where the [try] block raised. *)
Definition duration (timing_events : slot) : option (pyval float) :=
  if slot_truthy timing_events then
    match timing_events with
    | SList (e0 :: l) =>
        match time_difference (default e0 (last l) !! "time") (e0 !! "time") with
        | Some d => Some (VFloat (float_round (total_seconds d) 3))
        | None => Some VNone
        end
    | _ => Some VNone
    end
  else None.

Definition build_record (cfg : config) (cyc : cycle)
    (source_files : gset evval) : res record :=
  let tech := cycle_get cyc "technique" in
  last_stage <- last_stage cfg;;
  let timing_events := default (SList []) (cyc !! last_stage) in
  files <- source_files_str source_files;;
  start <- start_time tech;;
  let rec : record := <["StartTime" := VStr start]> (<["SourceFiles" := VStr files]> ∅) in
  rec <- foldM (copy_stage cfg cyc) rec ["query"; "technique"];;
  patterns <- getitem (PATTERN_CONFIG cfg) last_stage;;
  rec <- foldM (store_average timing_events) rec patterns;;
  frames <- slot_len timing_events;;
  let rec : record := <["frames" := VInt frames]> rec in
  Ok match duration timing_events with
     | Some d => <["Duration(s)" := d]> rec
     | None => rec
     end.

(** *** validate_record *)

(** The truth value of [rec.get(key)]. *)
Definition truthy (v : option (pyval float)) : bool :=
  match v with
  | None | Some VNone => false
  | Some (VStr s) => negb (String.eqb s "")
  | Some (VInt n) => negb (n =? 0)
  | Some (VFloat x) => negb (float_is_zero x)
  | Some (VTime _) | Some (VAware _ _) => true
  end.

(** [isinstance(rec.get(key), int)] *)
Definition is_int (v : option (pyval float)) : bool :=
  match v with
  | Some (VInt _) => true
  | _ => false
  end.

(** [isinstance(v, float) and v != v] *)
Definition is_nan (v : pyval float) : bool :=
  match v with
  | VFloat x => float_is_nan x
  | _ => false
  end.

Definition validate_record (rec : record) : bool :=
  if negb (truthy (rec !! "StartTime")) || negb (is_int (rec !! "frames")) then false
  else bool_decide (map_Forall (λ _ v, is_nan v = false) rec).

(** *** finalize_cycle *)

Definition finalize_cycle (cfg : config) (cyc : cycle)
    (source_files : gset evval) (self : processor) : processor :=
  match build_record cfg cyc source_files with
  | Ok rec =>
      if validate_record rec then
        Processor (events self) (results self ++ [rec])
          (incr "cycles_completed" (metrics self))
      else self
  | Raise _ =>
      Processor (events self) (results self) (incr "cycle_errors" (metrics self))
  end.

(** *** analyze_events *)

(** [self.events.sort(key=lambda e: e['time'])]: a stable sort that
    compares keys with [<] only.  Two naive [datetime]s, two aware ones
    (as instants) or two strings compare; a naive and an aware
    [datetime], or a [datetime] and a string, raise [TypeError]. *)
Definition key_lt (a b : evval) : res bool :=
  match a, b with
  | ETime x, ETime y => Ok (x <? y)
  | EAware x ox, EAware y oy => Ok (x - ox <? y - oy)
  | EStr x, EStr y => Ok (String.ltb x y)
  | _, _ => Raise TypeError
  end.

Fixpoint insert_keyed (k : evval) (ev : event) (sorted : list (evval * event))
    : res (list (evval * event)) :=
  match sorted with
  | [] => Ok [(k, ev)]
  | (k', ev') :: rest =>
      lt <- key_lt k' k;;
      if lt : bool then r <- insert_keyed k ev rest;; Ok ((k', ev') :: r)
      else Ok ((k, ev) :: sorted)
  end.

Fixpoint sort_keyed (l : list (evval * event)) : res (list (evval * event)) :=
  match l with
  | [] => Ok []
  | (k, ev) :: rest => sorted <- sort_keyed rest;; insert_keyed k ev sorted
  end.

Definition sort_events (evs : list event) : res (list event) :=
  keyed <- mapM (λ ev, k <- getitem ev "time";; Ok (k, ev)) evs;;
  sorted <- sort_keyed keyed;;
  Ok (snd <$> sorted).

(** [{evt: None for evt in seq}] followed by [cycle[seq[-1]] = []]. *)
Definition empty_cycle (seq : list string) : res cycle :=
  let cyc : cycle := foldl (λ c evt, <[evt := SNone]> c) ∅ seq in
  match last seq with
  | Some l => Ok (<[l := SList []]> cyc)
  | None => Raise IndexError
  end.

(** [cycle[name].append(ev)] *)
Definition append_event (cyc : cycle) (name : string) (ev : event) : res cycle :=
  s <- getitem cyc name;;
  match s with
  | SList l => Ok (<[name := SList (l ++ [ev])]> cyc)
  | _ => Raise AttributeError
  end.

Section machine.
(** The loop of [analyze_events], for any object [self] with a method
    [finalize_cycle]. *)
Context {Self : Type} (finalize : cycle → gset evval → Self → Self).

(** The local variables [state], [cycle], [source_files], and [self]. *)
Record machine := Machine {
  m_state : nat;
  m_cycle : cycle;
  m_sources : gset evval;
  m_self : Self;
}.

(** The body of [for ev in self.events]. *)
Definition step (seq : list string) (m : machine) (ev : event) : res machine :=
  ty <- getitem ev "type";;
  match ty with
  | ETime _ | EAware _ _ => Ok m
  | EStr name =>
      match index seq name with
      | None => Ok m
      | Some idx =>
          if (idx =? 0)%nat then
            let self := if (m_state m =? length seq)%nat
                        then finalize (m_cycle m) (m_sources m) (m_self m)
                        else m_self m in
            cyc <- empty_cycle seq;;
            file <- getitem ev "file";;
            Ok (Machine 1 (<[name := SEvent ev]> cyc) {[file]} self)
          else if (idx =? m_state m)%nat then
            cyc <- (if (idx =? length seq - 1)%nat
                   then append_event (m_cycle m) name ev
                   else Ok (<[name := SEvent ev]> (m_cycle m)));;
            file <- getitem ev "file";;
            Ok (Machine (S (m_state m)) cyc ({[file]} ∪ m_sources m) (m_self m))
          else Ok (Machine 0 (m_cycle m) (m_sources m) (m_self m))
      end
  end.

(** The loop, and the test that follows it. *)
Definition flush (seq : list string) (m : machine) : Self :=
  if (m_state m =? length seq)%nat
  then finalize (m_cycle m) (m_sources m) (m_self m)
  else m_self m.

Definition run (seq : list string) (self : Self) (evs : list event) : res Self :=
  cyc <- empty_cycle seq;;
  m <- foldM (step seq) (Machine 0 cyc ∅ self) evs;;
  Ok (flush seq m).

End machine.

Definition analyze_events (cfg : config) (self : processor) : res processor :=
  match events self with
  | [] => Ok self
  | _ =>
      sorted <- sort_events (events self);;
      run (finalize_cycle cfg) (EVENT_SEQUENCE cfg)
        (Processor sorted (results self) (metrics self)) sorted
  end.

(** The cycles [analyze_events] hands to [finalize_cycle], in order: the
    loop run on a processor that only records the calls. *)
Definition record_call (cyc : cycle) (files : gset evval)
    (log : list (cycle * gset evval)) : list (cycle * gset evval) :=
  log ++ [(cyc, files)].

Definition finalized (seq : list string) (evs : list event)
    : res (list (cycle * gset evval)) :=
  run record_call seq [] evs.

End processor.

(** ** A sample runtime

    An executable runtime for running the definitions on concrete inputs.
    It covers a part of what Python accepts and agrees with Python there:
    decimal numerals with at most six fractional digits and ["nan"], held
    exactly in millionths; ASCII text; the format
    ["%Y/%m/%d %H:%M:%S.%f"] on text with two-digit fields, and formats
    that repeat one of its directives and have no other, which raise
    [re.error], every other format being taken to fail; and patterns made
    of literal text followed by the group [(\d+)]. *)
Module Sample.

Inductive dec :=
  | NaN
  | Dec (millionths : Z).

Definition digit (c : ascii) : option Z :=
  let n := Z.of_nat (nat_of_ascii c) in
  if (48 <=? n) && (n <=? 57) then Some (n - 48) else None.

Fixpoint number_from (acc : Z) (s : string) : option Z :=
  match s with
  | EmptyString => Some acc
  | String c s' =>
      match digit c with
      | Some d => number_from (10 * acc + d) s'
      | None => None
      end
  end.

(** A non-empty run of decimal digits. *)
Definition number (s : string) : option Z :=
  match s with
  | EmptyString => None
  | _ => number_from 0 s
  end.

(** A fraction of one to six digits, in millionths. *)
Definition fraction (s : string) : option Z :=
  if (String.length s <=? 6)%nat
  then (λ n, n * 10 ^ Z.of_nat (6 - String.length s)) <$> number s
  else None.

Fixpoint split_dot (s : string) : string * option string :=
  match s with
  | EmptyString => (EmptyString, None)
  | String c s' =>
      if Ascii.eqb c "." then (EmptyString, Some s')
      else let '(a, b) := split_dot s' in (String c a, b)
  end.

Definition dec_of_str (s : string) : option dec :=
  if String.eqb s "nan" then Some NaN
  else match split_dot s with
       | (i, None) => (λ n, Dec (n * 1000000)) <$> number i
       | (i, Some f) =>
           match number i, fraction f with
           | Some n, Some m => Some (Dec (n * 1000000 + m))
           | _, _ => None
           end
       end.

(** [a / b] rounded to the nearest integer, ties to even. *)
Definition div_even (a b : Z) : Z :=
  let q := a / b in
  let r := a mod b in
  if 2 * r <? b then q
  else if b <? 2 * r then q + 1
  else if Z.even q then q else q + 1.

Definition dec_add (x y : dec) : dec :=
  match x, y with
  | Dec a, Dec b => Dec (a + b)
  | _, _ => NaN
  end.

Definition dec_div (x y : dec) : dec :=
  match x, y with
  | Dec a, Dec b =>
      if b =? 0 then NaN
      else if 0 <? b then Dec (div_even (a * 1000000) b)
      else Dec (div_even (- a * 1000000) (- b))
  | _, _ => NaN
  end.

Definition dec_round (x : dec) (ndigits : Z) : dec :=
  match x with
  | Dec a =>
      if (0 <=? ndigits) && (ndigits <? 6)
      then let u := 10 ^ (6 - ndigits) in Dec (div_even a u * u)
      else x
  | NaN => NaN
  end.

Definition dec_is_nan (x : dec) : bool :=
  match x with
  | NaN => true
  | Dec _ => false
  end.

Definition dec_is_zero (x : dec) : bool :=
  match x with
  | Dec 0 => true
  | _ => false
  end.

(** [str.strip()] on ASCII text: the characters it removes there. *)
Definition is_space (c : ascii) : bool :=
  let n := nat_of_ascii c in
  ((9 <=? n)%nat && (n <=? 13)%nat) || ((28 <=? n)%nat && (n <=? 32)%nat).

Fixpoint lstrip (s : string) : string :=
  match s with
  | String c s' => if is_space c then lstrip s' else s
  | EmptyString => EmptyString
  end.

Fixpoint rstrip (s : string) : string :=
  match s with
  | String c s' =>
      match rstrip s' with
      | EmptyString => if is_space c then EmptyString else String c EmptyString
      | r => String c r
      end
  | EmptyString => EmptyString
  end.

Definition strip (s : string) : string := rstrip (lstrip s).

(** The proleptic Gregorian calendar, as in [datetime]. *)
Definition leap (y : Z) : bool :=
  (y mod 4 =? 0) && (negb (y mod 100 =? 0) || (y mod 400 =? 0)).

Definition days_in_month (y m : Z) : Z :=
  if m =? 2 then (if leap y then 29 else 28)
  else if (m =? 4) || (m =? 6) || (m =? 9) || (m =? 11) then 30
  else 31.

Definition days_before_year (y : Z) : Z :=
  let p := y - 1 in 365 * p + p / 4 - p / 100 + p / 400.

Fixpoint days_before_month (y : Z) (m : nat) : Z :=
  match m with
  | O => 0
  | S O => 0
  | S m' => days_before_month y m' + days_in_month y (Z.of_nat m')
  end.

Definition between (lo x hi : Z) : bool := (lo <=? x) && (x <=? hi).

Definition make_datetime (y mo d h mi s us : Z) : option Z :=
  if between 1 y 9999 && between 1 mo 12 && between 1 d (days_in_month y mo)
     && between 0 h 23 && between 0 mi 59 && between 0 s 59
  then Some ((((days_before_year y + days_before_month y (Z.to_nat mo) + d - 1)
                 * 86400 + h * 3600 + mi * 60 + s) * 1000000) + us)
  else None.

Definition sep_at (n : nat) (c : ascii) (s : string) : bool :=
  match String.get n s with
  | Some c' => Ascii.eqb c c'
  | None => false
  end.

Definition parse_fields (text : string) : option Z :=
  if sep_at 4 "/" text && sep_at 7 "/" text && sep_at 10 " " text
     && sep_at 13 ":" text && sep_at 16 ":" text && sep_at 19 "." text
  then
    match number (substring 0 4 text), number (substring 5 2 text),
          number (substring 8 2 text), number (substring 11 2 text),
          number (substring 14 2 text), number (substring 17 2 text),
          fraction (substring 20 (String.length text - 20) text) with
    | Some y, Some mo, Some d, Some h, Some mi, Some s, Some us =>
        make_datetime y mo d h mi s us
    | _, _, _, _, _, _, _ => None
    end
  else None.

(** The directives of a format, [%%] apart. *)
Fixpoint directives (fmt : string) : list ascii :=
  match fmt with
  | String "%" (String c rest) =>
      if Ascii.eqb c "%" then directives rest else c :: directives rest
  | String _ rest => directives rest
  | EmptyString => []
  end.

(** The directives of the format above. *)
Definition known_directive (c : ascii) : bool :=
  bool_decide (c ∈ ["Y"; "m"; "d"; "H"; "M"; "S"; "f"]%char).

(** [strptime] turns the format into a regular expression with a group
    named after each directive before it reads the text, and a name used
    twice is an error of [re]. *)
Definition sample_strptime (text fmt : string) : parsed :=
  if String.eqb fmt "%Y/%m/%d %H:%M:%S.%f" then
    match parse_fields text with
    | Some t => Parsed (Naive t)
    | None => Unparsed
    end
  else if forallb known_directive (directives fmt)
          && negb (bool_decide (NoDup (directives fmt)))
  then ParseRaises RegexError
  else Unparsed.

Definition two_digits (n : Z) : string :=
  let c (d : Z) := ascii_of_nat (Z.to_nat (48 + d)) in
  String (c (n / 10 mod 10)) (String (c (n mod 10)) EmptyString).

(** Year and zero-based day of the year of a zero-based day number. *)
Definition year_of_day (n : Z) : Z * Z :=
  let n400 := n / 146097 in
  let n := n mod 146097 in
  let n100 := n / 36524 in
  let n := n mod 36524 in
  let n4 := n / 1461 in
  let n := n mod 1461 in
  let n1 := n / 365 in
  let y := 400 * n400 + 100 * n100 + 4 * n4 + n1 + 1 in
  if (n1 =? 4) || (n100 =? 4) then (y - 1, 365 + (if leap (y - 1) then 0 else -1))
  else (y, n mod 365).

Fixpoint month_of_day (fuel : nat) (y m n : Z) : Z * Z :=
  match fuel with
  | O => (m, n + 1)
  | S fuel' =>
      if n <? days_in_month y m then (m, n + 1)
      else month_of_day fuel' y (m + 1) (n - days_in_month y m)
  end.

Definition sample_strftime (t : Z) : string :=
  let secs := t / 1000000 in
  let '(y, n) := year_of_day (secs / 86400) in
  let '(mo, d) := month_of_day 11 y 1 n in
  let s := secs mod 86400 in
  two_digits (y mod 100) +:+ "/" +:+ two_digits mo +:+ "/" +:+ two_digits d +:+ " "
  +:+ two_digits (s / 3600) +:+ ":" +:+ two_digits (s / 60 mod 60) +:+ ":"
  +:+ two_digits (s mod 60).

(** Patterns [lit(\d+)]: the leftmost place where [lit] is followed by a
    digit, and the digits from there. *)
Fixpoint digits_of (s : string) : string :=
  match s with
  | String c s' => if digit c is Some _ then String c (digits_of s') else EmptyString
  | EmptyString => EmptyString
  end.

Fixpoint search_literal (lit line : string) : search_result :=
  let here := if String.prefix lit line
              then digits_of (substring (String.length lit)
                                (String.length line - String.length lit) line)
              else EmptyString in
  match here, line with
  | String _ _, _ => Group1 here
  | EmptyString, String _ rest => search_literal lit rest
  | EmptyString, EmptyString => NoMatch
  end.

Definition is_meta (c : ascii) : bool :=
  bool_decide (c ∈ list_ascii_of_string ".^$*+?{}[]\|()").

Fixpoint has_meta (s : string) : bool :=
  match s with
  | String c s' => is_meta c || has_meta s'
  | EmptyString => false
  end.

Definition sample_search (pat line : string) : search_result :=
  let n := (String.length pat - 5)%nat in
  let lit := substring 0 n pat in
  if String.eqb (substring n 5 pat) "(\d+)" && negb (has_meta lit)
     && (5 <=? String.length pat)%nat
  then search_literal lit line
  else SearchRaises RegexError.

#[global] Instance runtime : Runtime := {|
  float := dec;
  float_of_str := dec_of_str;
  float_of_int := λ n, Dec (n * 1000000);
  float_sum := foldl dec_add (Dec 0);
  float_div := dec_div;
  float_round := dec_round;
  float_is_nan := dec_is_nan;
  float_is_zero := dec_is_zero;
  total_seconds := Dec;
  strptime := sample_strptime;
  strftime := sample_strftime;
  re_search := sample_search;
  str_strip := strip;
|}.

End Sample.

(** * The pipeline around the engine

    [process_files], [save_results] and [print_summary].  The file system
    is given, as it is after any renaming of the logs: the paths
    [gather_files] returned, in its order, each with the lines read from
    the file, or nothing when the file cannot be opened; and whether the
    directory of the output file can be made and the file opened.  Paths
    are those of POSIX.  The table written is the list of the rows handed
    to the [csv] writer, and the summary is the list of the counts
    printed. *)

Fixpoint no_slash (p : string) : bool :=
  match p with
  | EmptyString => true
  | String c p' => negb (Ascii.eqb c "/") && no_slash p'
  end.

Section pipeline.
Context `{Runtime}.

(** *** save_results *)

(** [DictWriter._dict_to_list] with the defaults [extrasaction='raise']
    and [restval='']: a key outside [fieldnames] raises, a field the
    dictionary lacks is written as the empty string. *)
Definition dict_to_list (fieldnames : list string) (rowdict : record)
    : res (list (pyval float)) :=
  if bool_decide (map_Forall (λ k _, k ∈ fieldnames) rowdict)
  then Ok ((λ key, default (VStr "") (rowdict !! key)) <$> fieldnames)
  else Raise ValueError.

(** [os.makedirs(os.path.dirname(output_path), exist_ok=True)] followed by
    [open(output_path, 'w', ...)].  The directory name of a path without a
    slash is empty, and [os.makedirs('')] raises [FileNotFoundError]; for
    any other path the outcome is the file system's, [created]. *)
Definition open_output (created : res unit) (output_path : string) : res unit :=
  if no_slash output_path then Raise FileNotFoundError else created.

(** The rows written: none when there are no results, else the header
    and one row for each record. *)
Definition save_results (created : res unit) (output_path : string)
    (csv_fields : list string) (self : processor)
    : res (option (list (list (pyval float)))) :=
  match results self with
  | [] => Ok None
  | _ =>
      opened <- open_output created output_path;;
      rows <- mapM (dict_to_list csv_fields) (results self);;
      Ok (Some ((VStr <$> csv_fields) :: rows))
  end.

(** *** print_summary *)

(** [self.metrics[k]]: reading a missing key of the [defaultdict] stores
    0 under it. *)
Definition read_metric (k : string) (m : gmap string Z) : Z * gmap string Z :=
  match m !! k with
  | Some n => (n, m)
  | None => (0, <[k := 0]> m)
  end.

(** The counts printed after the heading, each with its label. *)
Definition print_summary (self : processor) : list (string * Z) * processor :=
  let files := read_metric "files_processed" (metrics self) in
  let parsed := read_metric "events_parsed" files.2 in
  let completed := read_metric "cycles_completed" parsed.2 in
  let errors :=
    match completed.2 !! "cycle_errors" with
    | Some n => if n =? 0 then [] else [("Cycle errors:      ", n)]
    | None => []
    end in
  ([("Files processed:   ", files.1);
    ("Events parsed:     ", parsed.1);
    ("Cycles completed:  ", completed.1)]
   ++ errors
   ++ [("Records saved:     ", Z.of_nat (length (results self)))],
   Processor (events self) (results self) completed.2).

(** *** process_files *)

Inductive outcome :=
  | NoFiles
  | Raised (e : exn)
  | Summary (self : processor) (table : option (list (list (pyval float))))
      (counts : list (string * Z)).

(** [process_file] on a path: a file that cannot be opened is logged and
    changes nothing. *)
Definition read_path (cfg : config) (self : processor)
    (file : string * option (list string)) : processor :=
  match file.2 with
  | Some lines => process_file cfg file.1 lines self
  | None => self
  end.

Definition process_files (cfg : config) (created : res unit)
    (output_path : string) (csv_fields : list string)
    (files : list (string * option (list string))) (self : processor) : outcome :=
  match files with
  | [] => NoFiles
  | _ =>
      let self := foldl (read_path cfg) self files in
      match analyze_events cfg self with
      | Raise e => Raised e
      | Ok self =>
          match save_results created output_path csv_fields self with
          | Raise e => Raised e
          | Ok table =>
              let printed := print_summary self in
              Summary printed.2 table printed.1
          end
      end
  end.

End pipeline.

(** * Finding the files

    [natural_sort_key] and [gather_files].  File names are strings over
    ASCII, where [\d] and [str.isdigit] both mean a character from 0 to
    9; paths are those of POSIX; and what [os.walk] yields is given: the
    directories in its order, each with its files. *)

Definition is_digit (c : ascii) : bool :=
  let n := nat_of_ascii c in (48 <=? n)%nat && (n <=? 57)%nat.

(** [os.path.basename]: what follows the last slash; [base] is what has
    been read since the last one. *)
Fixpoint basename_from (base path : string) : string :=
  match path with
  | EmptyString => base
  | String c rest =>
      if Ascii.eqb c "/" then basename_from EmptyString rest
      else basename_from (base +:+ String c EmptyString) rest
  end.

Definition basename (path : string) : string := basename_from EmptyString path.

(** [re.split(r'(\d+)', s)]: the text before the first run of digits, the
    run, the text after it, and so on to the text after the last run;
    [text] and [digits] are what has been read of the current piece. *)
Fixpoint split_text (text s : string) : list string :=
  match s with
  | EmptyString => [text]
  | String c s' =>
      if is_digit c then text :: split_digits (String c EmptyString) s'
      else split_text (text +:+ String c EmptyString) s'
  end
with split_digits (digits s : string) : list string :=
  match s with
  | EmptyString => [digits; EmptyString]
  | String c s' =>
      if is_digit c then split_digits (digits +:+ String c EmptyString) s'
      else digits :: split_text (String c EmptyString) s'
  end.

(** [p.isdigit()] *)
Fixpoint all_digits (p : string) : bool :=
  match p with
  | EmptyString => true
  | String c p' => is_digit c && all_digits p'
  end.

Definition isdigit (p : string) : bool :=
  match p with
  | EmptyString => false
  | _ => all_digits p
  end.

(** [int(p)], for digits *)
Fixpoint int_from (n : Z) (p : string) : Z :=
  match p with
  | EmptyString => n
  | String c p' => int_from (10 * n + (Z.of_nat (nat_of_ascii c) - 48)) p'
  end.

Definition int_of (p : string) : Z := int_from 0 p.

(** [p.lower()] *)
Definition lower_char (c : ascii) : ascii :=
  let n := nat_of_ascii c in
  if (65 <=? n)%nat && (n <=? 90)%nat then ascii_of_nat (n + 32) else c.

Fixpoint lower (p : string) : string :=
  match p with
  | EmptyString => EmptyString
  | String c p' => String (lower_char c) (lower p')
  end.

(** The elements of a key. *)
Inductive part :=
  | PInt (n : Z)
  | PStr (s : string).

#[global] Instance part_eq_dec : EqDecision part.
Proof. solve_decision. Defined.

Definition key_part (p : string) : part :=
  if isdigit p then PInt (int_of p) else PStr (lower p).

Definition natural_sort_key (path : string) : list part :=
  key_part <$> split_text EmptyString (basename path).

(** [==] and [<] on the elements: a number and a string are not equal,
    and ordering them raises [TypeError]. *)
Definition part_eq (a b : part) : bool :=
  match a, b with
  | PInt m, PInt n => m =? n
  | PStr s, PStr t => String.eqb s t
  | _, _ => false
  end.

Definition part_lt (a b : part) : res bool :=
  match a, b with
  | PInt m, PInt n => Ok (m <? n)
  | PStr s, PStr t => Ok (String.ltb s t)
  | _, _ => Raise TypeError
  end.

(** [<] on lists: the first elements that are not equal decide, and a
    proper prefix is less. *)
Fixpoint list_lt (a b : list part) : res bool :=
  match a, b with
  | x :: a', y :: b' => if part_eq x y then list_lt a' b' else part_lt x y
  | [], _ :: _ => Ok true
  | _, [] => Ok false
  end.

(** [paths.sort(key=...)], a stable sort by the keys. *)
Fixpoint insert_path (k : list part) (path : string)
    (sorted : list (list part * string)) : res (list (list part * string)) :=
  match sorted with
  | [] => Ok [(k, path)]
  | (k', path') :: rest =>
      lt <- list_lt k' k;;
      if lt : bool then r <- insert_path k path rest;; Ok ((k', path') :: r)
      else Ok ((k, path) :: sorted)
  end.

Fixpoint sort_paths (l : list (list part * string)) : res (list (list part * string)) :=
  match l with
  | [] => Ok []
  | (k, path) :: rest => sorted <- sort_paths rest;; insert_path k path sorted
  end.

(** [f.endswith(ext)] *)
Definition endswith (f ext : string) : bool :=
  (String.length ext <=? String.length f)%nat
  && String.eqb (substring (String.length f - String.length ext)
                   (String.length ext) f) ext.

(** [os.path.join(root, f)] *)
Definition path_join (root f : string) : string :=
  if String.prefix "/" f then f
  else if String.eqb root EmptyString || endswith root "/" then root +:+ f
  else root +:+ "/" +:+ f.

(** The paths appended in the loops over [os.walk]. *)
Definition walked_paths (exts : list string)
    (walked : list (string * list string)) : list string :=
  concat ((λ dir : string * list string,
             path_join dir.1
             <$> filter (λ f, existsb (endswith f) exts = true) dir.2)
          <$> walked).

Definition gather_files (exts : list string)
    (walked : list (string * list string)) : res (list string) :=
  sorted <- sort_paths ((λ path, (natural_sort_key path, path))
                        <$> walked_paths exts walked);;
  Ok (sorted.*2).

Abbreviation calls := (list (cycle * gset evval)).

(** * Notions used in the statements *)

(** ** Timestamps *)

Fixpoint no_close (s : string) : bool :=
  match s with
  | EmptyString => true
  | String c s' => negb (Ascii.eqb c "]") && no_close s'
  end.

(** [line] holds the bracketed substring [[g]] after [pre]: an opening
    bracket, one or more characters other than the closing bracket, and
    the closing bracket. *)
Definition bracketed (line pre g post : string) : Prop :=
  line = pre +:+ String "[" (g +:+ String "]" post)
  ∧ g ≠ EmptyString ∧ no_close g = true.

(** ... and no bracketed substring starts further left. *)
Definition first_bracketed (line pre g post : string) : Prop :=
  bracketed line pre g post
  ∧ ∀ pre' g' post', bracketed line pre' g' post' →
      (String.length pre ≤ String.length pre')%nat.

(** [r] is the outcome of trying [fmts] on [text] from left to right.
    The first format that does not fail with [ValueError] decides: its
    parse is the timestamp, or the exception it raises leaves the parser;
    when every format fails with [ValueError] there is no timestamp. *)
Definition first_parse `{Runtime} (text : string) (fmts : list string)
    (r : res (option datetime)) : Prop :=
  match r with
  | Ok (Some d) =>
      ∃ (i : nat) fmt, fmts !! i = Some fmt ∧ strptime text fmt = Parsed d
        ∧ ∀ (j : nat) fmt', (j < i)%nat → fmts !! j = Some fmt' →
            strptime text fmt' = Unparsed
  | Raise e =>
      ∃ (i : nat) fmt, fmts !! i = Some fmt ∧ strptime text fmt = ParseRaises e
        ∧ ∀ (j : nat) fmt', (j < i)%nat → fmts !! j = Some fmt' →
            strptime text fmt' = Unparsed
  | Ok None => ∀ fmt, fmt ∈ fmts → strptime text fmt = Unparsed
  end.

(** ** The state machine *)

(** The calls of a log, made in order on [self]. *)
Definition replay {Self : Type} (finalize : cycle → gset evval → Self → Self)
    (log : calls) (self : Self) : Self :=
  foldl (λ self call, finalize call.1 call.2 self) self log.

(** A machine of the recording run, seen with the object [self] on which
    its calls have been made. *)
Definition with_self {Self : Type} (finalize : cycle → gset evval → Self → Self)
    (self : Self) (m : machine (Self := calls)) : machine (Self := Self) :=
  Machine (m_state m) (m_cycle m) (m_sources m) (replay finalize (m_self m) self).

(** The accumulating stage [l] of the call holds exactly one event. *)
Definition one_event (l : string) (call : cycle * gset evval) : Prop :=
  ∃ e, call.1 !! l = Some (SList [e]).

(** In the terminal state the accumulating stage holds one event; on the
    way there, when the last stage has no earlier namesake, it is empty. *)
Definition one_event_inv (seq : list string) (l : string)
    (m : machine (Self := calls)) : Prop :=
  (m_state m ≤ length seq)%nat
  ∧ (m_state m = length seq → ∃ e, m_cycle m !! l = Some (SList [e]))
  ∧ ((0 < m_state m < length seq)%nat → index seq l = Some (length seq - 1)%nat →
     m_cycle m !! l = Some (SList []))
  ∧ Forall (one_event l) (m_self m).

(** The events carry [datetime]s that never decrease along the list. *)
Definition time_ordered (evs : list event) : Prop :=
  ∃ ts, Forall2 (λ (e : event) t, e !! "time" = Some (ETime t)) evs ts
        ∧ Sorted Z.le ts.

Definition keyed (ts : list Z) (evs : list event) : list (evval * event) :=
  zip_with (λ t e, (ETime t, e)) ts evs.

(** An event of the given type from some file. *)
Definition event_of (name : string) (e : event) : Prop :=
  e !! "type" = Some (EStr name) ∧ ∃ file, e !! "file" = Some file.

(** [m1] continues after an anomaly that left the calls [log0] behind, as
    [m2] continues from a fresh start. *)
Definition resumes (log0 : calls) (m1 m2 : machine (Self := calls)) : Prop :=
  m_state m1 = m_state m2
  ∧ m_self m1 = log0 ++ m_self m2
  ∧ (m_state m1 ≠ 0%nat → m_cycle m1 = m_cycle m2 ∧ m_sources m1 = m_sources m2).

Definition resumes_res (log0 : calls) (r1 r2 : res (machine (Self := calls))) : Prop :=
  match r1, r2 with
  | Ok m1, Ok m2 => resumes log0 m1 m2
  | Raise e1, Raise e2 => e1 = e2
  | _, _ => False
  end.

(** The accumulating stage [l] of the cycle holds a list, and every other
    stage holds [None] or a single event. *)
Definition stages_well_formed (l : string) (cyc : cycle) : Prop :=
  (∃ evs, cyc !! l = Some (SList evs))
  ∧ ∀ name, name ≠ l →
      cyc !! name = None ∨ cyc !! name = Some SNone
      ∨ ∃ e, cyc !! name = Some (SEvent e).

(** ** The extractor *)

(** Some pattern of the mapping matches the line. *)
Definition matches_some `{Runtime} (line : string)
    (patterns : list (string * string)) : Prop :=
  ∃ item g, item ∈ patterns ∧ re_search item.2 line = Group1 g.

(** The outcome of the loop over the event sequence on a line with the
    timestamp [ts]: nothing is added, no pattern of any event type
    matching; or one event is added, for the first event type with a
    matching pattern. *)
Definition extracted `{Runtime} (cfg : config) (ts : datetime) (line filename : string)
    (seq : list string) (self self' : processor) : Prop :=
  (self' = self
   ∧ Forall (λ name, ∃ ps, PATTERN_CONFIG cfg !! name = Some ps
                      ∧ ¬ matches_some line ps) seq)
  ∨ ∃ pre evt post patterns e,
      seq = pre ++ evt :: post
      ∧ Forall (λ name, ∃ ps, PATTERN_CONFIG cfg !! name = Some ps
                         ∧ ¬ matches_some line ps) pre
      ∧ PATTERN_CONFIG cfg !! evt = Some patterns
      ∧ matches_some line patterns
      ∧ self' = Processor (events self ++ [e]) (results self)
                  (incr "events_parsed" (metrics self))
      ∧ (∀ field, field ∉ patterns.*1 →
         e !! field = new_event ts filename evt !! field)
      ∧ (NoDup patterns.*1 → ∀ field pat, (field, pat) ∈ patterns →
         e !! field = match re_search pat line with
                      | Group1 g => Some (EStr (str_strip g))
                      | _ => new_event ts filename evt !! field
                      end).

(** ** The aggregator *)

(** The field names configured for a stage. *)
Definition fields (cfg : config) (stage : string) : list string :=
  (default [] (PATTERN_CONFIG cfg !! stage)).*1.

(** The values an event list contributes to the average of a field: the
    number a present field converts to, nothing for a present field that
    does not convert, and zero for each event without the field. *)
Inductive contributions `{Runtime} (field : string) : list event → list float → Prop :=
  | contributions_nil :
      contributions field [] []
  | contributions_number e s x evs xs :
      e !! field = Some (EStr s) → float_of_str s = Some x →
      contributions field evs xs → contributions field (e :: evs) (x :: xs)
  | contributions_skip e s evs xs :
      e !! field = Some (EStr s) → float_of_str s = None →
      contributions field evs xs → contributions field (e :: evs) xs
  | contributions_datetime e t evs xs :
      e !! field = Some (ETime t) →
      contributions field evs xs → contributions field (e :: evs) xs
  | contributions_aware e t offset evs xs :
      e !! field = Some (EAware t offset) →
      contributions field evs xs → contributions field (e :: evs) xs
  | contributions_absent e evs xs :
      e !! field = None →
      contributions field evs xs → contributions field (e :: evs) (float_of_int 0 :: xs).

(** ** Sample inputs, on the sample runtime *)
Module Examples.
Import Sample.

(** The configuration of the repository's test. *)
Definition cfg : config :=
  Config ["%Y/%m/%d %H:%M:%S.%f"]
    (<["init" := [("Step", "Step=(\d+)")]]>
       (<["execute" := [("Value", "Value=(\d+)")]]> ∅))
    ["init"; "execute"].

(** The same with a second field on the accumulating stage. *)
Definition cfg_two_fields : config :=
  Config ["%Y/%m/%d %H:%M:%S.%f"]
    (<["init" := [("Step", "Step=(\d+)")]]>
       (<["execute" := [("Value", "Value=(\d+)"); ("Temp", "Temp=(\d+)")]]> ∅))
    ["init"; "execute"].

(** A sequence of three stages. *)
Definition cfg_three_stages : config :=
  Config ["%Y/%m/%d %H:%M:%S.%f"]
    (<["init" := [("Step", "Step=(\d+)")]]>
       (<["prepare" := [("Mode", "Mode=(\d+)")]]>
          (<["execute" := [("Value", "Value=(\d+)")]]> ∅)))
    ["init"; "prepare"; "execute"].

(** A sequence of a single stage. *)
Definition cfg_one_stage : config :=
  Config ["%Y/%m/%d %H:%M:%S.%f"]
    (<["execute" := [("Value", "Value=(\d+)")]]> ∅)
    ["execute"].

(** A field named like the key that holds the timestamp. *)
Definition cfg_time_field : config :=
  Config ["%Y/%m/%d %H:%M:%S.%f"]
    (<["execute" := [("time", "time=(\d+)")]]> ∅)
    ["execute"].

(** A first format that repeats a directive, before the format of the
    test. *)
Definition cfg_repeated_directive : config :=
  Config ["%Y %Y"; "%Y/%m/%d %H:%M:%S.%f"]
    (<["init" := [("Step", "Step=(\d+)")]]>
       (<["execute" := [("Value", "Value=(\d+)")]]> ∅))
    ["init"; "execute"].

(** The fresh cycle of init, execute. *)
Definition cycle_empty2 : cycle :=
  <["execute" := SList []]> (<["execute" := SNone]> (<["init" := SNone]> ∅)).

(** 2025-07-09 00:00:00 *)
Definition t0 : Z := 63887616000000000.

(** The event of type [evt] at [sec] seconds after [t0], with one field. *)
Definition ev (evt : string) (sec : Z) (field value : string) : event :=
  <[field := EStr value]> (new_event (Naive (t0 + sec * 1000000)) "a.log" evt).

Definition fresh : processor := Processor [] [] ∅.

(** The cycle of one init event and one execute event. *)
Definition cycle_one : cycle :=
  <["execute" := SList [ev "execute" 1 "Value" "100"]]>
    (<["init" := SEvent (ev "init" 0 "Step" "1")]> ∅).

(** The same with an execute event that has the field [Temp] only. *)
Definition cycle_no_value : cycle :=
  <["execute" := SList [ev "execute" 1 "Temp" "20"]]>
    (<["init" := SEvent (ev "init" 0 "Step" "1")]> ∅).

(** The fresh cycle of the three stages. *)
Definition cycle_empty3 : cycle :=
  <["execute" := SList []]>
    (<["execute" := SNone]> (<["prepare" := SNone]> (<["init" := SNone]> ∅))).

(** [process_files] on the single file [a.log]: [process_file] on its
    lines, then [analyze_events]. *)
Definition process (cfg : config) (lines : list string) : res processor :=
  analyze_events cfg (process_file cfg "a.log" lines fresh).

End Examples.

(** ** The order of the events *)

(** The naive [datetime] under ['time'], for an event that holds one. *)
Definition time_of (e : event) : Z :=
  match e !! "time" with
  | Some (ETime t) => t
  | _ => 0
  end.

(** The event holds a naive [datetime] under ['time']. *)
Definition has_time (e : event) : Prop := ∃ t, e !! "time" = Some (ETime t).

(** What a key is: a naive [datetime], an aware one or a string.  Keys
    of two kinds do not compare. *)
Definition kind (k : evval) : nat :=
  match k with
  | ETime _ => 0
  | EAware _ _ => 1
  | EStr _ => 2
  end.

(** The sort of [sort_events] on pairs of a time and an event. *)
Fixpoint insert_timed (t : Z) (e : event) (l : list (Z * event)) : list (Z * event) :=
  match l with
  | [] => [(t, e)]
  | (t', e') :: rest =>
      if t' <? t then (t', e') :: insert_timed t e rest else (t, e) :: l
  end.

Fixpoint sort_timed (l : list (Z * event)) : list (Z * event) :=
  match l with
  | [] => []
  | (t, e) :: rest => insert_timed t e (sort_timed rest)
  end.

Definition as_key (p : Z * event) : evval * event := (ETime p.1, p.2).

(** The events with their times. *)
Definition timed (evs : list event) : list (Z * event) :=
  (λ e, (time_of e, e)) <$> evs.

(** The type of the event is a stage of the sequence. *)
Definition known (seq : list string) (e : event) : bool :=
  match e !! "type" with
  | Some (EStr name) => bool_decide (is_Some (index seq name))
  | _ => false
  end.

(** ** A sequence of a single stage *)

(** The stage [name] of the call holds an event, not a list. *)
Definition holds_event (name : string) (call : cycle * gset evval) : Prop :=
  ∃ e : event, call.1 !! name = Some (SEvent e) ∧ is_Some (e !! "type").

Definition single_stage_inv (name : string) (m : machine (Self := calls)) : Prop :=
  (m_state m = 1%nat → holds_event name (m_cycle m, m_sources m))
  ∧ (m_state m ≤ 1)%nat
  ∧ Forall (holds_event name) (m_self m).

(** ** Counters and records *)

(** [metrics[k]], read without storing. *)
Definition counter (m : gmap string Z) (k : string) : Z := default 0 (m !! k).

(** The record is one that [finalize_cycle] appends. *)
Definition appended `{Runtime} (cfg : config) (rec : record) : Prop :=
  validate_record rec = true
  ∧ ∃ cyc files, build_record cfg cyc files = Ok rec.

(** The record [finalize_cycle] appends for a call, if any, and whether
    [build_record] raises on it. *)
Definition accepted_record `{Runtime} (cfg : config)
    (call : cycle * gset evval) : option record :=
  match build_record cfg call.1 call.2 with
  | Ok rec => if validate_record rec then Some rec else None
  | Raise _ => None
  end.

Definition raises `{Runtime} (cfg : config) (call : cycle * gset evval) : bool :=
  match build_record cfg call.1 call.2 with
  | Ok _ => false
  | Raise _ => true
  end.

(** The records appended for the calls of a log, in order. *)
Definition accepted `{Runtime} (cfg : config) (log : calls) : list record :=
  omap (accepted_record cfg) log.

(** What the calls of [finalize_cycle] of a log do to the processor. *)
Definition finalize_effect `{Runtime} (cfg : config) (log : calls)
    (self self' : processor) : Prop :=
  events self' = events self
  ∧ results self' = results self ++ accepted cfg log
  ∧ counter (metrics self') "cycles_completed"
    = counter (metrics self) "cycles_completed"
      + Z.of_nat (length (accepted cfg log))
  ∧ counter (metrics self') "cycle_errors"
    = counter (metrics self) "cycle_errors"
      + Z.of_nat (length (filter (λ call, raises cfg call = true) log))
  ∧ ∀ k, k ≠ "cycles_completed" → k ≠ "cycle_errors" →
      metrics self' !! k = metrics self !! k.

(** The cycles [analyze_events] finalizes: none without events, else
    those of the loop on the sorted events. *)
Definition analyzed `{Runtime} (cfg : config) (self : processor)
    (log : calls) : Prop :=
  match events self with
  | [] => log = []
  | _ => ∃ sorted, sort_events (events self) = Ok sorted
                   ∧ finalized (EVENT_SEQUENCE cfg) sorted = Ok log
  end.

(** The counters agree with the data: the events counted are the events
    held, the cycles counted are the records held. *)
Definition counted {F : Type} (self : GenericLogProcessor F) : Prop :=
  counter (metrics self) "events_parsed" = Z.of_nat (length (events self))
  ∧ counter (metrics self) "cycles_completed" = Z.of_nat (length (results self)).

(** Nothing that [parse_line] does raises: every stage of the sequence
    has patterns; on no line does a pattern raise, in the search or in
    the reading of its group 1; and no timestamp format makes [strptime]
    raise anything but [ValueError]. *)
Definition searchable `{Runtime} (cfg : config) : Prop :=
  Forall (λ name, is_Some (PATTERN_CONFIG cfg !! name)) (EVENT_SEQUENCE cfg)
  ∧ (∀ name patterns field pat line e,
       PATTERN_CONFIG cfg !! name = Some patterns → (field, pat) ∈ patterns →
       re_search pat line ≠ SearchRaises e)
  ∧ ∀ fmt text e, fmt ∈ TIMESTAMP_FORMATS cfg → strptime text fmt ≠ ParseRaises e.

(** The keys a record may hold. *)
Definition record_keys (cfg : config) : list string :=
  ["SourceFiles"; "StartTime"] ++ fields cfg "query" ++ fields cfg "technique"
  ++ match last (EVENT_SEQUENCE cfg) with
     | Some l => (λ field, "Avg" +:+ field) <$> fields cfg l
     | None => []
     end
  ++ ["frames"; "Duration(s)"].

(** ** Complete passes through the sequence *)

(** One event for each stage of the sequence, in the order of the
    stages, each from some file. *)
Definition pass (seq : list string) (block : list event) : Prop :=
  Forall2 event_of seq block.

(** What a stage holds at the end of a pass: the last stage a list, every
    other stage the event. *)
Definition stage_slot (seq : list string) (i : nat) (e : event) : slot :=
  if decide (S i = length seq) then SList [e] else SEvent e.

(** The cycle holds the events of the pass, each under its stage, and
    the files are those of its events. *)
Definition holds_pass (seq : list string) (block : list event)
    (call : cycle * gset evval) : Prop :=
  (∀ i name e, seq !! i = Some name → block !! i = Some e →
     call.1 !! name = Some (stage_slot seq i e))
  ∧ ∀ file, file ∈ call.2 ↔ ∃ e, e ∈ block ∧ e !! "file" = Some file.

(** The same after the first [i] events of the pass. *)
Definition pass_inv (seq : list string) (block : list event) (i : nat)
    (m : machine (Self := calls)) : Prop :=
  m_state m = i
  ∧ (∀ j name e, (j < i)%nat → seq !! j = Some name → block !! j = Some e →
       m_cycle m !! name = Some (stage_slot seq j e))
  ∧ ((i < length seq)%nat → ∀ l, last seq = Some l → m_cycle m !! l = Some (SList []))
  ∧ ∀ file, file ∈ m_sources m
      ↔ ∃ j e, (j < i)%nat ∧ block !! j = Some e ∧ e !! "file" = Some file.

(** ** The keys of the natural order *)

(** A key is text and numbers in turn, from a text to a text. *)
Fixpoint alternates (text : bool) (key : list part) : bool :=
  match key with
  | [] => negb text
  | PStr _ :: key' => text && alternates false key'
  | PInt _ :: key' => negb text && alternates true key'
  end.

Fixpoint no_digits (p : string) : bool :=
  match p with
  | EmptyString => true
  | String c p' => negb (is_digit c) && no_digits p'
  end.

(** Not below, in the order of the keys. *)
Definition key_le (a b : string) : Prop :=
  list_lt (natural_sort_key b) (natural_sort_key a) = Ok false.

(** The sort of [sort_paths] when no comparison raises. *)
Definition key_ltb (a b : list part) : bool :=
  match list_lt a b with
  | Ok true => true
  | _ => false
  end.

Fixpoint insert_compared (k : list part) (path : string)
    (l : list (list part * string)) : list (list part * string) :=
  match l with
  | [] => [(k, path)]
  | (k', path') :: rest =>
      if key_ltb k' k then (k', path') :: insert_compared k path rest
      else (k, path) :: l
  end.

Fixpoint sort_compared (l : list (list part * string)) : list (list part * string) :=
  match l with
  | [] => []
  | (k, path) :: rest => insert_compared k path (sort_compared rest)
  end.

(** The paths with their keys. *)
Definition with_keys (paths : list string) : list (list part * string) :=
  (λ path, (natural_sort_key path, path)) <$> paths.

(** The string does not start with a digit. *)
Definition text_first (p : string) : bool :=
  match p with
  | EmptyString => true
  | String c _ => negb (is_digit c)
  end.

(** ** More sample inputs *)

Module Inputs.
Import Sample Examples.

(** A sequence with the two stages whose fields [build_record] copies. *)
Definition cfg_query : config :=
  Config ["%Y/%m/%d %H:%M:%S.%f"]
    (<["query" := [("Sample", "Sample=(\d+)")]]>
       (<["technique" := [("Mode", "Mode=(\d+)")]]>
          (<["execute" := [("Value", "Value=(\d+)")]]> ∅)))
    ["query"; "technique"; "execute"].

(** One pass through it. *)
Definition cycle_query : cycle :=
  <["execute" := SList [ev "execute" 2 "Value" "100"]]>
    (<["technique" := SEvent (ev "technique" 1 "Mode" "2")]>
       (<["query" := SEvent (ev "query" 0 "Sample" "7")]> ∅)).

(** A pattern that is not a regular expression. *)
Definition cfg_bad_pattern : config :=
  Config ["%Y/%m/%d %H:%M:%S.%f"]
    (<["init" := [("Step", "Step=(\d+")]]> ∅)
    ["init"].

(** The two lines of the repository's test. *)
Definition lines : list string :=
  ["[2025/07/09 00:00:00.000] Step=1"; "[2025/07/09 00:00:01.000] Value=100"].

End Inputs.

(** * Lemmas and theorems *)

Lemma bind_Ok {A B : Type} (m : res A) (f : A → res B) b :
  bind m f = Ok b → ∃ a, m = Ok a ∧ f a = Ok b.
Proof. destruct m as [a|e]; simpl; [eauto|done]. Qed.

Lemma foldM_app {A B : Type} (f : B → A → res B) b l1 l2 :
  foldM f b (l1 ++ l2) = (b' <- foldM f b l1;; foldM f b' l2).
Proof.
  revert b. induction l1 as [|x l1 IH]; intros b; simpl; [done|].
  destruct (f b x); simpl; [apply IH|done].
Qed.

(** An invariant of the loop carries over a run of it. *)
Lemma foldM_invariant {A B : Type} (f : B → A → res B) (P : B → Prop) l b b' :
  (∀ b x b', P b → f b x = Ok b' → P b') →
  P b → foldM f b l = Ok b' → P b'.
Proof.
  intros Hstep. revert b. induction l as [|x l IH]; intros b Hb; simpl.
  - by intros [= <-].
  - intros (b1 & Hb1 & Hrest)%bind_Ok. eauto.
Qed.

Ltac inv_bind H :=
  repeat match type of H with
         | bind _ _ = Ok _ =>
             let a := fresh "a" in
             let Ha := fresh "Ha" in
             apply bind_Ok in H as (a & Ha & H)
         end.

(** ** The timestamp parser *)

Lemma span_bracket_split s g r :
  span_bracket s = (g, r) →
  s = g +:+ r ∧ no_close g = true
  ∧ (r = EmptyString ∨ ∃ r', r = String "]" r').
Proof.
  revert g r. induction s as [|c s IH]; intros g r; simpl.
  - intros [= <- <-]. auto.
  - destruct (Ascii.eqb_spec c "]") as [->|Hc].
    + intros [= <- <-]. simpl. eauto.
    + destruct (span_bracket s) as [g0 r0]. intros [= <- <-].
      destruct (IH _ _ eq_refl) as (-> & Hg & Hr). simpl.
      rewrite Hg. by destruct (Ascii.eqb_spec c "]").
Qed.

Lemma span_bracket_app g post :
  no_close g = true →
  span_bracket (g +:+ String "]" post) = (g, String "]" post).
Proof.
  induction g as [|c g IH]; simpl; [done|].
  intros [Hc Hg]%andb_true_iff. destruct (Ascii.eqb c "]"); [done|].
  by rewrite (IH Hg).
Qed.

(** A match at the very start of [String "[" rest]. *)
Lemma bracketed_here rest g post :
  bracketed (String "[" rest) EmptyString g post →
  ∃ a g', g = String a g' ∧ span_bracket rest = (g, String "]" post).
Proof.
  intros ([= ->] & Hne & Hg). destruct g as [|a g']; [done|].
  exists a, g'. split; [done|]. by apply span_bracket_app.
Qed.

Lemma bracketed_cons c rest pre g post :
  bracketed (String c rest) (String c pre) g post ↔ bracketed rest pre g post.
Proof.
  unfold bracketed. simpl. split.
  - intros ([= ->] & ? & ?). done.
  - intros (-> & ? & ?). done.
Qed.

Lemma bracketed_inv c rest pre g post :
  bracketed (String c rest) pre g post →
  (pre = EmptyString ∧ c = "["%char)
  ∨ ∃ pre', pre = String c pre' ∧ bracketed rest pre' g post.
Proof.
  destruct pre as [|c' pre'].
  - intros (Heq & _). simpl in Heq. injection Heq as -> _. by left.
  - intros H0. assert (Heq := proj1 H0). simpl in Heq.
    injection Heq as <- _. right. exists pre'.
    split; [done|]. exact (proj1 (bracketed_cons _ _ _ _ _) H0).
Qed.

Lemma search_bracket_Some line g :
  search_bracket line = Some g → ∃ pre post, first_bracketed line pre g post.
Proof.
  revert g. induction line as [|c rest IH]; intros g; simpl; [done|].
  assert (Hrec : search_bracket rest = Some g →
                 (∀ g' post', ¬ bracketed (String c rest) EmptyString g' post') →
                 ∃ pre post, first_bracketed (String c rest) pre g post).
  { intros Hs Hno. destruct (IH _ Hs) as (pre & post & Hb & Hleft).
    exists (String c pre), post. split; [by apply bracketed_cons|].
    intros pre' g' post' Hb'.
    destruct (bracketed_inv _ _ _ _ _ Hb') as [[-> _]|(p & -> & Hp)].
    - by destruct (Hno _ _ Hb').
    - simpl. apply le_n_S. eauto. }
  destruct (Ascii.eqb_spec c "[") as [->|Hc].
  - destruct (span_bracket rest) as [g0 r0] eqn:Hspan.
    destruct (span_bracket_split _ _ _ Hspan) as (Hrest & Hg0 & Hr0).
    destruct g0 as [|a g0].
    + intros Hs. apply Hrec; [by destruct r0|].
      intros g' post' (a' & g'' & -> & Hsp)%bracketed_here. congruence.
    + destruct Hr0 as [->|[r' ->]].
      * intros Hs. apply Hrec; [done|].
        intros g' post' (a' & g'' & -> & Hsp)%bracketed_here. congruence.
      * intros [= <-]. exists EmptyString, r'. split.
        -- split; [by rewrite Hrest|done].
        -- intros. simpl. lia.
  - intros Hs. apply Hrec; [done|].
    intros g' post' ([= ->] & _). done.
Qed.

Lemma search_bracket_None line :
  search_bracket line = None → ∀ pre g post, ¬ bracketed line pre g post.
Proof.
  induction line as [|c rest IH]; simpl.
  - intros _ [|??] g post (Heq & _); simpl in Heq; discriminate.
  - intros Hs pre g post Hb.
    destruct (bracketed_inv _ _ _ _ _ Hb) as [[-> ->]|(p & -> & Hp)].
    + apply bracketed_here in Hb as (a & g' & -> & Hsp).
      simpl in Hs. by rewrite Hsp in Hs.
    + assert (search_bracket rest = None) as Hrest.
      { destruct (Ascii.eqb c "["); [|done].
        destruct (span_bracket rest) as [[|??] [|??]]; done. }
      by eapply IH.
Qed.

Section timestamps.
Context `{Runtime}.

Lemma first_format_first_parse text fmts :
  first_parse text fmts (first_format text fmts).
Proof.
  induction fmts as [|fmt fmts IH]; simpl.
  - intros fmt Hin. by apply elem_of_nil in Hin.
  - destruct (strptime text fmt) as [d| |e] eqn:Hfmt.
    + exists 0%nat, fmt. split_and!; [done..|]. intros; lia.
    + destruct (first_format text fmts) as [[d|]|e]; simpl in *.
      * destruct IH as (i & fmt' & Hi & Ht & Hbefore).
        exists (S i), fmt'. split_and!; [done..|].
        intros [|j] f Hj; simpl; [by intros [= <-]|].
        intros Hf. eapply Hbefore; [|done]. lia.
      * intros f [->|Hin]%elem_of_cons; auto.
      * destruct IH as (i & fmt' & Hi & Ht & Hbefore).
        exists (S i), fmt'. split_and!; [done..|].
        intros [|j] f Hj; simpl; [by intros [= <-]|].
        intros Hf. eapply Hbefore; [|done]. lia.
    + exists 0%nat, fmt. split_and!; [done..|]. intros; lia.
Qed.

(** C10, amended. The timestamp parser takes the first bracketed substring
    of the line (an opening bracket, one or more characters other than
    the closing bracket, the closing bracket).  When the line has none it
    returns no timestamp.  Otherwise it tries the formats on the
    bracketed text from left to right, passing over those that fail with
    [ValueError]: the first format that does not decides, its parse being
    the timestamp returned, or the exception it raises leaving the parser
    and [parse_line]; and there is no timestamp when every format fails
    with [ValueError].  Without a timestamp [parse_line] adds no event. *)
Theorem extract_timestamp_first_bracket (cfg : config) (line : string) :
  ((∀ pre g post, ¬ bracketed line pre g post)
     ∧ extract_timestamp cfg line = Ok None
   ∨ ∃ pre g post, first_bracketed line pre g post
       ∧ first_parse g (TIMESTAMP_FORMATS cfg) (extract_timestamp cfg line))
  ∧ (extract_timestamp cfg line = Ok None →
     ∀ filename self, parse_line cfg line filename self = Ok self)
  ∧ ∀ e, extract_timestamp cfg line = Raise e →
      ∀ filename self, parse_line cfg line filename self = Raise e.
Proof.
  split_and!.
  - unfold extract_timestamp.
    destruct (search_bracket line) as [g|] eqn:Hs.
    + right. destruct (search_bracket_Some _ _ Hs) as (pre & post & Hb).
      exists pre, g, post. split; [done|]. apply first_format_first_parse.
    + left. split; [|done]. by apply search_bracket_None.
  - intros Hnone filename self. unfold parse_line. by rewrite Hnone.
  - intros e Hraise filename self. unfold parse_line. by rewrite Hraise.
Qed.

End timestamps.

(** ** The state machine *)

Lemma index_lookup seq x i : index seq x = Some i → seq !! i = Some x.
Proof.
  revert i. induction seq as [|y seq IH]; intros i; simpl; [done|].
  case_decide as Hy; [by intros [= <-]; subst|].
  destruct (index seq x) as [j|]; simpl; [|done].
  intros [= <-]. simpl. by apply IH.
Qed.

Lemma index_lt seq x i : index seq x = Some i → (i < length seq)%nat.
Proof. intros Hi. eapply lookup_lt_Some, index_lookup, Hi. Qed.

Lemma last_lookup_pred (seq : list string) l :
  last seq = Some l → seq !! (length seq - 1)%nat = Some l.
Proof. rewrite last_lookup. by replace (pred (length seq)) with (length seq - 1)%nat by lia. Qed.

Lemma empty_cycle_last seq cyc l :
  empty_cycle seq = Ok cyc → last seq = Some l → cyc !! l = Some (SList []).
Proof.
  unfold empty_cycle. intros Hc Hl. rewrite Hl in Hc. injection Hc as <-.
  apply lookup_insert_eq.
Qed.

Section replay.
Context {Self : Type} (finalize : cycle → gset evval → Self → Self).

Lemma replay_snoc log cyc files self :
  replay finalize (record_call cyc files log) self
  = finalize cyc files (replay finalize log self).
Proof. unfold replay, record_call. by rewrite foldl_app. Qed.

Lemma replay_cons call log self :
  replay finalize (call :: log) self
  = replay finalize log (finalize call.1 call.2 self).
Proof. done. Qed.

Lemma step_replay seq self m ev :
  step finalize seq (with_self finalize self m) ev
  = (m' <- step record_call seq m ev;; Ok (with_self finalize self m')).
Proof.
  destruct m as [st cyc files log].
  unfold step, with_self, getitem, append_event, getitem, bind. simpl.
  repeat (case_match; simplify_eq/=; try done); by rewrite ?replay_snoc.
Qed.

Lemma foldM_step_replay seq self m evs :
  foldM (step finalize seq) (with_self finalize self m) evs
  = (m' <- foldM (step record_call seq) m evs;; Ok (with_self finalize self m')).
Proof.
  revert m. induction evs as [|ev evs IH]; intros m; simpl; [done|].
  rewrite step_replay. destruct (step record_call seq m ev) as [m'|e]; simpl; [|done].
  apply IH.
Qed.

(** [run] makes the calls of [finalized], in order. *)
Lemma run_replay seq self evs :
  run finalize seq self evs = (log <- finalized seq evs;; Ok (replay finalize log self)).
Proof.
  unfold finalized, run. destruct (empty_cycle seq) as [cyc|e]; simpl; [|done].
  pose proof (foldM_step_replay seq self (Machine 0 cyc ∅ []) evs) as Hrun.
  unfold with_self in Hrun at 1. simpl in Hrun. rewrite Hrun.
  destruct (foldM (step record_call seq) _ evs) as [[st c f log]|e]; simpl; [|done].
  unfold flush. simpl. case_match; simpl; by rewrite ?replay_snoc.
Qed.

End replay.

Section one_event.
Context (seq : list string) (l : string).
Context (Hlast : last seq = Some l) (Hlen : (2 ≤ length seq)%nat).

Lemma step_one_event m ev m' :
  one_event_inv seq l m → step record_call seq m ev = Ok m' →
  one_event_inv seq l m'.
Proof using Hlast Hlen.
  destruct m as [st cyc files log]. intros (Hle & Hfull & Hpart & Hlog).
  simpl in *. unfold step, getitem, bind. simpl.
  destruct (ev !! "type") as [[t|t o|name]|];
    [by intros [= <-]|by intros [= <-]| |done].
  destruct (index seq name) as [idx|] eqn:Hidx; [|by intros [= <-]].
  pose proof (index_lt _ _ _ Hidx) as Hlt.
  pose proof (index_lookup _ _ _ Hidx) as Hname.
  pose proof (last_lookup_pred _ _ Hlast) as Hl.
  destruct (Nat.eqb_spec idx 0) as [->|Hidx0].
  - destruct (empty_cycle seq) as [cyc0|] eqn:Hcyc; [|done].
    destruct (ev !! "file") as [file|]; [|done]. intros [= <-].
    split_and!; simpl.
    + lia.
    + lia.
    + intros _ Huniq. rewrite lookup_insert_ne.
      * by eapply empty_cycle_last.
      * intros ->. rewrite Hidx in Huniq. injection Huniq. lia.
    + destruct (Nat.eqb_spec st (length seq)) as [Hst|_]; [|done].
      apply Forall_app. split; [done|]. apply Forall_singleton. by apply Hfull.
  - destruct (Nat.eqb_spec idx st) as [<-|_]; [|intros [= <-]; split_and!; simpl; [lia..|done]].
    destruct (Nat.eqb_spec idx (length seq - 1)) as [Hend|Hmid].
    + assert (name = l) as -> by (rewrite Hend in Hname; congruence).
      unfold append_event, getitem, bind.
      rewrite Hpart; [|lia|by rewrite Hidx, Hend].
      destruct (ev !! "file") as [file|]; [|done]. intros [= <-].
      split_and!; simpl; [lia| |lia|done].
      intros _. exists ev. apply lookup_insert_eq.
    + simpl. destruct (ev !! "file") as [file|]; [|done]. intros [= <-].
      split_and!; simpl; [lia|lia| |done].
      intros _ Huniq. rewrite lookup_insert_ne.
      * apply Hpart; [lia|done].
      * intros ->. rewrite Hidx in Huniq. by injection Huniq.
Qed.

Lemma finalized_one_event evs log :
  finalized seq evs = Ok log → Forall (one_event l) log.
Proof using Hlast Hlen.
  unfold finalized, run.
  intros (cyc & Hcyc & (m & Hrun & [= <-])%bind_Ok)%bind_Ok.
  assert (one_event_inv seq l m) as (_ & Hfull & _ & Hlog).
  { eapply (foldM_invariant _ (one_event_inv seq l)); [apply step_one_event| |done].
    split_and!; simpl; [lia|lia|lia|done]. }
  unfold flush. destruct (Nat.eqb_spec (m_state m) (length seq)) as [Hst|_]; [|done].
  apply Forall_app. split; [done|]. apply Forall_singleton. by apply Hfull.
Qed.

End one_event.

(** ** Records *)

Section records.
Context `{Runtime}.

(** What [build_record] returns, step by step. *)
Lemma build_record_Ok cfg cyc files rec :
  build_record cfg cyc files = Ok rec →
  ∃ l names start rec1 patterns rec2 frames,
    let timing_events := default (SList []) (cyc !! l) in
    last_stage cfg = Ok l
    ∧ source_files_str files = Ok names
    ∧ start_time (cycle_get cyc "technique") = Ok start
    ∧ foldM (copy_stage cfg cyc)
        (<["StartTime" := VStr start]> (<["SourceFiles" := VStr names]> ∅))
        ["query"; "technique"] = Ok rec1
    ∧ getitem (PATTERN_CONFIG cfg) l = Ok patterns
    ∧ foldM (store_average timing_events) rec1 patterns = Ok rec2
    ∧ slot_len timing_events = Ok frames
    ∧ rec = match duration timing_events with
            | Some d => <["Duration(s)" := d]> (<["frames" := VInt frames]> rec2)
            | None => <["frames" := VInt frames]> rec2
            end.
Proof.
  unfold build_record. intros Hb. inv_bind Hb. injection Hb as <-.
  by eexists _, _, _, _, _, _, _.
Qed.

Lemma build_record_frames cfg cyc files rec l evs :
  build_record cfg cyc files = Ok rec →
  last_stage cfg = Ok l → cyc !! l = Some (SList evs) →
  rec !! "frames" = Some (VInt (Z.of_nat (length evs))).
Proof.
  intros (l' & names & start & rec1 & patterns & rec2 & frames
          & Hl & _ & _ & _ & _ & _ & Hframes & ->)%build_record_Ok Hl' Hevs.
  simpl in *. rewrite Hl in Hl'. injection Hl' as ->.
  rewrite Hevs in *. simpl in *. injection Hframes as <-.
  destruct (duration (SList evs)); by simplify_map_eq.
Qed.

(** The records [finalize_cycle] appends over the calls of a log are
    those built from the calls and accepted. *)
Lemma replay_finalize cfg log self :
  ∃ new,
    results (replay (finalize_cycle cfg) log self) = results self ++ new
    ∧ Forall (λ rec, ∃ call, call ∈ log
                ∧ build_record cfg call.1 call.2 = Ok rec
                ∧ validate_record rec = true) new.
Proof.
  revert self. induction log as [|call log IH]; intros self.
  - exists []. by rewrite app_nil_r.
  - rewrite replay_cons.
    destruct (IH (finalize_cycle cfg call.1 call.2 self)) as (new & -> & Hnew).
    assert (Forall (λ rec, ∃ call', call' ∈ call :: log
                      ∧ build_record cfg call'.1 call'.2 = Ok rec
                      ∧ validate_record rec = true) new) as Hnew'.
    { eapply Forall_impl; [done|]. intros rec (c & ? & ?). exists c.
      split; [by apply elem_of_cons; right|done]. }
    unfold finalize_cycle.
    destruct (build_record cfg call.1 call.2) as [rec|e] eqn:Hrec; simpl.
    + destruct (validate_record rec) eqn:Hvalid; simpl.
      * exists (rec :: new). split; [by rewrite <- app_assoc|].
        apply Forall_cons. split; [|done]. exists call.
        split; [apply elem_of_cons; by left|done].
      * by exists new.
    + by exists new.
Qed.

End records.

(** ** Sorting by time *)

Lemma sort_keyed_sorted ts evs :
  Sorted Z.le ts → sort_keyed (keyed ts evs) = Ok (keyed ts evs).
Proof.
  intros Hs. revert evs. induction Hs as [|t ts Hs IH Hhd]; intros evs; [done|].
  destruct evs as [|e evs]; [done|]. unfold keyed. simpl.
  fold (keyed ts evs). rewrite IH. simpl.
  destruct Hhd as [|t' ts' Hle]; [by destruct evs|].
  destruct evs as [|e' evs]; [done|]. simpl.
  by destruct (Z.ltb_spec t' t); [lia|].
Qed.

Lemma keyed_snd ts (evs : list event) :
  length ts = length evs → (keyed ts evs).*2 = evs.
Proof.
  revert evs. induction ts as [|t ts IH]; intros [|e evs]; simpl; try done.
  intros [= Hlen]. f_equal. by apply IH.
Qed.

(** Sorting leaves a list that is in order as it is. *)
Lemma sort_events_ordered evs : time_ordered evs → sort_events evs = Ok evs.
Proof.
  intros (ts & Hts & Hs). unfold sort_events.
  assert (mapM (λ ev : event, k <- getitem ev "time";; Ok (k, ev)) evs
          = Ok (keyed ts evs)) as ->.
  { clear Hs. induction Hts as [|e t evs ts He _ IH]; [done|].
    simpl. unfold getitem at 1. rewrite He. simpl. by rewrite IH. }
  cbn [bind]. rewrite (sort_keyed_sorted _ _ Hs). cbn [bind].
  by rewrite keyed_snd by (symmetry; eapply Forall2_length, Hts).
Qed.

Section analyze.
Context `{Runtime}.

(** [analyze_events] sorts the events and makes the calls of [finalized]. *)
Lemma analyze_events_replay cfg self :
  analyze_events cfg self
  = match events self with
    | [] => Ok self
    | _ =>
        sorted <- sort_events (events self);;
        log <- finalized (EVENT_SEQUENCE cfg) sorted;;
        Ok (replay (finalize_cycle cfg) log
              (Processor sorted (results self) (metrics self)))
    end.
Proof.
  unfold analyze_events. destruct (events self); [done|].
  destruct (sort_events _); simpl; [|done]. apply run_replay.
Qed.

End analyze.

(** ** The two-stage sequence *)

Section steps.
Context {Self : Type} (finalize : cycle → gset evval → Self → Self).

(** The three branches of the loop body, and the skipped events. *)
Lemma step_first seq m ev name file cyc0 :
  ev !! "type" = Some (EStr name) → index seq name = Some 0%nat →
  ev !! "file" = Some file → empty_cycle seq = Ok cyc0 →
  step finalize seq m ev
  = Ok (Machine 1 (<[name := SEvent ev]> cyc0) {[file]}
          (if (m_state m =? length seq)%nat
           then finalize (m_cycle m) (m_sources m) (m_self m) else m_self m)).
Proof.
  intros Hty Hidx Hfile Hcyc. unfold step, getitem, bind.
  by rewrite Hty, Hidx, Hcyc, Hfile.
Qed.

Lemma step_last seq m ev name file evs :
  ev !! "type" = Some (EStr name) → index seq name = Some (m_state m) →
  m_state m ≠ 0%nat → m_state m = (length seq - 1)%nat →
  ev !! "file" = Some file → m_cycle m !! name = Some (SList evs) →
  step finalize seq m ev
  = Ok (Machine (S (m_state m)) (<[name := SList (evs ++ [ev])]> (m_cycle m))
          ({[file]} ∪ m_sources m) (m_self m)).
Proof.
  intros Hty Hidx Hst Hend Hfile Hevs.
  unfold step, append_event, getitem, bind. rewrite Hty, Hidx, Hevs, Hfile.
  destruct (Nat.eqb_spec (m_state m) 0); [done|].
  rewrite Nat.eqb_refl. by destruct (Nat.eqb_spec (m_state m) (length seq - 1)).
Qed.

Lemma step_unexpected seq m ev name idx :
  ev !! "type" = Some (EStr name) → index seq name = Some idx →
  idx ≠ 0%nat → idx ≠ m_state m →
  step finalize seq m ev = Ok (Machine 0 (m_cycle m) (m_sources m) (m_self m)).
Proof.
  intros Hty Hidx H0 Hst. unfold step, getitem, bind. rewrite Hty, Hidx.
  destruct (Nat.eqb_spec idx 0); [done|].
  by destruct (Nat.eqb_spec idx (m_state m)).
Qed.

Lemma step_unknown seq m ev name :
  ev !! "type" = Some (EStr name) → index seq name = None →
  step finalize seq m ev = Ok m.
Proof. intros Hty Hidx. unfold step, getitem, bind. by rewrite Hty, Hidx. Qed.

End steps.

Section two_stages.
Context `{Runtime}.

(** C1. For the sequence init, execute: the events init, execute, init,
    execute, in time order, make the state machine finalize exactly two
    cycles, the first holding the first two events and the second the
    last two; the events execute, init make it finalize none. *)
Theorem init_execute_twice_two_cycles cfg (e1 e2 e3 e4 x y : event) rs ms :
  EVENT_SEQUENCE cfg = ["init"; "execute"] →
  event_of "init" e1 → event_of "execute" e2 →
  event_of "init" e3 → event_of "execute" e4 →
  event_of "execute" x → event_of "init" y →
  time_ordered [e1; e2; e3; e4] → time_ordered [x; y] →
  (∃ c1 f1 c2 f2,
     c1 !! "init" = Some (SEvent e1) ∧ c1 !! "execute" = Some (SList [e2])
     ∧ c2 !! "init" = Some (SEvent e3) ∧ c2 !! "execute" = Some (SList [e4])
     ∧ finalized ["init"; "execute"] [e1; e2; e3; e4] = Ok [(c1, f1); (c2, f2)]
     ∧ analyze_events cfg (Processor [e1; e2; e3; e4] rs ms)
       = Ok (replay (finalize_cycle cfg) [(c1, f1); (c2, f2)]
               (Processor [e1; e2; e3; e4] rs ms)))
  ∧ finalized ["init"; "execute"] [x; y] = Ok []
  ∧ analyze_events cfg (Processor [x; y] rs ms) = Ok (Processor [x; y] rs ms).
Proof.
  intros Hseq (T1 & a1 & F1) (T2 & a2 & F2) (T3 & a3 & F3) (T4 & a4 & F4)
    (Tx & ax & Fx) (Ty & ay & Fy) Hord Hord'.
  assert (index ["init"; "execute"] "init" = Some 0%nat) as Hinit by done.
  assert (index ["init"; "execute"] "execute" = Some 1%nat) as Hexec by done.
  assert (empty_cycle ["init"; "execute"]
          = Ok (<["execute" := SList []]>
                  (<["execute" := SNone]> (<["init" := SNone]> ∅)))) as Hcyc by done.
  set (c0 := <["execute" := SList []]> (<["execute" := SNone]> (<["init" := SNone]> ∅)))
    in Hcyc.
  assert (∀ e : event, <["init" := SEvent e]> c0 !! "execute" = Some (SList [])) as Hc0.
  { intros e. unfold c0. by simplify_map_eq. }
  assert (finalized ["init"; "execute"] [e1; e2; e3; e4]
          = Ok [(<["execute" := SList [e2]]> (<["init" := SEvent e1]> c0), {[a2]} ∪ {[a1]});
                (<["execute" := SList [e4]]> (<["init" := SEvent e3]> c0), {[a4]} ∪ {[a3]})])
    as Hfour.
  { unfold finalized, run. rewrite Hcyc. cbn [bind foldM].
    erewrite step_first by done. cbn [bind foldM].
    erewrite step_last by (done || apply Hc0). cbn [bind foldM].
    erewrite step_first by done. cbn [bind foldM].
    erewrite step_last by (done || apply Hc0). done. }
  assert (finalized ["init"; "execute"] [x; y] = Ok []) as Htwo.
  { unfold finalized, run. rewrite Hcyc. cbn [bind foldM].
    erewrite step_unexpected by done. cbn [bind foldM].
    erewrite step_first by done. done. }
  split_and!.
  - eexists _, _, _, _. split_and!; [..|exact Hfour|].
    1-4: by simplify_map_eq.
    rewrite analyze_events_replay. simpl.
    rewrite (sort_events_ordered _ Hord). cbn [bind]. rewrite Hseq, Hfour. done.
  - done.
  - rewrite analyze_events_replay. simpl.
    rewrite (sort_events_ordered _ Hord'). cbn [bind]. rewrite Hseq, Htwo. done.
Qed.

End two_stages.

(** ** Events out of order *)

Section anomaly.
Context (seq : list string).

Lemma step_resumes log0 m1 m2 ev :
  resumes log0 m1 m2 →
  resumes_res log0 (step record_call seq m1 ev) (step record_call seq m2 ev).
Proof.
  destruct m1 as [st c1 f1 l1], m2 as [st2 c2 f2 l2].
  intros (Hst & Hlog & Hcyc). simpl in *. subst st2 l1.
  unfold step, getitem, bind. simpl.
  destruct (ev !! "type") as [[t|t o|name]|]; simpl; [done|done| |done].
  destruct (index seq name) as [idx|] eqn:Hidx; simpl; [|done].
  pose proof (index_lt _ _ _ Hidx) as Hlt.
  destruct (Nat.eqb_spec idx 0) as [->|Hidx0].
  - destruct (empty_cycle seq) as [cyc0|]; simpl; [|done].
    destruct (ev !! "file") as [file|]; simpl; [|done].
    split_and!; simpl; [done| |done].
    destruct (Nat.eqb_spec st (length seq)) as [Hfull|_]; [|done].
    destruct Hcyc as [-> ->]; [lia|]. unfold record_call. by rewrite app_assoc.
  - destruct (Nat.eqb_spec idx st) as [<-|_]; [|by split_and!].
    destruct (Hcyc Hidx0) as [-> ->].
    destruct (if (idx =? length seq - 1)%nat then _ else _) as [cyc|]; simpl; [|done].
    destruct (ev !! "file") as [file|]; simpl; [|done]. by split_and!.
Qed.

Lemma foldM_resumes log0 m1 m2 evs :
  resumes log0 m1 m2 →
  resumes_res log0 (foldM (step record_call seq) m1 evs)
    (foldM (step record_call seq) m2 evs).
Proof.
  revert m1 m2. induction evs as [|ev evs IH]; intros m1 m2 Hres; simpl; [done|].
  pose proof (step_resumes _ _ _ ev Hres) as Hstep.
  destruct (step record_call seq m1 ev), (step record_call seq m2 ev);
    simpl in *; try done. by apply IH.
Qed.

(** After a reset the loop goes on as from a fresh start: the cycles
    finalized are those finalized before, followed by those a fresh
    machine finalizes on the events that follow. *)
Lemma reset_resumes post cyc0 (m : machine (Self := calls)) :
  empty_cycle seq = Ok cyc0 →
  (m' <- foldM (step record_call seq)
           (Machine 0 (m_cycle m) (m_sources m) (m_self m)) post;;
   Ok (flush record_call seq m'))
  = (later <- finalized seq post;; Ok (m_self m ++ later)).
Proof.
  intros Hcyc. unfold finalized, run. rewrite Hcyc. cbn [bind].
  assert (0 < length seq)%nat as Hlen.
  { unfold empty_cycle in Hcyc. destruct seq; simpl in *; [done|lia]. }
  assert (resumes (m_self m) (Machine 0 (m_cycle m) (m_sources m) (m_self m))
            (Machine 0 cyc0 ∅ [])) as Hinit.
  { split_and!; simpl; [done|by rewrite app_nil_r|done]. }
  pose proof (foldM_resumes _ _ _ post Hinit) as Hres.
  destruct (foldM _ (Machine 0 (m_cycle m) _ _) post) as [[st c1 f1 l1]|e1],
    (foldM _ (Machine 0 cyc0 ∅ []) post) as [[st2 c2 f2 l2]|e2];
    simpl in Hres; try done; [|by subst].
  destruct Hres as (Hst' & Hlog & Hc). simpl in *. subst st2 l1.
  unfold flush. simpl.
  destruct (Nat.eqb_spec st (length seq)) as [Hfull|_]; [|done].
  destruct Hc as [-> ->]; [lia|].
  unfold record_call. by rewrite app_assoc.
Qed.

(** C7. When an event arrives whose type, a stage of the sequence as is
    the type of every event the extractor emits, is neither the first
    stage nor the stage expected next, the state is reset to 0 and
    nothing is finalized; the cycles finalized from then on are those a
    fresh machine finalizes on the events that follow, so neither the
    events stored before the anomaly nor the anomalous event appear in
    them. *)
Theorem out_of_order_event_discards_cycle pre ev post name idx cyc0 m :
  empty_cycle seq = Ok cyc0 →
  foldM (step record_call seq) (Machine 0 cyc0 ∅ []) pre = Ok m →
  ev !! "type" = Some (EStr name) → index seq name = Some idx →
  idx ≠ 0%nat → idx ≠ m_state m →
  step record_call seq m ev = Ok (Machine 0 (m_cycle m) (m_sources m) (m_self m))
  ∧ finalized seq (pre ++ ev :: post)
    = (later <- finalized seq post;; Ok (m_self m ++ later)).
Proof.
  intros Hcyc Hpre Hty Hidx Hidx0 Hst.
  pose proof (step_unexpected record_call seq m ev name idx Hty Hidx Hidx0 Hst) as Hstep.
  split; [done|].
  rewrite <- (reset_resumes post cyc0 m Hcyc).
  unfold finalized, run. rewrite Hcyc. cbn [bind].
  rewrite foldM_app, Hpre. cbn [bind foldM]. by rewrite Hstep.
Qed.

(** The terminal state is reached through the last stage only, which is
    then the place of its name in the sequence. *)
Lemma step_terminal_index l m ev m' :
  last seq = Some l → (2 ≤ length seq)%nat →
  (m_state m = length seq → index seq l = Some (length seq - 1)%nat) →
  step record_call seq m ev = Ok m' →
  m_state m' = length seq → index seq l = Some (length seq - 1)%nat.
Proof.
  intros Hlast Hlen Hm. unfold step, getitem, bind.
  destruct (ev !! "type") as [[t|t o|name]|];
    [by intros [= <-]|by intros [= <-]| |done].
  destruct (index seq name) as [idx|] eqn:Hidx; [|by intros [= <-]].
  pose proof (index_lookup _ _ _ Hidx) as Hname.
  pose proof (last_lookup_pred _ _ Hlast) as Hl.
  destruct (Nat.eqb_spec idx 0) as [->|Hidx0].
  - destruct (empty_cycle seq) as [cyc0|]; [|done].
    destruct (ev !! "file") as [file|]; [|done]. intros [= <-]. simpl. lia.
  - destruct (Nat.eqb_spec idx (m_state m)) as [Hst|_];
      [|intros [= <-]; simpl; lia].
    destruct (if (idx =? length seq - 1)%nat then _ else _) as [cyc|]; [|done].
    destruct (ev !! "file") as [file|]; [|done]. intros [= <-]. simpl.
    intros Hfull. assert (idx = (length seq - 1)%nat) as -> by lia.
    rewrite Hname in Hl. by injection Hl as <-.
Qed.

Lemma foldM_terminal_index l cyc0 evs m :
  last seq = Some l → (2 ≤ length seq)%nat →
  foldM (step record_call seq) (Machine 0 cyc0 ∅ []) evs = Ok m →
  m_state m = length seq → index seq l = Some (length seq - 1)%nat.
Proof.
  intros Hlast Hlen Hrun.
  eapply (foldM_invariant _
            (λ m, m_state m = length seq → index seq l = Some (length seq - 1)%nat));
    [| |exact Hrun]; [|intros Hz; simpl in Hz; exfalso; lia].
  intros m0 ev m1 Hm0. by apply step_terminal_index.
Qed.

End anomaly.

Section terminal.
Context `{Runtime}.

(** C3. With an event sequence of two or more stages, whatever the events,
    every cycle handed to [finalize_cycle] holds exactly one event in its
    accumulating (last) stage, and every record added to the results has
    [frames] equal to 1: the append that reaches the terminal state is the
    only one, since a further event of the last stage arriving in the
    terminal state takes the out-of-order branch.  The state is reset to
    0 and nothing is finalized; the cycles finalized are those finalized
    before and those a fresh machine finalizes on the events that follow,
    so the cycle that was complete is never finalized. *)
Theorem finalized_cycle_has_one_timing_event cfg self self' :
  (2 ≤ length (EVENT_SEQUENCE cfg))%nat →
  analyze_events cfg self = Ok self' →
  ∃ l sorted log new,
    last (EVENT_SEQUENCE cfg) = Some l
    ∧ sort_events (events self) = Ok sorted
    ∧ finalized (EVENT_SEQUENCE cfg) sorted = Ok log
    ∧ Forall (λ call, ∃ e, call.1 !! l = Some (SList [e])) log
    ∧ results self' = results self ++ new
    ∧ Forall (λ rec, rec !! "frames" = Some (VInt 1)) new
    ∧ ∀ pre ev post cyc0 m,
        empty_cycle (EVENT_SEQUENCE cfg) = Ok cyc0 →
        foldM (step record_call (EVENT_SEQUENCE cfg)) (Machine 0 cyc0 ∅ []) pre
        = Ok m →
        m_state m = length (EVENT_SEQUENCE cfg) →
        ev !! "type" = Some (EStr l) →
        step record_call (EVENT_SEQUENCE cfg) m ev
        = Ok (Machine 0 (m_cycle m) (m_sources m) (m_self m))
        ∧ finalized (EVENT_SEQUENCE cfg) (pre ++ ev :: post)
          = (later <- finalized (EVENT_SEQUENCE cfg) post;;
             Ok (m_self m ++ later)).
Proof.
  intros Hlen Hrun.
  destruct (last (EVENT_SEQUENCE cfg)) as [l|] eqn:Hlast;
    [|apply last_None in Hlast; rewrite Hlast in Hlen; simpl in Hlen; lia].
  assert (∀ log new self0,
            Forall (one_event l) log →
            results (replay (finalize_cycle cfg) log self0) = results self0 ++ new →
            Forall (λ rec, ∃ call, call ∈ log
                      ∧ build_record cfg call.1 call.2 = Ok rec
                      ∧ validate_record rec = true) new →
            Forall (λ rec, rec !! "frames" = Some (VInt 1)) new) as Hframes.
  { intros log new self0 Hlog _ Hnew. eapply Forall_impl; [exact Hnew|].
    intros rec (call & Hin & Hrec & _). simpl.
    rewrite Forall_forall in Hlog. destruct (Hlog _ Hin) as (e & He).
    eapply (build_record_frames _ _ _ _ l [e]) in Hrec; [done| |done].
    unfold last_stage. by rewrite Hlast. }
  assert (∀ pre ev post cyc0 m,
            empty_cycle (EVENT_SEQUENCE cfg) = Ok cyc0 →
            foldM (step record_call (EVENT_SEQUENCE cfg)) (Machine 0 cyc0 ∅ []) pre
            = Ok m →
            m_state m = length (EVENT_SEQUENCE cfg) →
            ev !! "type" = Some (EStr l) →
            step record_call (EVENT_SEQUENCE cfg) m ev
            = Ok (Machine 0 (m_cycle m) (m_sources m) (m_self m))
            ∧ finalized (EVENT_SEQUENCE cfg) (pre ++ ev :: post)
              = (later <- finalized (EVENT_SEQUENCE cfg) post;;
                 Ok (m_self m ++ later))) as Hreset.
  { intros pre ev post cyc0 m Hcyc Hpre Hfull Hty.
    pose proof (foldM_terminal_index _ l cyc0 pre m Hlast Hlen Hpre Hfull) as Hidx.
    assert (step record_call (EVENT_SEQUENCE cfg) m ev
            = Ok (Machine 0 (m_cycle m) (m_sources m) (m_self m))) as Hstep.
    { eapply step_unexpected; [done|done|lia|lia]. }
    split; [done|].
    rewrite <- (reset_resumes _ post cyc0 m Hcyc).
    unfold finalized, run. rewrite Hcyc. cbn [bind].
    rewrite foldM_app, Hpre. cbn [bind foldM]. by rewrite Hstep. }
  rewrite analyze_events_replay in Hrun.
  destruct (events self) as [|ev evs] eqn:Hevs.
  - injection Hrun as <-. exists l, [], [], [].
    split_and!; [done|done| |done|by rewrite app_nil_r|done|done].
    unfold finalized, run, empty_cycle. rewrite Hlast. simpl. unfold flush. simpl.
    destruct (length (EVENT_SEQUENCE cfg)); [lia|done].
  - apply bind_Ok in Hrun as (sorted & Hsort & Hrun).
    apply bind_Ok in Hrun as (log & Hlog & [= <-]).
    pose proof (finalized_one_event _ l Hlast Hlen _ _ Hlog) as Hone.
    destruct (replay_finalize cfg log (Processor sorted (results self) (metrics self)))
      as (new & Hres & Hnew).
    exists l, sorted, log, new. split_and!; [done..| |by eapply Hframes|done].
    exact Hres.
Qed.

End terminal.

(** ** The aggregator *)

Lemma avg_key_inj a b : "Avg" +:+ a = "Avg" +:+ b → a = b.
Proof. intros Heq. by injection Heq. Qed.

Section aggregator.
Context `{Runtime}.

Lemma foldM_other {A : Type} (f : record → A → res record) (key : A → string)
    (items : list A) (rec rec' : record) (k : string) :
  (∀ rec x rec', f rec x = Ok rec' → k ≠ key x → rec' !! k = rec !! k) →
  foldM f rec items = Ok rec' →
  (∀ x, x ∈ items → k ≠ key x) →
  rec' !! k = rec !! k.
Proof.
  intros Hf. revert rec. induction items as [|x items IH]; intros rec; simpl.
  - by intros [= <-].
  - intros (rec1 & Hx & Hrest)%bind_Ok Hk.
    rewrite (IH _ Hrest) by (intros; apply Hk; by apply elem_of_cons; right).
    eapply Hf; [done|]. apply Hk. by apply elem_of_cons; left.
Qed.

(** A stage copies into the record the fields configured for it only. *)
Lemma copy_stage_other cfg cyc rec stage rec' k :
  copy_stage cfg cyc rec stage = Ok rec' →
  k ∉ fields cfg stage → rec' !! k = rec !! k.
Proof.
  unfold copy_stage, fields, getitem.
  destruct (slot_truthy (cycle_get cyc stage)); [|by intros [= <-]].
  destruct (PATTERN_CONFIG cfg !! stage) as [patterns|]; simpl; [|done].
  intros Hcopy Hk.
  eapply (foldM_other _ fst); [|exact Hcopy|].
  - intros r x r'. destruct (cycle_get cyc stage); try done.
    intros [= <-] Hne. by rewrite lookup_insert_ne.
  - intros x Hx ->. apply Hk. apply list_elem_of_fmap. by exists x.
Qed.

Lemma store_average_other timing patterns rec rec' k :
  foldM (store_average timing) rec patterns = Ok rec' →
  (∀ field, field ∈ patterns.*1 → k ≠ "Avg" +:+ field) →
  rec' !! k = rec !! k.
Proof.
  intros Hloop Hk.
  eapply (foldM_other _ (λ item, "Avg" +:+ item.1)); [|exact Hloop|].
  - intros r x r'. unfold store_average.
    intros (values & _ & [= <-])%bind_Ok Hne. by rewrite lookup_insert_ne.
  - intros x Hx. apply Hk. apply list_elem_of_fmap. by exists x.
Qed.

Lemma store_average_lookup evs patterns rec rec' field :
  foldM (store_average (SList evs)) rec patterns = Ok rec' →
  field ∈ patterns.*1 →
  rec' !! ("Avg" +:+ field) = Some (average (omap (numeric field) evs)).
Proof.
  revert rec. induction patterns as [|item patterns IH]; intros rec; simpl.
  - intros _ Hin. by apply elem_of_nil in Hin.
  - intros Hloop Hin. cbn [store_average field_values bind] in Hloop.
    destruct (decide (field ∈ patterns.*1)) as [Hrest|Hrest]; [by eapply IH|].
    apply elem_of_cons in Hin as [->|]; [|done].
    erewrite store_average_other; [apply lookup_insert_eq|exact Hloop|].
    intros f Hf Heq. apply avg_key_inj in Heq as <-. done.
Qed.

(** The keys left unset before the frame count is stored. *)
Lemma averaged_other cfg cyc timing rec0 rec1 patterns rec2 k :
  foldM (copy_stage cfg cyc) rec0 ["query"; "technique"] = Ok rec1 →
  foldM (store_average timing) rec1 patterns = Ok rec2 →
  k ∉ fields cfg "query" → k ∉ fields cfg "technique" →
  (∀ field, field ∈ patterns.*1 → k ≠ "Avg" +:+ field) →
  rec2 !! k = rec0 !! k.
Proof.
  intros Hcopy Havg Hq Ht Ha. simpl in Hcopy.
  apply bind_Ok in Hcopy as (r1 & Hc1 & Hcopy).
  apply bind_Ok in Hcopy as (r2 & Hc2 & [= ->]).
  rewrite (store_average_other _ _ _ _ _ Havg Ha).
  rewrite (copy_stage_other _ _ _ _ _ _ Hc2 Ht).
  by rewrite (copy_stage_other _ _ _ _ _ _ Hc1 Hq).
Qed.

Lemma numeric_contributions field evs :
  contributions field evs (omap (numeric field) evs).
Proof.
  induction evs as [|e evs IH]; simpl; [constructor|].
  unfold numeric at 1.
  destruct (e !! field) as [[t|t o|s]|] eqn:He.
  - by eapply contributions_datetime.
  - by eapply contributions_aware.
  - destruct (float_of_str s) as [x|] eqn:Hs.
    + by eapply contributions_number.
    + by eapply contributions_skip.
  - by eapply contributions_absent.
Qed.

(** C4, amended. For a cycle whose accumulating stage holds a list of
    events, and a field configured on that stage, [Avg<field>] is the mean
    of the contributed values rounded to 2 places, and [None] when there
    is none; a value that fails conversion is skipped, and an event
    without the field contributes zero. *)
Theorem average_counts_absent_field_as_zero cfg cyc files rec l evs field :
  build_record cfg cyc files = Ok rec →
  last_stage cfg = Ok l → cyc !! l = Some (SList evs) →
  field ∈ fields cfg l →
  ∃ values,
    contributions field evs values
    ∧ rec !! ("Avg" +:+ field)
      = Some match values with
             | [] => VNone
             | _ => VFloat (float_round
                              (float_div (float_sum values)
                                 (float_of_int (Z.of_nat (length values)))) 2)
             end.
Proof.
  intros (l' & names & start & rec1 & patterns & rec2 & frames
          & Hl & _ & _ & _ & Hpat & Havg & _ & ->)%build_record_Ok Hl' Hevs Hfield.
  rewrite Hl in Hl'. injection Hl' as ->. rewrite Hevs in *. simpl in *.
  exists (omap (numeric field) evs). split; [apply numeric_contributions|].
  assert (field ∈ patterns.*1) as Hin.
  { unfold fields, getitem in *.
    by destruct (PATTERN_CONFIG cfg !! l); simplify_eq/=. }
  pose proof (store_average_lookup _ _ _ _ _ Havg Hin) as Hlook.
  destruct (duration _); rewrite ?lookup_insert_ne by done; exact Hlook.
Qed.

(** C2, amended. For a cycle whose accumulating stage holds a list of
    events: with no event, [build_record] stores no [Duration(s)] (the key
    is absent unless a copied field bears that name); with one event or
    more whose first and last timestamps are [datetime]s, both naive or
    both aware, it is the seconds from the first to the last rounded to 3
    places, which for a single event is the rounding of zero seconds;
    when one of the two is no [datetime], or one is naive and the other
    aware, it is [None]. *)
Theorem duration_of_single_sample_is_zero cfg cyc files rec l evs :
  build_record cfg cyc files = Ok rec →
  last_stage cfg = Ok l → cyc !! l = Some (SList evs) →
  (evs = [] → "Duration(s)" ∉ fields cfg "query" →
   "Duration(s)" ∉ fields cfg "technique" → rec !! "Duration(s)" = None)
  ∧ (∀ first final t0 t1,
       head evs = Some first → last evs = Some final →
       first !! "time" = Some (ETime t0) → final !! "time" = Some (ETime t1) →
       rec !! "Duration(s)" = Some (VFloat (float_round (total_seconds (t1 - t0)) 3)))
  ∧ (∀ e t, evs = [e] → e !! "time" = Some (ETime t) →
       rec !! "Duration(s)" = Some (VFloat (float_round (total_seconds 0) 3)))
  ∧ (∀ first final t0 o0 t1 o1,
       head evs = Some first → last evs = Some final →
       first !! "time" = Some (EAware t0 o0) →
       final !! "time" = Some (EAware t1 o1) →
       rec !! "Duration(s)"
       = Some (VFloat (float_round (total_seconds ((t1 - o1) - (t0 - o0))) 3)))
  ∧ (∀ e t o, evs = [e] → e !! "time" = Some (EAware t o) →
       rec !! "Duration(s)" = Some (VFloat (float_round (total_seconds 0) 3)))
  ∧ (∀ first final,
       head evs = Some first → last evs = Some final →
       (∀ t, first !! "time" ≠ Some (ETime t))
       ∧ (∀ t o, first !! "time" ≠ Some (EAware t o))
       ∨ (∀ t, final !! "time" ≠ Some (ETime t))
         ∧ (∀ t o, final !! "time" ≠ Some (EAware t o))
       ∨ (∃ t u o, first !! "time" = Some (ETime t)
                   ∧ final !! "time" = Some (EAware u o))
       ∨ (∃ t o u, first !! "time" = Some (EAware t o)
                   ∧ final !! "time" = Some (ETime u)) →
       rec !! "Duration(s)" = Some VNone).
Proof.
  intros Hrec Hl Hevs.
  assert (∀ first final, head evs = Some first → last evs = Some final →
            rec !! "Duration(s)"
            = Some match time_difference (final !! "time") (first !! "time") with
                   | Some d => VFloat (float_round (total_seconds d) 3)
                   | None => VNone
                   end) as Hsome.
  { intros first final Hfirst Hfinal.
    apply build_record_Ok in Hrec
      as (l' & names & start & rec1 & patterns & rec2 & frames
          & Hl' & _ & _ & _ & _ & _ & _ & ->).
    rewrite Hl in Hl'. injection Hl' as <-. rewrite Hevs. simpl.
    destruct evs as [|e0 rest]; [done|]. injection Hfirst as ->.
    assert (default first (last rest) = final) as Hlast.
    { destruct rest as [|e1 rest]; [simpl in *; congruence|].
      change (last (first :: e1 :: rest)) with (last (e1 :: rest)) in Hfinal.
      by rewrite Hfinal. }
    unfold duration. simpl. rewrite Hlast.
    destruct (time_difference _ _); apply lookup_insert_eq. }
  split_and!.
  - intros -> Hq Ht.
    apply build_record_Ok in Hrec
      as (l' & names & start & rec1 & patterns & rec2 & frames
          & Hl' & _ & _ & Hcopy & _ & Havg & _ & ->).
    rewrite Hl in Hl'. injection Hl' as <-. rewrite Hevs in *. simpl.
    rewrite lookup_insert_ne by done.
    by rewrite (averaged_other _ _ _ _ _ _ _ _ Hcopy Havg Hq Ht).
  - intros first final t0 t1 Hf Hl' H0 H1.
    rewrite (Hsome _ _ Hf Hl'), H0, H1. done.
  - intros e t -> He. rewrite (Hsome e e eq_refl eq_refl), He. simpl.
    by rewrite Z.sub_diag.
  - intros first final t0 o0 t1 o1 Hf Hl' H0 H1.
    rewrite (Hsome _ _ Hf Hl'), H0, H1. done.
  - intros e t o -> He. rewrite (Hsome e e eq_refl eq_refl), He. simpl.
    by rewrite Z.sub_diag.
  - intros first final Hf Hl' Hbad. rewrite (Hsome _ _ Hf Hl').
    destruct Hbad as [[Hn Ha]|[[Hn Ha]|[(t & u & o & -> & ->)|(t & o & u & -> & ->)]]];
      [| |done|done].
    + destruct (first !! "time") as [[t|t o|s]|];
        [by destruct (Hn t)|by destruct (Ha t o)| |];
        by destruct (final !! "time") as [[]|].
    + destruct (final !! "time") as [[t|t o|s]|];
        [by destruct (Hn t)|by destruct (Ha t o)|done|done].
Qed.

(** C6, amended. For every built record: [frames] is a non-negative
    integer, and validation accepts the record exactly when its
    [StartTime] is truthy and no float in it is NaN.  The default ["NA"]
    is a non-empty string, so a record whose [StartTime] is ["NA"] is
    accepted when it holds no NaN; a [StartTime] that is a string is
    accepted only if it is not empty. *)
Theorem validation_accepts_default_start_time cfg cyc files rec :
  build_record cfg cyc files = Ok rec →
  (∃ n, rec !! "frames" = Some (VInt n) ∧ 0 ≤ n)
  ∧ (validate_record rec = true ↔
       truthy (rec !! "StartTime") = true
       ∧ ∀ k x, rec !! k = Some (VFloat x) → float_is_nan x = false)
  ∧ (rec !! "StartTime" = Some (VStr "NA") →
     (∀ k x, rec !! k = Some (VFloat x) → float_is_nan x = false) →
     validate_record rec = true)
  ∧ (∀ s, rec !! "StartTime" = Some (VStr s) → validate_record rec = true →
     s ≠ "").
Proof.
  intros Hrec.
  assert (∃ n, rec !! "frames" = Some (VInt n) ∧ 0 ≤ n) as Hframes.
  { apply build_record_Ok in Hrec
      as (l & names & start & rec1 & patterns & rec2 & frames
          & _ & _ & _ & _ & _ & _ & Hlen & ->).
    exists frames. split.
    - destruct (duration _); by simplify_map_eq.
    - destruct (default (SList []) (cyc !! l)); simpl in Hlen; [done|..];
        injection Hlen as <-; lia. }
  assert (validate_record rec = true ↔
            truthy (rec !! "StartTime") = true
            ∧ ∀ k x, rec !! k = Some (VFloat x) → float_is_nan x = false) as Hiff.
  { destruct Hframes as (n & Hn & _). unfold validate_record. rewrite Hn. simpl.
    destruct (truthy (rec !! "StartTime")); simpl; [|split; [done|by intros [? _]]].
    rewrite bool_decide_eq_true, map_Forall_lookup. split.
    - intros Hall. split; [done|]. intros k x Hk. by apply (Hall k (VFloat x)).
    - intros [_ Hall] k [] Hk; simpl; eauto. }
  split_and!; [done|done| |].
  - intros Hna Hnan. apply Hiff. by rewrite Hna.
  - intros s Hs [Htrue _]%Hiff ->. by rewrite Hs in Htrue.
Qed.

(** C5, amended. [finalize_cycle] has three outcomes.  An accepted record
    is appended and counted under [cycles_completed].  A record that fails
    validation is dropped and no counter changes.  When building the
    record raises, nothing is appended and [cycle_errors] goes up by
    one. *)
Theorem rejected_record_is_dropped_uncounted cfg cyc files self :
  (∃ rec, build_record cfg cyc files = Ok rec ∧ validate_record rec = true
     ∧ finalize_cycle cfg cyc files self
       = Processor (events self) (results self ++ [rec])
           (incr "cycles_completed" (metrics self)))
  ∨ (∃ rec, build_record cfg cyc files = Ok rec ∧ validate_record rec = false
       ∧ finalize_cycle cfg cyc files self = self)
  ∨ (∃ e, build_record cfg cyc files = Raise e
       ∧ results (finalize_cycle cfg cyc files self) = results self
       ∧ metrics (finalize_cycle cfg cyc files self) !! "cycle_errors"
         = Some (default 0 (metrics self !! "cycle_errors") + 1)
       ∧ ∀ k, k ≠ "cycle_errors" →
           metrics (finalize_cycle cfg cyc files self) !! k = metrics self !! k).
Proof.
  unfold finalize_cycle.
  destruct (build_record cfg cyc files) as [rec|e].
  - destruct (validate_record rec) eqn:Hvalid.
    + left. by exists rec.
    + right. left. by exists rec.
  - right. right. exists e. split_and!; simpl; [done..| |].
    + apply lookup_insert_eq.
    + intros k Hk. unfold incr. by rewrite lookup_insert_ne.
Qed.

End aggregator.

(** ** The extractor *)

Section extractor.
Context `{Runtime}.

(** The loop over the patterns of one event type: the flag tells whether
    some pattern matched, fields outside the mapping are untouched, and
    each field of the mapping holds the stripped text its pattern
    captured, if it matched. *)
Lemma match_fields_Ok line patterns (b b' : bool) (e e' : event) :
  foldM (match_field line) (b, e) patterns = Ok (b', e') →
  (b' = true ↔ b = true ∨ matches_some line patterns)
  ∧ (∀ field, field ∉ patterns.*1 → e' !! field = e !! field)
  ∧ (NoDup patterns.*1 → ∀ field pat, (field, pat) ∈ patterns →
     e' !! field = match re_search pat line with
                   | Group1 g => Some (EStr (str_strip g))
                   | _ => e !! field
                   end).
Proof.
  revert b e. induction patterns as [|[f p] patterns IH]; intros b e; simpl.
  - intros [= <- <-]. split_and!.
    + split; [by left|]. intros [?|(item & g & Hin & _)]; [done|].
      by apply elem_of_nil in Hin.
    + done.
    + intros _ field pat Hin. by apply elem_of_nil in Hin.
  - intros (acc & Hitem & Hrest)%bind_Ok. destruct acc as [b1 e1].
    destruct (IH _ _ Hrest) as (Hflag & Hother & Hfield).
    unfold match_field in Hitem. simpl in Hitem.
    destruct (re_search p line) as [|g|err] eqn:Hp; [| |done].
    + injection Hitem as <- <-. split_and!.
      * rewrite Hflag. split.
        -- intros [?|(item & g & Hin & Hg)]; [by left|right].
           exists item, g. split; [by apply elem_of_cons; right|done].
        -- intros [?|(item & g & Hin & Hg)]; [by left|].
           apply elem_of_cons in Hin as [->|Hin]; [simpl in Hg; congruence|].
           right. by exists item, g.
      * intros field [Hne Hnot]%not_elem_of_cons. by apply Hother.
      * intros [Hf Hnd]%NoDup_cons field pat [[= -> ->]|Hin]%elem_of_cons.
        -- rewrite Hother by done. by rewrite Hp.
        -- by apply Hfield.
    + injection Hitem as <- <-. split_and!.
      * rewrite Hflag. split; [intros _; right|by left].
        exists (f, p), g. split; [apply elem_of_cons; by left|done].
      * intros field [Hne Hnot]%not_elem_of_cons.
        rewrite Hother by done. by rewrite lookup_insert_ne.
      * intros [Hf Hnd]%NoDup_cons field pat [[= -> ->]|Hin]%elem_of_cons.
        -- rewrite Hother by done. by rewrite Hp, lookup_insert_eq.
        -- rewrite (Hfield Hnd _ _ Hin).
           destruct (re_search pat line); [|done|]; rewrite lookup_insert_ne; try done.
           all: intros ->; apply Hf, list_elem_of_fmap; by exists (field, pat).
Qed.

Lemma parse_events_extracted cfg ts line filename seq self self' :
  parse_events cfg ts line filename seq self = Ok self' →
  extracted cfg ts line filename seq self self'.
Proof.
  induction seq as [|evt seq IH]; simpl.
  - intros [= <-]. left. by split.
  - intros (patterns & Hpat & Hrun)%bind_Ok.
    apply bind_Ok in Hrun as ([b e] & Hfields & Hrun). simpl in Hrun.
    unfold getitem in Hpat.
    destruct (PATTERN_CONFIG cfg !! evt) as [ps|] eqn:Hps; [|done].
    injection Hpat as ->.
    destruct (match_fields_Ok _ _ _ _ _ _ Hfields) as (Hflag & Hother & Hfield).
    destruct b.
    + injection Hrun as <-. right. exists [], evt, seq, patterns, e.
      split_and!; [done|done|done| |done|done|done].
      destruct Hflag as [[?|?] _]; done.
    + destruct (IH Hrun) as [[-> Hnone]|(pre & evt' & post & ps & e' & -> & Hpre & Hrest)].
      * left. split; [done|]. apply Forall_cons. split; [|done].
        exists patterns. split; [done|]. intros Hm.
        destruct Hflag as [_ Hflag]. by discriminate Hflag; right.
      * right. exists (evt :: pre), evt', post, ps, e'.
        split; [done|]. split; [|done]. apply Forall_cons. split; [|done].
        exists patterns. split; [done|]. intros Hm.
        destruct Hflag as [_ Hflag]. by discriminate Hflag; right.
Qed.

(** A line adds at most one event: none when it has no timestamp or when
    no pattern of any event type matches it; otherwise one event, of the
    first event type of the sequence with a matching pattern.  Outside
    the fields of that type the event is the dictionary of the timestamp,
    the file and the type, and, the field names being distinct, each
    field holds what [str.strip] returns on the text its pattern captured
    when it matched and is left as it was when it did not. *)
Theorem parse_line_adds_first_matching_event cfg line filename self self' :
  parse_line cfg line filename self = Ok self' →
  (extract_timestamp cfg line = Ok None ∧ self' = self)
  ∨ ∃ ts, extract_timestamp cfg line = Ok (Some ts)
          ∧ extracted cfg ts line filename (EVENT_SEQUENCE cfg) self self'.
Proof.
  unfold parse_line. destruct (extract_timestamp cfg line) as [[ts|]|e]; simpl.
  - intros Hrun. right. exists ts. split; [done|]. by apply parse_events_extracted.
  - intros [= <-]. by left.
  - done.
Qed.

End extractor.

(** ** The stages of a cycle *)

Lemma none_cycle_lookup seq (c : cycle) name :
  c !! name = None ∨ c !! name = Some SNone →
  foldl (λ c evt, <[evt := SNone]> c) c seq !! name = None
  ∨ foldl (λ c evt, <[evt := SNone]> c) c seq !! name = Some SNone.
Proof.
  revert c. induction seq as [|x seq IH]; intros c Hc; simpl; [done|].
  apply IH. destruct (decide (x = name)) as [->|Hx].
  - right. apply lookup_insert_eq.
  - by rewrite lookup_insert_ne.
Qed.

Lemma empty_cycle_well_formed seq cyc l :
  empty_cycle seq = Ok cyc → last seq = Some l → stages_well_formed l cyc.
Proof.
  intros Hc Hl. split; [exists []; by eapply empty_cycle_last|].
  intros name Hne. unfold empty_cycle in Hc. rewrite Hl in Hc. injection Hc as <-.
  rewrite lookup_insert_ne by done.
  destruct (none_cycle_lookup seq ∅ name) as [Hn|Hn]; [by left|by left|by right; left].
Qed.

Lemma insert_event_well_formed l (cyc : cycle) name ev :
  stages_well_formed l cyc → name ≠ l →
  stages_well_formed l (<[name := SEvent ev]> cyc).
Proof.
  intros [[evs Hl] Hother] Hne. split.
  - exists evs. by rewrite lookup_insert_ne.
  - intros name' Hne'. destruct (decide (name = name')) as [<-|Hn].
    + right. right. exists ev. apply lookup_insert_eq.
    + rewrite lookup_insert_ne by done. by apply Hother.
Qed.

Section well_formed.
Context {Self : Type} (finalize : cycle → gset evval → Self → Self).
Context (seq : list string) (l : string).
Context (Hlast : last seq = Some l).
Context (Huniq : index seq l = Some (length seq - 1)%nat).
Context (Hlen : (2 ≤ length seq)%nat).

Lemma step_well_formed m ev m' :
  stages_well_formed l (m_cycle m) → step finalize seq m ev = Ok m' →
  stages_well_formed l (m_cycle m').
Proof using Hlast Huniq Hlen.
  intros Hwf. unfold step, getitem, bind.
  destruct (ev !! "type") as [[t|t o|name]|];
    [by intros [= <-]|by intros [= <-]| |done].
  destruct (index seq name) as [idx|] eqn:Hidx; [|by intros [= <-]].
  pose proof (index_lookup _ _ _ Hidx) as Hname.
  pose proof (last_lookup_pred _ _ Hlast) as Hl.
  destruct (Nat.eqb_spec idx 0) as [->|Hidx0].
  - destruct (empty_cycle seq) as [cyc0|] eqn:Hcyc; [|done].
    destruct (ev !! "file") as [file|]; [|done]. intros [= <-]. simpl.
    apply insert_event_well_formed; [by eapply empty_cycle_well_formed|].
    intros ->. rewrite Hidx in Huniq. injection Huniq. lia.
  - destruct (Nat.eqb_spec idx (m_state m)) as [Hst|_]; [|by intros [= <-]].
    destruct (Nat.eqb_spec idx (length seq - 1)) as [Hend|Hmid].
    + assert (name = l) as -> by (rewrite Hend in Hname; congruence).
      unfold append_event, getitem, bind.
      destruct Hwf as [[evs Hevs] Hother]. rewrite Hevs.
      destruct (ev !! "file") as [file|]; [|done]. intros [= <-]. simpl. split.
      * eexists. apply lookup_insert_eq.
      * intros name Hne. rewrite lookup_insert_ne by done. by apply Hother.
    + destruct (ev !! "file") as [file|]; [|done]. intros [= <-]. simpl.
      apply insert_event_well_formed; [done|].
      intros ->. rewrite Hidx in Huniq. by injection Huniq.
Qed.

(** With two stages or more, the last of which has no earlier namesake
    in the sequence, at every point of the loop the accumulating stage of
    the cycle holds a list and every other stage holds [None] or a single
    event. *)
Theorem stages_stay_well_formed cyc0 self evs m :
  empty_cycle seq = Ok cyc0 →
  foldM (step finalize seq) (Machine 0 cyc0 ∅ self) evs = Ok m →
  stages_well_formed l (m_cycle m).
Proof using Hlast Huniq Hlen.
  intros Hcyc Hrun.
  eapply (foldM_invariant _ (λ m, stages_well_formed l (m_cycle m)));
    [apply step_well_formed| |exact Hrun].
  by eapply empty_cycle_well_formed.
Qed.

End well_formed.

(** ** Sorting, in general *)

Lemma insert_keyed_timed t e l :
  insert_keyed (ETime t) e (as_key <$> l) = Ok (as_key <$> insert_timed t e l).
Proof.
  induction l as [|[t' e'] l IH]; csimpl; [done|].
  destruct (t' <? t); csimpl; [|done]. by rewrite IH.
Qed.

Lemma sort_keyed_timed l :
  sort_keyed (as_key <$> l) = Ok (as_key <$> sort_timed l).
Proof.
  induction l as [|[t e] l IH]; csimpl; [done|].
  rewrite IH. csimpl. apply insert_keyed_timed.
Qed.

Lemma insert_timed_Permutation t e l : insert_timed t e l ≡ₚ (t, e) :: l.
Proof.
  induction l as [|[t' e'] l IH]; simpl; [done|].
  destruct (t' <? t); [|done]. rewrite IH. apply Permutation_swap.
Qed.

Lemma sort_timed_Permutation l : sort_timed l ≡ₚ l.
Proof.
  induction l as [|[t e] l IH]; simpl; [done|].
  by rewrite insert_timed_Permutation, IH.
Qed.

Lemma insert_timed_Sorted t e l :
  Sorted (λ a b : Z * event, a.1 ≤ b.1) l →
  Sorted (λ a b : Z * event, a.1 ≤ b.1) (insert_timed t e l).
Proof.
  induction 1 as [|[t' e'] l Hs IH Hhd]; simpl; [by repeat constructor|].
  destruct (Z.ltb_spec t' t).
  - constructor; [done|]. destruct Hhd as [|[t2 e2] l2 Hle]; simpl.
    + constructor. simpl. lia.
    + destruct (t2 <? t); constructor; simpl in *; lia.
  - repeat constructor; simpl; [done|done|lia].
Qed.

Lemma sort_timed_Sorted l : Sorted (λ a b : Z * event, a.1 ≤ b.1) (sort_timed l).
Proof.
  induction l as [|[t e] l IH]; simpl; [constructor|]. by apply insert_timed_Sorted.
Qed.

(** Inserting moves the new pair past strictly earlier pairs only. *)
Lemma insert_timed_filter t e l u :
  filter (λ p : Z * event, p.1 = u) (insert_timed t e l)
  = filter (λ p : Z * event, p.1 = u) ((t, e) :: l).
Proof.
  induction l as [|[t' e'] l IH]; simpl; [done|].
  destruct (Z.ltb_spec t' t); [|done].
  rewrite !filter_cons in *. simpl in *.
  rewrite IH. repeat case_decide; try done; lia.
Qed.

Lemma sort_timed_filter l u :
  filter (λ p : Z * event, p.1 = u) (sort_timed l)
  = filter (λ p : Z * event, p.1 = u) l.
Proof.
  induction l as [|[t e] l IH]; simpl; [done|].
  rewrite insert_timed_filter, !filter_cons. simpl. by rewrite IH.
Qed.

Lemma mapM_time_keys evs :
  Forall has_time evs →
  mapM (λ ev : event, k <- getitem ev "time";; Ok (k, ev)) evs
  = Ok (as_key <$> timed evs).
Proof.
  induction 1 as [|e evs [t He] _ IH]; csimpl; [done|].
  unfold getitem at 1. rewrite He. csimpl. rewrite IH. csimpl.
  unfold as_key at 1, time_of. csimpl. by rewrite He.
Qed.

Lemma as_key_snd (l : list (Z * event)) : (as_key <$> l).*2 = l.*2.
Proof. induction l as [|[t e] l IH]; csimpl; [done|]. by rewrite IH. Qed.

Lemma sort_events_timed evs :
  Forall has_time evs → sort_events evs = Ok (sort_timed (timed evs)).*2.
Proof.
  intros Hall. unfold sort_events. rewrite (mapM_time_keys _ Hall). cbn [bind].
  rewrite sort_keyed_timed. cbn [bind]. by rewrite as_key_snd.
Qed.

Lemma timed_consistent evs : Forall (λ p : Z * event, p.1 = time_of p.2) (timed evs).
Proof. unfold timed. induction evs; simpl; constructor; done. Qed.

Lemma filter_snd_time (l : list (Z * event)) u :
  Forall (λ p : Z * event, p.1 = time_of p.2) l →
  filter (λ e, time_of e = u) l.*2 = (filter (λ p : Z * event, p.1 = u) l).*2.
Proof.
  induction 1 as [|[t e] l Hp _ IH]; csimpl; [done|].
  rewrite !filter_cons. csimpl in *. subst t.
  case_decide; csimpl; by rewrite IH.
Qed.

(** Two keys that compare are of one kind, and comparing raises nothing
    but [TypeError]. *)
Lemma key_lt_kind a b r : key_lt a b = Ok r → kind a = kind b.
Proof. by destruct a, b. Qed.

Lemma key_lt_raises a b e : key_lt a b = Raise e → e = TypeError.
Proof. destruct a, b; simpl; congruence. Qed.

Lemma insert_keyed_kind k ev sorted r :
  insert_keyed k ev sorted = Ok r →
  r ≡ₚ (k, ev) :: sorted ∧ (∀ p, head sorted = Some p → kind p.1 = kind k).
Proof.
  revert r. induction sorted as [|[k' ev'] rest IH]; intros r; simpl.
  - intros [= <-]. by split.
  - intros (lt & Hlt & Hr)%bind_Ok. apply key_lt_kind in Hlt.
    split; [|by intros p [= <-]].
    destruct lt; [|by injection Hr as <-].
    apply bind_Ok in Hr as (r' & Hr' & [= <-]).
    destruct (IH _ Hr') as [Hperm _]. rewrite Hperm. apply perm_swap.
Qed.

Lemma insert_keyed_raises k ev sorted e :
  insert_keyed k ev sorted = Raise e → e = TypeError.
Proof.
  induction sorted as [|[k' ev'] rest IH]; simpl; [done|].
  destruct (key_lt k' k) as [lt|e'] eqn:Hlt; simpl;
    [|intros [= <-]; by eapply key_lt_raises].
  destruct lt; [|done].
  destruct (insert_keyed k ev rest); simpl; [done|]. intros [= <-]. by apply IH.
Qed.

(** The keys of a list that [sort_keyed] sorts are of one kind. *)
Lemma sort_keyed_kind l sorted :
  sort_keyed l = Ok sorted →
  sorted ≡ₚ l ∧ ∀ p q, p ∈ l → q ∈ l → kind p.1 = kind q.1.
Proof.
  revert sorted. induction l as [|[k ev] rest IH]; intros sorted; simpl.
  - intros [= <-]. split; [done|]. by intros p q Hp%elem_of_nil.
  - intros (sorted' & Hrest & Hins)%bind_Ok.
    destruct (IH _ Hrest) as [Hperm Hkind].
    destruct (insert_keyed_kind _ _ _ _ Hins) as [Hperm' Hhead].
    split; [by rewrite Hperm', Hperm|].
    assert (∀ p, p ∈ rest → kind p.1 = kind k) as Hk.
    { intros p Hp. destruct sorted' as [|p0 sorted'].
      - apply Permutation_nil_l in Hperm. subst rest. by apply elem_of_nil in Hp.
      - rewrite <- (Hhead p0 eq_refl). apply Hkind; [done|].
        rewrite <- Hperm. left. }
    intros p q [->|Hp]%elem_of_cons [->|Hq]%elem_of_cons; simpl.
    + done.
    + symmetry. by apply Hk.
    + by apply Hk.
    + by apply Hkind.
Qed.

Lemma sort_keyed_raises l e : sort_keyed l = Raise e → e = TypeError.
Proof.
  induction l as [|[k ev] rest IH]; simpl; [done|].
  destruct (sort_keyed rest) as [sorted|e']; simpl; [|intros [= <-]; by apply IH].
  apply insert_keyed_raises.
Qed.

Lemma mapM_keys evs :
  Forall (λ e : event, is_Some (e !! "time")) evs →
  ∃ keyed,
    mapM (λ ev : event, k <- getitem ev "time";; Ok (k, ev)) evs = Ok keyed
    ∧ ∀ e k, e ∈ evs → e !! "time" = Some k → (k, e) ∈ keyed.
Proof.
  induction 1 as [|e evs [k Hk] _ (keyed & Hmap & Hin)].
  - exists []. split; [done|]. by intros e k He%elem_of_nil.
  - exists ((k, e) :: keyed). split.
    { cbn [mapM]. unfold getitem at 1. rewrite Hk. cbn [bind].
      by rewrite Hmap. }
    intros e' k' [->|He']%elem_of_cons Hk'.
    + rewrite Hk in Hk'. injection Hk' as <-. left.
    + right. by apply Hin.
Qed.

(** [self.events.sort(key=lambda e: e['time'])].  When every event holds
    an offset-naive [datetime], sorting returns normally; the result is a
    rearrangement of the events in which times never decrease, and
    events of one time keep the order they had.  When every event has a
    time and one holds an offset-naive [datetime] while another holds an
    offset-aware one, sorting raises [TypeError]. *)
Theorem sort_events_is_stable_sort evs :
  (Forall has_time evs →
   ∃ sorted,
     sort_events evs = Ok sorted
     ∧ sorted ≡ₚ evs
     ∧ Sorted (λ a b, time_of a ≤ time_of b) sorted
     ∧ ∀ t, filter (λ e, time_of e = t) sorted = filter (λ e, time_of e = t) evs)
  ∧ (Forall (λ e : event, is_Some (e !! "time")) evs →
     ∀ e1 e2 t u o, e1 ∈ evs → e2 ∈ evs →
       e1 !! "time" = Some (ETime t) → e2 !! "time" = Some (EAware u o) →
       sort_events evs = Raise TypeError).
Proof.
  split; [|intros Hall e1 e2 t u o He1 He2 Ht Hu; unfold sort_events;
           destruct (mapM_keys _ Hall) as (keyed & -> & Hin); cbn [bind];
           destruct (sort_keyed keyed) as [sorted|e] eqn:Hsort; simpl;
           [destruct (sort_keyed_kind _ _ Hsort) as [_ Hkind];
            by pose proof (Hkind _ _ (Hin _ _ He1 Ht) (Hin _ _ He2 Hu))
           |by rewrite (sort_keyed_raises _ _ Hsort)]].
  intros Hall. exists (sort_timed (timed evs)).*2.
  assert (Forall (λ p : Z * event, p.1 = time_of p.2) (sort_timed (timed evs))) as Hcons.
  { rewrite sort_timed_Permutation. apply timed_consistent. }
  split_and!.
  - by apply sort_events_timed.
  - rewrite sort_timed_Permutation. unfold timed.
    rewrite <- list_fmap_compose. by rewrite list_fmap_id.
  - pose proof (sort_timed_Sorted (timed evs)) as Hs.
    induction Hs as [|p l Hs IH Hhd]; simpl; [constructor|].
    apply Forall_cons in Hcons as [Hp Hcons]. constructor; [by apply IH|].
    destruct Hhd as [|q l' Hle]; simpl; [constructor|].
    apply Forall_cons in Hcons as [Hq _]. constructor. by rewrite <- Hp, <- Hq.
  - intros t. rewrite (filter_snd_time _ _ Hcons), sort_timed_filter.
    rewrite <- (filter_snd_time _ _ (timed_consistent evs)). unfold timed.
    rewrite <- list_fmap_compose. by rewrite list_fmap_id.
Qed.

(** ** Events of unknown type *)

Section unknown.
Context {Self : Type} (finalize : cycle → gset evval → Self → Self).

Lemma step_not_known seq m ev :
  is_Some (ev !! "type") → known seq ev = false → step finalize seq m ev = Ok m.
Proof.
  unfold known, step, getitem, bind. intros [ty Hty]. rewrite Hty.
  destruct ty as [t|t o|name]; [done|done|].
  destruct (index seq name); [|done].
  intros Hk. apply bool_decide_eq_false in Hk. destruct Hk. by eexists.
Qed.

Lemma foldM_step_known seq m evs :
  Forall (λ e : event, is_Some (e !! "type")) evs →
  foldM (step finalize seq) m evs
  = foldM (step finalize seq) m (filter (λ e, known seq e = true) evs).
Proof.
  intros Hall. revert m. induction Hall as [|ev evs Hty _ IH]; intros m; [done|].
  rewrite filter_cons. destruct (known seq ev) eqn:Hk.
  - rewrite decide_True by done. simpl.
    destruct (step finalize seq m ev); simpl; [apply IH|done].
  - rewrite decide_False by done. simpl.
    rewrite (step_not_known _ _ _ Hty Hk). simpl. apply IH.
Qed.

(** Events whose type is not a stage of the sequence have no effect on
    the loop: the run on a list of events that all hold a type is the run
    on the events of known type among them. *)
Theorem unknown_events_are_skipped seq self evs :
  Forall (λ e : event, is_Some (e !! "type")) evs →
  run finalize seq self evs
  = run finalize seq self (filter (λ e, known seq e = true) evs).
Proof.
  intros Hall. unfold run.
  destruct (empty_cycle seq) as [cyc|]; simpl; [|done].
  by rewrite (foldM_step_known _ _ _ Hall).
Qed.

End unknown.

(** ** A sequence of a single stage *)

Section single_stage.
Context `{Runtime}.

Lemma step_single_stage name m ev m' :
  single_stage_inv name m → step record_call [name] m ev = Ok m' →
  single_stage_inv name m'.
Proof.
  destruct m as [st cyc files log]. intros (Hfull & Hle & Hlog). simpl in *.
  unfold step, getitem, bind. simpl.
  destruct (ev !! "type") as [[t|t o|name']|] eqn:Hty;
    [by intros [= <-]|by intros [= <-]| |done].
  simpl. case_decide as Hname; simpl; [|by intros [= <-]]. subst name'.
  destruct (ev !! "file") as [file|]; [|done]. intros [= <-].
  split_and!; simpl; [|lia|].
  - intros _. exists ev. split; [|by rewrite Hty].
    apply lookup_insert_eq.
  - destruct (Nat.eqb_spec st 1) as [->|_]; [|done].
    apply Forall_app. split; [done|]. apply Forall_singleton. by apply Hfull.
Qed.

Lemma finalized_single_stage name evs log :
  finalized [name] evs = Ok log → Forall (holds_event name) log.
Proof.
  unfold finalized, run.
  intros (cyc & Hcyc & (m & Hrun & [= <-])%bind_Ok)%bind_Ok.
  assert (single_stage_inv name m) as (Hfull & _ & Hlog).
  { eapply (foldM_invariant _ (single_stage_inv name));
      [apply step_single_stage| |done].
    split_and!; simpl; [done|lia|done]. }
  unfold flush. simpl. destruct (Nat.eqb_spec (m_state m) 1) as [Hst|_]; [|done].
  apply Forall_app. split; [done|]. apply Forall_singleton.
  destruct m; by apply Hfull.
Qed.

(** Building the record of such a cycle raises. *)
Lemma build_record_holds_event cfg name cyc files :
  EVENT_SEQUENCE cfg = [name] → PATTERN_CONFIG cfg !! name ≠ Some [] →
  holds_event name (cyc, files) →
  ∃ e, build_record cfg cyc files = Raise e.
Proof.
  intros Hseq Hpat (ev & Hev & Hty).
  destruct (build_record cfg cyc files) as [rec|e] eqn:Hrec; [|by exists e].
  apply build_record_Ok in Hrec
    as (l & names & start & rec1 & patterns & rec2 & frames
        & Hl & _ & _ & _ & Hpats & Havg & _ & _).
  unfold last_stage in Hl. rewrite Hseq in Hl. injection Hl as <-.
  simpl in *. rewrite Hev in Havg. simpl in Havg.
  unfold getitem in Hpats.
  destruct (PATTERN_CONFIG cfg !! name) as [ps|] eqn:Hps; [|done].
  injection Hpats as ->. destruct patterns as [|item patterns]; [done|].
  simpl in Havg. unfold store_average at 1 in Havg. simpl in Havg.
  destruct (Nat.eqb_spec (size ev) 0) as [Hsize|_]; [|done].
  apply map_size_empty_inv in Hsize. subst ev.
  destruct Hty as [? Hty]. by rewrite lookup_empty in Hty.
Qed.

Lemma replay_raising cfg (log : calls) self :
  Forall (λ call, ∃ e, build_record cfg call.1 call.2 = Raise e) log →
  results (replay (finalize_cycle cfg) log self) = results self
  ∧ events (replay (finalize_cycle cfg) log self) = events self
  ∧ metrics (replay (finalize_cycle cfg) log self)
    = Nat.iter (length log) (incr "cycle_errors") (metrics self).
Proof.
  intros Hall. revert self. induction Hall as [|call log [e He] _ IH]; intros self.
  - done.
  - rewrite replay_cons. destruct (IH (finalize_cycle cfg call.1 call.2 self))
      as (-> & -> & ->).
    unfold finalize_cycle. rewrite He. cbn [results events metrics length].
    split_and!; [done|done|]. by rewrite Nat.iter_succ_r.
Qed.

Lemma step_single_stage_count name m ev m' :
  (m_state m ≤ 1)%nat → step record_call [name] m ev = Ok m' →
  (length (m_self m') + m_state m'
   = length (m_self m) + m_state m
     + length (filter (λ e, known [name] e = true) [ev]))%nat.
Proof.
  destruct m as [st cyc files log]. simpl. intros Hle.
  rewrite filter_cons, filter_nil.
  unfold step, getitem, bind, known.
  destruct (ev !! "type") as [[t|t o|name']|] eqn:Hty; [| | |done].
  - intros [= <-]. rewrite decide_False by done. simpl. lia.
  - intros [= <-]. rewrite decide_False by done. simpl. lia.
  - cbn [index]. destruct (decide (name = name')) as [<-|Hname].
    + rewrite decide_True by (apply bool_decide_eq_true; by eexists).
      cbn [Nat.eqb empty_cycle last foldl]. cbn [bind].
      destruct (ev !! "file") as [file|]; [|done]. intros [= <-].
      cbn [m_self m_state length].
      destruct (Nat.eqb_spec st 1) as [->|?]; unfold record_call;
        rewrite ?length_app; simpl; lia.
    + rewrite decide_False.
      * intros [= <-]. simpl. lia.
      * rewrite bool_decide_eq_true. simpl. by intros [? ?].
Qed.

Lemma finalized_single_stage_count name evs log :
  finalized [name] evs = Ok log →
  length log = length (filter (λ e, known [name] e = true) evs).
Proof.
  unfold finalized, run.
  intros (cyc & Hcyc & (m & Hrun & [= <-])%bind_Ok)%bind_Ok.
  assert (∀ evs m0 m1,
            single_stage_inv name m0 →
            foldM (step record_call [name]) m0 evs = Ok m1 →
            (length (m_self m1) + m_state m1
             = length (m_self m0) + m_state m0
               + length (filter (λ e, known [name] e = true) evs))%nat
            ∧ (m_state m1 ≤ 1)%nat) as Hcount.
  { clear. induction evs as [|ev evs IH]; intros m0 m1 Hinv; simpl.
    - intros [= <-]. split; [lia|apply Hinv].
    - intros (m & Hstep & Hrest)%bind_Ok.
      pose proof (step_single_stage _ _ _ _ Hinv Hstep) as Hinv'.
      destruct (IH _ _ Hinv' Hrest) as [Hlen Hle].
      destruct Hinv as (_ & Hle0 & _).
      pose proof (step_single_stage_count _ _ _ _ Hle0 Hstep) as Hone.
      split; [|done]. rewrite (filter_app _ [ev] evs), length_app. lia. }
  destruct (Hcount evs (Machine 0 cyc ∅ []) m) as [Hlen Hle]; [|done|].
  { split_and!; simpl; [done|lia|done]. }
  simpl in Hlen. unfold flush. simpl.
  destruct (Nat.eqb_spec (m_state m) 1) as [Hst|Hst]; unfold record_call;
    rewrite ?length_app; simpl; lia.
Qed.

Lemma insert_keyed_Permutation k e l l' :
  insert_keyed k e l = Ok l' → l' ≡ₚ (k, e) :: l.
Proof.
  revert l'. induction l as [|[k' e'] l IH]; intros l'; simpl.
  - by intros [= <-].
  - intros (lt & _ & Hrest)%bind_Ok. destruct lt.
    + apply bind_Ok in Hrest as (r & Hr & [= <-]).
      rewrite (IH _ Hr). apply Permutation_swap.
    + by injection Hrest as <-.
Qed.

Lemma sort_keyed_Permutation l l' : sort_keyed l = Ok l' → l' ≡ₚ l.
Proof.
  revert l'. induction l as [|[k e] l IH]; intros l'; simpl.
  - by intros [= <-].
  - intros (s & Hs & Hins)%bind_Ok.
    rewrite (insert_keyed_Permutation _ _ _ _ Hins). by rewrite (IH _ Hs).
Qed.

Lemma mapM_keys_snd evs keyed :
  mapM (λ ev : event, k <- getitem ev "time";; Ok (k, ev)) evs = Ok keyed →
  keyed.*2 = evs.
Proof.
  revert keyed. induction evs as [|ev evs IH]; intros keyed; simpl.
  - by intros [= <-].
  - intros (p & Hp & Hrest)%bind_Ok.
    apply bind_Ok in Hp as (k & _ & [= <-]).
    apply bind_Ok in Hrest as (ks & Hks & [= <-]). csimpl. by rewrite (IH _ Hks).
Qed.

(** Whatever the keys, a sort that returns rearranges the events. *)
Lemma sort_events_Permutation evs sorted :
  sort_events evs = Ok sorted → sorted ≡ₚ evs.
Proof.
  unfold sort_events. intros (keyed & Hkeys & Hsort)%bind_Ok.
  apply bind_Ok in Hsort as (s & Hs & [= <-]).
  rewrite (sort_keyed_Permutation _ _ Hs). by rewrite (mapM_keys_snd _ _ Hkeys).
Qed.

(** With an event sequence of a single stage that has a pattern
    configured, [analyze_events] never adds a record: every event of that
    type makes a cycle that raises in [finalize_cycle], so [cycle_errors]
    goes up by the number of such events and nothing else changes in the
    counters. *)
Theorem single_stage_sequence_yields_no_record cfg name self self' :
  EVENT_SEQUENCE cfg = [name] → PATTERN_CONFIG cfg !! name ≠ Some [] →
  analyze_events cfg self = Ok self' →
  results self' = results self
  ∧ metrics self'
    = Nat.iter (length (filter (λ e, known [name] e = true) (events self)))
        (incr "cycle_errors") (metrics self).
Proof.
  intros Hseq Hpat Hrun. rewrite analyze_events_replay in Hrun.
  destruct (events self) as [|ev evs] eqn:Hevs.
  - by injection Hrun as <-.
  - apply bind_Ok in Hrun as (sorted & Hsort & Hrun).
    apply bind_Ok in Hrun as (log & Hlog & [= <-]). rewrite Hseq in Hlog.
    assert (Forall (λ call, ∃ e, build_record cfg call.1 call.2 = Raise e) log) as Hraise.
    { eapply Forall_impl; [by eapply finalized_single_stage|].
      intros [cyc files] Hcall. by eapply build_record_holds_event. }
    destruct (replay_raising cfg log (Processor sorted (results self) (metrics self)) Hraise)
      as (Hres & _ & Hmet).
    split; [exact Hres|]. rewrite Hmet. simpl. f_equal.
    rewrite (finalized_single_stage_count _ _ _ Hlog).
    apply Permutation_length. apply filter_Permutation.
    by apply sort_events_Permutation.
Qed.

End single_stage.

(** ** Counters *)

Lemma counter_incr_eq m k : counter (incr k m) k = counter m k + 1.
Proof. unfold counter, incr. by rewrite lookup_insert_eq. Qed.

Lemma counter_incr_ne m k k' : k ≠ k' → counter (incr k m) k' = counter m k'.
Proof. intros Hne. unfold counter, incr. by rewrite lookup_insert_ne. Qed.

Section counters.
Context `{Runtime}.

Lemma accepted_cons cfg call (log : calls) :
  accepted cfg (call :: log)
  = match accepted_record cfg call with
    | Some rec => rec :: accepted cfg log
    | None => accepted cfg log
    end.
Proof. unfold accepted. simpl. by destruct (accepted_record cfg call). Qed.

Lemma accepted_appended cfg (log : calls) : Forall (appended cfg) (accepted cfg log).
Proof.
  induction log as [|call log IH]; [constructor|].
  rewrite accepted_cons. unfold accepted_record.
  destruct (build_record cfg call.1 call.2) as [rec|e] eqn:Hrec; [|done].
  destruct (validate_record rec) eqn:Hvalid; [|done].
  constructor; [|done]. split; [done|]. by exists call.1, call.2.
Qed.

Lemma replay_finalize_effect cfg (log : calls) self :
  finalize_effect cfg log self (replay (finalize_cycle cfg) log self).
Proof.
  unfold finalize_effect.
  revert self. induction log as [|call log IH]; intros self.
  - simpl. rewrite app_nil_r. split_and!; [done|done|lia|lia|done].
  - rewrite replay_cons.
    destruct (IH (finalize_cycle cfg call.1 call.2 self))
      as (Hev & Hres & Hdone & Herr & Hother).
    rewrite Hev, Hres, Hdone, Herr, accepted_cons, filter_cons.
    unfold accepted_record, raises, finalize_cycle in *.
    destruct (build_record cfg call.1 call.2) as [rec|e] eqn:Hrec.
    + case_decide; [done|].
      destruct (validate_record rec) eqn:Hvalid; simpl in *.
      * rewrite <- app_assoc, counter_incr_eq, counter_incr_ne by done.
        split_and!; simpl; [done|done|lia|lia|].
        intros k H1 H2. rewrite Hother by done. unfold incr.
        by rewrite lookup_insert_ne.
      * split_and!; simpl; [done|done|lia|lia|done].
    + case_decide; [|done]. simpl in *.
      rewrite counter_incr_eq, counter_incr_ne by done.
      split_and!; simpl; [done|done|lia|lia|].
      intros k H1 H2. rewrite Hother by done. unfold incr.
      by rewrite lookup_insert_ne.
Qed.

Lemma analyze_events_effect cfg self self' :
  analyze_events cfg self = Ok self' →
  events self' ≡ₚ events self
  ∧ ∃ log,
      analyzed cfg self log
      ∧ results self' = results self ++ accepted cfg log
      ∧ Forall (appended cfg) (accepted cfg log)
      ∧ counter (metrics self') "cycles_completed"
        = counter (metrics self) "cycles_completed"
          + Z.of_nat (length (accepted cfg log))
      ∧ counter (metrics self') "cycle_errors"
        = counter (metrics self) "cycle_errors"
          + Z.of_nat (length (filter (λ call, raises cfg call = true) log))
      ∧ ∀ k, k ≠ "cycles_completed" → k ≠ "cycle_errors" →
          metrics self' !! k = metrics self !! k.
Proof.
  intros Hrun. rewrite analyze_events_replay in Hrun. unfold analyzed.
  destruct (events self) as [|ev evs] eqn:Hevs.
  - injection Hrun as <-. rewrite Hevs. split; [done|]. exists [].
    simpl. rewrite app_nil_r. split_and!; [done|done|constructor|lia|lia|done].
  - apply bind_Ok in Hrun as (sorted & Hsort & Hrun).
    apply bind_Ok in Hrun as (log & Hlog & [= <-]).
    destruct (replay_finalize_effect cfg log
                (Processor sorted (results self) (metrics self)))
      as (Hev & Hres & Hdone & Herr & Hother).
    simpl in *. rewrite Hev. split; [by apply sort_events_Permutation|].
    exists log. split_and!; [by exists sorted|done|apply accepted_appended|done..].
Qed.

(** [analyze_events] keeps the events, up to their order.  With the
    cycles it finalizes (none without events, else those of the loop on
    the sorted events), it appends to the results the records of the
    cycles whose record is built and validated, in order;
    [cycles_completed] goes up by the number of these records,
    [cycle_errors] by the number of the cycles on which [build_record]
    raises, and no other counter changes. *)
Theorem analyze_events_counts_records cfg self self' :
  analyze_events cfg self = Ok self' →
  events self' ≡ₚ events self
  ∧ ∃ log,
      analyzed cfg self log
      ∧ results self' = results self ++ accepted cfg log
      ∧ Forall (appended cfg) (accepted cfg log)
      ∧ counter (metrics self') "cycles_completed"
        = counter (metrics self) "cycles_completed"
          + Z.of_nat (length (accepted cfg log))
      ∧ counter (metrics self') "cycle_errors"
        = counter (metrics self) "cycle_errors"
          + Z.of_nat (length (filter (λ call, raises cfg call = true) log))
      ∧ ∀ k, k ≠ "cycles_completed" → k ≠ "cycle_errors" →
          metrics self' !! k = metrics self !! k.
Proof. apply analyze_events_effect. Qed.

End counters.

(** ** The fields of a record *)

Lemma str_le_total : Total str_le.
Proof. intros a b. apply String.leb_total. Qed.

#[global] Instance EStr_inj : Inj (=) (=) EStr.
Proof. by intros a b [= ->]. Qed.

Lemma mapM_as_str vs strs :
  mapM as_str vs = Ok strs → vs = EStr <$> strs.
Proof.
  revert strs. induction vs as [|v vs IH]; intros strs; simpl.
  - by intros [= <-].
  - intros (s & Hs & Hrest)%bind_Ok.
    apply bind_Ok in Hrest as (ss & Hss & [= <-]).
    destruct v; simplify_eq/=. by rewrite <- (IH _ Hss).
Qed.

Section record_fields.
Context `{Runtime}.

(** A stage that holds a non-empty event copies each of its configured
    fields, with ["NA"] for a field the event lacks. *)
Lemma copy_stage_lookup cfg cyc (rec rec' : record) stage e field :
  copy_stage cfg cyc rec stage = Ok rec' →
  cyc !! stage = Some (SEvent e) → e ≠ ∅ →
  field ∈ fields cfg stage →
  rec' !! field = Some (from_option evval_to_py (VStr "NA") (e !! field)).
Proof.
  unfold copy_stage, cycle_get, fields, getitem. intros Hcopy He Hne.
  rewrite He in Hcopy. simpl in Hcopy.
  destruct (Nat.eqb_spec (size e) 0) as [Hsize|_];
    [by apply map_size_empty_inv in Hsize|].
  simpl in Hcopy.
  destruct (PATTERN_CONFIG cfg !! stage) as [patterns|]; simpl in *; [|done].
  revert rec Hcopy. induction patterns as [|item patterns IH]; intros rec; simpl.
  - intros _ Hin. by apply elem_of_nil in Hin.
  - intros Hcopy Hin.
    destruct (decide (field ∈ patterns.*1)) as [Hrest|Hrest]; [by eapply IH|].
    apply elem_of_cons in Hin as [->|]; [|done].
    erewrite (foldM_other _ fst); [apply lookup_insert_eq| |exact Hcopy|].
    + intros r x r' [= <-] Hx. by rewrite lookup_insert_ne.
    + intros x Hx Heq. apply Hrest. apply list_elem_of_fmap. by exists x.
Qed.

(** A stage that holds nothing copies nothing. *)
Lemma copy_stage_absent cfg (cyc : cycle) (rec rec' : record) stage :
  copy_stage cfg cyc rec stage = Ok rec' →
  cyc !! stage = None ∨ cyc !! stage = Some SNone → rec' = rec.
Proof.
  unfold copy_stage, cycle_get. intros Hcopy [Hc|Hc]; rewrite Hc in Hcopy;
    simpl in Hcopy; by injection Hcopy.
Qed.

(** The record after the loops over the stage fields and the averages
    keeps a field that no later step writes. *)
Lemma build_record_keeps cfg cyc files rec field (v : pyval float) :
  build_record cfg cyc files = Ok rec →
  field ≠ "frames" → field ≠ "Duration(s)" →
  (∀ l g, last_stage cfg = Ok l → g ∈ fields cfg l → field ≠ "Avg" +:+ g) →
  (∀ names start rec1,
     source_files_str files = Ok names →
     start_time (cycle_get cyc "technique") = Ok start →
     foldM (copy_stage cfg cyc)
       (<["StartTime" := VStr start]> (<["SourceFiles" := VStr names]> ∅))
       ["query"; "technique"] = Ok rec1 →
     rec1 !! field = Some v) →
  rec !! field = Some v.
Proof.
  intros (l & names & start & rec1 & patterns & rec2 & frames
          & Hl & Hnames & Hstart & Hcopy & Hpat & Havg & _ & ->)%build_record_Ok
    Hframes Hduration Havgkey Hrec1.
  assert (rec2 !! field = Some v) as Hrec2.
  { rewrite (store_average_other _ _ _ _ _ Havg); [by eapply Hrec1|].
    intros g Hg. apply (Havgkey l g Hl). unfold fields, getitem in *.
    by destruct (PATTERN_CONFIG cfg !! l); simplify_eq/=. }
  by destruct (duration _); rewrite ?lookup_insert_ne.
Qed.

(** In a built record a field configured on the technique stage, and not
    written by a later step, holds what the technique event holds there,
    or ["NA"]; a field configured on the query stage only holds what the
    query event holds, or ["NA"]. *)
Theorem build_record_copies_stage_fields cfg cyc files rec field :
  build_record cfg cyc files = Ok rec →
  field ≠ "frames" → field ≠ "Duration(s)" →
  (∀ l g, last_stage cfg = Ok l → g ∈ fields cfg l → field ≠ "Avg" +:+ g) →
  (∀ e, cyc !! "technique" = Some (SEvent e) → e ≠ ∅ →
        field ∈ fields cfg "technique" →
        rec !! field = Some (from_option evval_to_py (VStr "NA") (e !! field)))
  ∧ (∀ e, cyc !! "query" = Some (SEvent e) → e ≠ ∅ →
          field ∈ fields cfg "query" → field ∉ fields cfg "technique" →
          rec !! field = Some (from_option evval_to_py (VStr "NA") (e !! field))).
Proof.
  intros Hrec Hframes Hduration Havg. split.
  - intros e He Hne Hin. eapply build_record_keeps; [done..|].
    intros names start rec1 _ _ Hcopy. simpl in Hcopy.
    apply bind_Ok in Hcopy as (r1 & Hc1 & Hcopy).
    apply bind_Ok in Hcopy as (r2 & Hc2 & [= ->]).
    by eapply copy_stage_lookup.
  - intros e He Hne Hin Hnot. eapply build_record_keeps; [done..|].
    intros names start rec1 _ _ Hcopy. simpl in Hcopy.
    apply bind_Ok in Hcopy as (r1 & Hc1 & Hcopy).
    apply bind_Ok in Hcopy as (r2 & Hc2 & [= ->]).
    rewrite (copy_stage_other _ _ _ _ _ _ Hc2 Hnot).
    by eapply copy_stage_lookup.
Qed.


(** In a built record whose stage fields are not named [SourceFiles],
    [SourceFiles] joins with ["+"] the files of the cycle, each once, in
    increasing order; the files are all strings. *)
Theorem build_record_source_files cfg cyc files rec :
  build_record cfg cyc files = Ok rec →
  "SourceFiles" ∉ fields cfg "query" → "SourceFiles" ∉ fields cfg "technique" →
  ∃ names,
    rec !! "SourceFiles" = Some (VStr (join "+" names))
    ∧ Sorted str_le names ∧ NoDup names
    ∧ ∀ v, v ∈ files ↔ ∃ s, v = EStr s ∧ s ∈ names.
Proof.
  intros Hrec Hq Ht. pose proof Hrec as Hrec'.
  apply build_record_Ok in Hrec'
    as (l & names & start & rec1 & patterns & rec2 & frames
        & _ & Hnames & _ & _ & _ & _ & _ & _).
  unfold source_files_str in Hnames.
  apply bind_Ok in Hnames as (strs & Hstrs & [= <-]).
  apply mapM_as_str in Hstrs.
  exists (merge_sort str_le strs). split_and!.
  - eapply build_record_keeps; [done..|].
    intros names' start' rec1' Hn _ Hcopy.
    unfold source_files_str in Hn.
    apply bind_Ok in Hn as (strs' & Hstrs' & [= <-]).
    apply mapM_as_str in Hstrs'. rewrite Hstrs in Hstrs'.
    apply (inj (fmap EStr)) in Hstrs' as <-.
    simpl in Hcopy.
    apply bind_Ok in Hcopy as (r1 & Hc1 & Hcopy).
    apply bind_Ok in Hcopy as (r2 & Hc2 & [= ->]).
    rewrite (copy_stage_other _ _ _ _ _ _ Hc2 Ht).
    rewrite (copy_stage_other _ _ _ _ _ _ Hc1 Hq).
    rewrite lookup_insert_ne by done. apply lookup_insert_eq.
  - apply Sorted_merge_sort, str_le_total.
  - rewrite merge_sort_Permutation.
    apply (NoDup_fmap_1 EStr). rewrite <- Hstrs. apply NoDup_elements.
  - intros v. rewrite <- elem_of_elements, Hstrs, list_elem_of_fmap.
    setoid_rewrite merge_sort_Permutation. naive_solver.
Qed.

End record_fields.

(** ** Reading a file *)

Section reading.
Context `{Runtime}.

Lemma parse_events_effect cfg ts line filename seq self self' :
  parse_events cfg ts line filename seq self = Ok self' →
  self' = self
  ∨ ∃ e, self' = Processor (events self ++ [e]) (results self)
                   (incr "events_parsed" (metrics self)).
Proof.
  induction seq as [|evt seq IH]; simpl.
  - intros [= <-]. by left.
  - intros (patterns & _ & (r & _ & Hrest)%bind_Ok)%bind_Ok.
    destruct (fst r); [|by apply IH].
    injection Hrest as <-. right. by eexists.
Qed.

Lemma parse_line_effect cfg line filename self self' :
  parse_line cfg line filename self = Ok self' →
  self' = self
  ∨ ∃ e, self' = Processor (events self ++ [e]) (results self)
                   (incr "events_parsed" (metrics self)).
Proof.
  unfold parse_line. destruct (extract_timestamp cfg line) as [[ts|]|e]; simpl.
  - apply parse_events_effect.
  - intros [= <-]. by left.
  - done.
Qed.

(** Whether a line raises does not depend on the processor. *)
Lemma parse_events_raises cfg ts line filename seq self self' e :
  parse_events cfg ts line filename seq self = Raise e →
  parse_events cfg ts line filename seq self' = Raise e.
Proof.
  induction seq as [|evt seq IH]; simpl; [done|].
  destruct (getitem (PATTERN_CONFIG cfg) evt) as [patterns|]; simpl; [|done].
  destruct (foldM (match_field line) _ patterns) as [r|]; simpl; [|done].
  by destruct (fst r).
Qed.

Lemma parse_line_raises cfg line filename self self' e :
  parse_line cfg line filename self = Raise e →
  parse_line cfg line filename self' = Raise e.
Proof.
  unfold parse_line. destruct (extract_timestamp cfg line) as [[ts|]|e']; simpl;
    [|done..].
  apply parse_events_raises.
Qed.

Lemma process_file_effect cfg path lines self :
  ∃ (new : list event) (whole : bool),
    let self' := process_file cfg path lines self in
    events self' = events self ++ new
    ∧ results self' = results self
    ∧ (length new ≤ length lines)%nat
    ∧ counter (metrics self') "events_parsed"
      = counter (metrics self) "events_parsed" + Z.of_nat (length new)
    ∧ counter (metrics self') "files_processed"
      = counter (metrics self) "files_processed" + (if whole then 1 else 0)
    ∧ ∀ k, k ≠ "events_parsed" → k ≠ "files_processed" →
        metrics self' !! k = metrics self !! k.
Proof.
  revert self. induction lines as [|line lines IH]; intros self; simpl.
  - exists [], true. rewrite app_nil_r, counter_incr_eq, counter_incr_ne by done.
    split_and!; simpl; [done|done|lia|lia|done|].
    intros k _ Hk. simpl. unfold incr. by rewrite lookup_insert_ne.
  - destruct (parse_line cfg line path self) as [self1|e] eqn:Hline.
    + destruct (IH self1) as (new & whole & Hev & Hres & Hlen & Hparsed & Hfiles & Hother).
      simpl in *. rewrite Hev, Hres, Hparsed, Hfiles.
      destruct (parse_line_effect _ _ _ _ _ Hline) as [->|[e ->]].
      * exists new, whole. split_and!; [done|done|lia|done|done|done].
      * exists (e :: new), whole. simpl.
        rewrite <- app_assoc, counter_incr_eq, counter_incr_ne by done.
        split_and!; [done|done|lia|lia|done|].
        intros k Hk1 Hk2. rewrite Hother by done. simpl. unfold incr.
        by rewrite lookup_insert_ne.
    + exists [], false. rewrite app_nil_r.
      split_and!; simpl; [done|done|lia|lia|lia|done].
Qed.

(** [process_file] adds events at the end, at most one for each line, and
    nothing to the results; [events_parsed] goes up by the number of
    events added, [files_processed] by one or not at all, and no other
    counter changes. *)
Theorem process_file_counts_events cfg path lines self :
  ∃ (new : list event) (whole : bool),
    let self' := process_file cfg path lines self in
    events self' = events self ++ new
    ∧ results self' = results self
    ∧ (length new ≤ length lines)%nat
    ∧ counter (metrics self') "events_parsed"
      = counter (metrics self) "events_parsed" + Z.of_nat (length new)
    ∧ counter (metrics self') "files_processed"
      = counter (metrics self) "files_processed" + (if whole then 1 else 0)
    ∧ ∀ k, k ≠ "events_parsed" → k ≠ "files_processed" →
        metrics self' !! k = metrics self !! k.
Proof. apply process_file_effect. Qed.

Lemma match_fields_searchable line patterns acc :
  (∀ field pat e, (field, pat) ∈ patterns → re_search pat line ≠ SearchRaises e) →
  ∃ r, foldM (match_field line) acc patterns = Ok r.
Proof.
  revert acc. induction patterns as [|[field pat] patterns IH]; intros acc Hok; simpl.
  - by eexists.
  - unfold match_field at 1. simpl.
    pose proof (Hok field pat) as Hpat.
    destruct (re_search pat line) as [|g|e]; simpl.
    + apply IH. intros f p e Hin. apply (Hok f). by right.
    + apply IH. intros f p e Hin. apply (Hok f). by right.
    + destruct (Hpat e); [by left|done].
Qed.

Lemma parse_events_searchable cfg ts line filename seq self :
  Forall (λ name, is_Some (PATTERN_CONFIG cfg !! name)) seq →
  (∀ name patterns field pat line e,
     PATTERN_CONFIG cfg !! name = Some patterns → (field, pat) ∈ patterns →
     re_search pat line ≠ SearchRaises e) →
  ∃ self', parse_events cfg ts line filename seq self = Ok self'.
Proof.
  intros Hseq Hpat. induction Hseq as [|evt seq [patterns Hevt] _ IH]; simpl.
  - by eexists.
  - unfold getitem. rewrite Hevt. simpl.
    destruct (match_fields_searchable line patterns
                (false, new_event ts filename evt)) as [r ->].
    { intros field pat e. by eapply Hpat. }
    simpl. destruct (fst r); [by eexists|done].
Qed.

Lemma first_format_searchable text fmts :
  (∀ fmt e, fmt ∈ fmts → strptime text fmt ≠ ParseRaises e) →
  ∃ r, first_format text fmts = Ok r.
Proof.
  induction fmts as [|fmt fmts IH]; intros Hok; simpl; [by eexists|].
  pose proof (Hok fmt) as Hfmt.
  destruct (strptime text fmt) as [d| |e]; [by eexists| |].
  - apply IH. intros f e Hin. apply Hok. by right.
  - destruct (Hfmt e); [by left|done].
Qed.

Lemma parse_line_searchable cfg line filename self :
  searchable cfg → ∃ self', parse_line cfg line filename self = Ok self'.
Proof.
  intros (Hseq & Hpat & Hfmt). unfold parse_line, extract_timestamp.
  destruct (search_bracket line) as [text|]; simpl; [|by eexists].
  destruct (first_format_searchable text (TIMESTAMP_FORMATS cfg)) as [[ts|] ->];
    simpl; [by intros fmt e Hin; apply Hfmt| |by eexists].
  by apply parse_events_searchable.
Qed.

(** When nothing that [parse_line] does raises (every stage of the
    sequence has patterns, no pattern raises in the search or in the
    reading of its group 1, and no timestamp format makes [strptime]
    raise anything but [ValueError]), every line of the file is parsed
    and the file is counted. *)
Theorem process_file_counts_searchable_file cfg path lines self :
  searchable cfg →
  ∃ self',
    foldM (λ self line, parse_line cfg line path self) self lines = Ok self'
    ∧ process_file cfg path lines self
      = Processor (events self') (results self')
          (incr "files_processed" (metrics self')).
Proof.
  intros Hcfg. revert self. induction lines as [|line lines IH]; intros self; simpl.
  - by eexists.
  - destruct (parse_line_searchable cfg line path self Hcfg) as [self1 ->].
    simpl. apply IH.
Qed.

(** A line on which [parse_line] raises ends the file: the lines after
    it are not read, and the file is not counted. *)
Theorem process_file_stops_at_raising_line cfg path pre bad post self self0 e :
  parse_line cfg bad path self0 = Raise e →
  process_file cfg path (pre ++ bad :: post) self
  = process_file cfg path (pre ++ [bad]) self
  ∧ metrics (process_file cfg path (pre ++ bad :: post) self) !! "files_processed"
    = metrics self !! "files_processed".
Proof.
  intros Hbad. revert self. induction pre as [|line pre IH]; intros self; simpl.
  - by rewrite (parse_line_raises _ _ _ _ self _ Hbad).
  - destruct (parse_line cfg line path self) as [self1|] eqn:Hline; [|done].
    destruct (IH self1) as [-> ->]. split; [done|].
    destruct (parse_line_effect _ _ _ _ _ Hline) as [->|[ev ->]]; [done|].
    unfold incr. simpl. by rewrite lookup_insert_ne.
Qed.

End reading.

(** ** Writing the table *)

Section table.
Context `{Runtime}.

Lemma dict_to_list_Ok fieldnames (rowdict : record) row :
  dict_to_list fieldnames rowdict = Ok row →
  (∀ k, is_Some (rowdict !! k) → k ∈ fieldnames)
  ∧ row = (λ key, default (VStr "") (rowdict !! key)) <$> fieldnames.
Proof.
  unfold dict_to_list. case_bool_decide as Hkeys; [|done].
  intros [= <-]. split; [|done]. intros k [v Hk]. by apply (Hkeys k v).
Qed.

Lemma dict_to_list_raises fieldnames (rowdict : record) k :
  is_Some (rowdict !! k) → k ∉ fieldnames →
  dict_to_list fieldnames rowdict = Raise ValueError.
Proof.
  intros [v Hk] Hnot. unfold dict_to_list. case_bool_decide as Hkeys; [|done].
  destruct Hnot. by apply (Hkeys k v).
Qed.

Lemma mapM_Forall2 {A B : Type} (f : A → res B) l l' :
  mapM f l = Ok l' → Forall2 (λ a b, f a = Ok b) l l'.
Proof.
  revert l'. induction l as [|a l IH]; intros l'; simpl.
  - intros [= <-]. constructor.
  - intros (b & Hb & (bs & Hbs & [= <-])%bind_Ok)%bind_Ok. constructor; eauto.
Qed.

Lemma mapM_Ok {A B : Type} (f : A → res B) l :
  Forall (λ a, ∃ b, f a = Ok b) l → ∃ l', mapM f l = Ok l'.
Proof.
  induction 1 as [|a l [b Hb] _ [l' IH]]; simpl; [by eexists|].
  rewrite Hb, IH. simpl. by eexists.
Qed.

(** A table that is written holds the header and, for each record in
    turn, a row with every value of the record in the column of its key;
    a column whose field the record lacks holds the empty string. *)
Theorem save_results_keeps_every_value created output_path csv_fields self table :
  save_results created output_path csv_fields self = Ok (Some table) →
  ∃ rows,
    table = (VStr <$> csv_fields) :: rows
    ∧ Forall2 (λ (rec : record) row,
        length row = length csv_fields
        ∧ (∀ k v, rec !! k = Some v →
             ∃ i, csv_fields !! i = Some k ∧ row !! i = Some v)
        ∧ (∀ i k, csv_fields !! i = Some k → rec !! k = None →
             row !! i = Some (VStr "")))
        (results self) rows.
Proof.
  unfold save_results. destruct (results self) as [|rec0 recs] eqn:Hres; [done|].
  intros (opened & _ & (rows & Hrows & [= <-])%bind_Ok)%bind_Ok.
  exists rows. split; [done|].
  apply mapM_Forall2 in Hrows. eapply Forall2_impl; [exact Hrows|].
  intros rec row [Hkeys ->]%dict_to_list_Ok. split_and!.
  - by rewrite length_fmap.
  - intros k v Hk.
    assert (k ∈ csv_fields) as [i Hi]%list_elem_of_lookup by (by apply Hkeys).
    exists i. split; [done|]. rewrite list_lookup_fmap, Hi. simpl. by rewrite Hk.
  - intros i k Hi Hk. rewrite list_lookup_fmap, Hi. simpl. by rewrite Hk.
Qed.

(** What the loops of [build_record] keep: a key once stored stays. *)
Lemma foldM_keeps {A : Type} (f : record → A → res record) items
    (rec rec' : record) k :
  (∀ rec x rec', f rec x = Ok rec' → is_Some (rec !! k) → is_Some (rec' !! k)) →
  foldM f rec items = Ok rec' → is_Some (rec !! k) → is_Some (rec' !! k).
Proof.
  intros Hf. revert rec. induction items as [|x items IH]; intros rec; simpl.
  - by intros [= <-].
  - intros (r & Hr & Hrest)%bind_Ok Hk. eauto.
Qed.

Lemma insert_keeps (rec : record) k k' v :
  is_Some (rec !! k) → is_Some (<[k' := v]> rec !! k).
Proof.
  intros Hk. destruct (decide (k' = k)) as [->|Hne].
  - rewrite lookup_insert_eq. by eexists.
  - by rewrite lookup_insert_ne.
Qed.

Lemma copy_stage_keeps cfg cyc k (rec : record) stage (rec' : record) :
  copy_stage cfg cyc rec stage = Ok rec' →
  is_Some (rec !! k) → is_Some (rec' !! k).
Proof.
  unfold copy_stage.
  destruct (slot_truthy (cycle_get cyc stage)); [|by intros [= <-]].
  intros (patterns & _ & Hloop)%bind_Ok. revert Hloop. apply foldM_keeps.
  intros r x r'. destruct (cycle_get cyc stage); [done| |done].
  intros [= <-]. apply insert_keeps.
Qed.

Lemma store_average_keeps timing k (rec : record) item (rec' : record) :
  store_average timing rec item = Ok rec' →
  is_Some (rec !! k) → is_Some (rec' !! k).
Proof.
  unfold store_average. intros (values & _ & [= <-])%bind_Ok. apply insert_keeps.
Qed.

(** Every built record holds the three keys stored outside the loops. *)
Lemma build_record_has_key cfg cyc files rec k :
  build_record cfg cyc files = Ok rec →
  k ∈ ["SourceFiles"; "StartTime"; "frames"] → is_Some (rec !! k).
Proof.
  intros (l & names & start & rec1 & patterns & rec2 & frames
          & _ & _ & _ & Hcopy & _ & Havg & _ & ->)%build_record_Ok Hk.
  assert (k = "frames" ∨ is_Some (rec2 !! k)) as Hrec2.
  { apply elem_of_cons in Hk as [->|Hk].
    - right. eapply foldM_keeps; [apply store_average_keeps|exact Havg|].
      eapply foldM_keeps; [apply copy_stage_keeps|exact Hcopy|].
      apply insert_keeps. rewrite lookup_insert_eq. by eexists.
    - apply elem_of_cons in Hk as [->|Hk].
      + right. eapply foldM_keeps; [apply store_average_keeps|exact Havg|].
        eapply foldM_keeps; [apply copy_stage_keeps|exact Hcopy|].
        rewrite lookup_insert_eq. by eexists.
      + left. by apply list_elem_of_singleton in Hk. }
  assert (is_Some (<["frames" := VInt frames]> rec2 !! k)) as Hframes.
  { destruct Hrec2 as [->|Hrec2]; [|by apply insert_keeps].
    rewrite lookup_insert_eq. by eexists. }
  destruct (duration _); [by apply insert_keeps|done].
Qed.

(** With a record to save, [save_results] raises unless [CSV_FIELDS]
    names [SourceFiles], [StartTime] and [frames], every record built
    from a cycle holding the three: it raises what making the directory
    and opening the file raise, [FileNotFoundError] for an output path
    without a directory part, and [ValueError] from the writer when the
    file is opened. *)
Theorem save_results_needs_record_columns cfg created output_path csv_fields self k :
  results self ≠ [] → Forall (appended cfg) (results self) →
  k ∈ ["SourceFiles"; "StartTime"; "frames"] → k ∉ csv_fields →
  save_results created output_path csv_fields self
  = Raise (if no_slash output_path then FileNotFoundError
           else match created with
                | Raise e => e
                | Ok _ => ValueError
                end).
Proof.
  unfold save_results, open_output. intros Hne Hall Hk Hnot.
  destruct (results self) as [|rec recs]; [done|].
  apply Forall_cons in Hall as [(_ & cyc & files & Hrec) _].
  destruct (no_slash output_path); [done|].
  destruct created as [[]|e]; [|done]. simpl.
  erewrite dict_to_list_raises; [done| |done].
  by eapply build_record_has_key.
Qed.

(** The keys of a loop's result are those it started with and those of
    its items. *)
Lemma foldM_keys {A : Type} (f : record → A → res record) (key : A → string)
    items (rec rec' : record) k :
  (∀ rec x rec', f rec x = Ok rec' → is_Some (rec' !! k) →
                 k = key x ∨ is_Some (rec !! k)) →
  foldM f rec items = Ok rec' → is_Some (rec' !! k) →
  k ∈ key <$> items ∨ is_Some (rec !! k).
Proof.
  intros Hf. revert rec. induction items as [|x items IH]; intros rec; simpl.
  - intros [= <-]. by right.
  - intros (r & Hr & Hrest)%bind_Ok Hk.
    destruct (IH _ Hrest Hk) as [Hin|Hin]; [left; by right|].
    destruct (Hf _ _ _ Hr Hin) as [->|Hrec]; [left; by left|by right].
Qed.

Lemma insert_keys (rec : record) k k' v :
  is_Some (<[k' := v]> rec !! k) → k = k' ∨ is_Some (rec !! k).
Proof.
  destruct (decide (k' = k)) as [->|Hne]; [by left|].
  rewrite lookup_insert_ne by done. by right.
Qed.

Lemma copy_stage_keys cfg cyc (rec rec' : record) stage k :
  copy_stage cfg cyc rec stage = Ok rec' → is_Some (rec' !! k) →
  k ∈ fields cfg stage ∨ is_Some (rec !! k).
Proof.
  unfold copy_stage, fields, getitem.
  destruct (slot_truthy (cycle_get cyc stage)); [|intros [= <-]; by right].
  destruct (PATTERN_CONFIG cfg !! stage) as [patterns|]; simpl; [|done].
  apply (foldM_keys _ fst).
  intros r x r'. destruct (cycle_get cyc stage); [done| |done].
  intros [= <-]. apply insert_keys.
Qed.

(** The keys of a built record are among [record_keys]. *)
Lemma build_record_keys cfg cyc files rec k :
  build_record cfg cyc files = Ok rec → is_Some (rec !! k) →
  k ∈ record_keys cfg.
Proof.
  intros (l & names & start & rec1 & patterns & rec2 & frames
          & Hl & _ & _ & Hcopy & Hpat & Havg & _ & ->)%build_record_Ok Hk.
  unfold record_keys. unfold last_stage in Hl.
  destruct (last (EVENT_SEQUENCE cfg)) as [l'|]; [|done]. injection Hl as ->.
  rewrite !elem_of_app.
  assert (k = "Duration(s)" ∨ k = "frames" ∨ is_Some (rec2 !! k)) as [->|[->|Hrec2]].
  { destruct (duration _).
    - apply insert_keys in Hk as [->|Hk]; [by left|]. right. by eapply insert_keys.
    - right. by eapply insert_keys. }
  { do 4 right. set_solver. }
  { do 4 right. set_solver. }
  assert (∀ (r : record) x r',
            store_average (default (SList []) (cyc !! l)) r x = Ok r' →
            is_Some (r' !! k) → k = "Avg" +:+ x.1 ∨ is_Some (r !! k)) as Hstep.
  { intros r x r'. unfold store_average.
    intros (values & _ & [= <-])%bind_Ok. apply insert_keys. }
  destruct (foldM_keys _ (λ item : string * string, "Avg" +:+ item.1)
              _ _ _ k Hstep Havg Hrec2) as [Hin|Hrec1].
  { do 3 right. left. unfold fields, getitem in *.
    destruct (PATTERN_CONFIG cfg !! l); simplify_eq/=.
    by rewrite <- list_fmap_compose. }
  simpl in Hcopy.
  apply bind_Ok in Hcopy as (r1 & Hc1 & Hcopy).
  apply bind_Ok in Hcopy as (r2 & Hc2 & [= ->]).
  destruct (copy_stage_keys _ _ _ _ _ _ Hc2 Hrec1) as [?|Hr1]; [by right; right; left|].
  destruct (copy_stage_keys _ _ _ _ _ _ Hc1 Hr1) as [?|Hr0]; [by right; left|].
  left. apply insert_keys in Hr0 as [->|Hr0]; [set_solver|].
  apply insert_keys in Hr0 as [->|Hr0]; [set_solver|].
  rewrite lookup_empty in Hr0. by destruct Hr0.
Qed.

(** When [CSV_FIELDS] names every key a record may hold, the output
    path has a directory part, and the directory can be made and the
    file opened, [save_results] does not raise on records built from
    cycles. *)
Theorem save_results_accepts_record_keys cfg output_path csv_fields self :
  Forall (appended cfg) (results self) →
  record_keys cfg ⊆ csv_fields →
  no_slash output_path = false →
  ∃ table, save_results (Ok ()) output_path csv_fields self = Ok table.
Proof.
  unfold save_results, open_output. intros Hall Hsub ->. simpl.
  destruct (results self) as [|rec0 recs] eqn:Hres; [by eexists|].
  destruct (mapM_Ok (dict_to_list csv_fields) (rec0 :: recs)) as [rows Hrows].
  - eapply Forall_impl; [exact Hall|].
    intros rec (_ & cyc & files & Hrec). unfold dict_to_list.
    rewrite bool_decide_eq_true_2; [by eexists|].
    intros k v Hk. apply Hsub. eapply build_record_keys; [done|by eexists].
  - rewrite Hrows. simpl. by eexists.
Qed.

End table.

(** ** The whole run *)

Section whole_run.
Context `{Runtime}.

Lemma read_metric_counter k m :
  (read_metric k m).1 = counter m k
  ∧ ∀ k', counter (read_metric k m).2 k' = counter m k'.
Proof.
  unfold read_metric, counter. destruct (m !! k) as [n|] eqn:Hk; simpl.
  - done.
  - split; [done|]. intros k'.
    destruct (decide (k = k')) as [<-|Hne].
    + by rewrite lookup_insert_eq, Hk.
    + by rewrite lookup_insert_ne.
Qed.

Lemma process_file_counted cfg path lines self :
  counted self → counted (process_file cfg path lines self).
Proof.
  intros [Hev Hres].
  destruct (process_file_effect cfg path lines self)
    as (new & whole & Hev' & Hres' & _ & Hparsed & _ & Hother).
  simpl in *. split.
  - rewrite Hparsed, Hev', length_app. lia.
  - rewrite Hres'. unfold counter in *. by rewrite Hother.
Qed.

Lemma read_paths_counted cfg files self :
  counted self → counted (foldl (read_path cfg) self files).
Proof.
  revert self. induction files as [|file files IH]; intros self Hself; simpl; [done|].
  apply IH. unfold read_path. destruct file.2; [|done].
  by apply process_file_counted.
Qed.

Lemma analyze_events_counted cfg self self' :
  analyze_events cfg self = Ok self' → counted self → counted self'.
Proof.
  intros (Hev & log & _ & Hres & _ & Hdone & _ & Hother)%analyze_events_effect
    [Hparsed Hcompleted].
  split.
  - unfold counter in *. rewrite Hother by done. rewrite Hparsed.
    by rewrite (Permutation_length Hev).
  - rewrite Hdone, Hres, length_app. lia.
Qed.

(** A run that starts with counters that agree with the data, as a new
    processor does, and reaches the summary prints the number of events
    held under "Events parsed" and the number of records held under
    both "Cycles completed" and "Records saved"; the table is written
    just when there is a record, with one row for each after the
    header. *)
Theorem process_files_summary_agrees cfg created output_path csv_fields files
    self self' table counts :
  counted self →
  process_files cfg created output_path csv_fields files self
  = Summary self' table counts →
  ("Events parsed:     ", Z.of_nat (length (events self'))) ∈ counts
  ∧ ("Cycles completed:  ", Z.of_nat (length (results self'))) ∈ counts
  ∧ ("Records saved:     ", Z.of_nat (length (results self'))) ∈ counts
  ∧ (table = None ↔ results self' = [])
  ∧ ∀ rows, table = Some rows → length rows = S (length (results self')).
Proof.
  intros Hself. unfold process_files. destruct files as [|file files]; [done|].
  set (self1 := foldl (read_path cfg) self (file :: files)).
  assert (counted self1) as Hself1 by (by apply read_paths_counted).
  destruct (analyze_events cfg self1) as [self2|] eqn:Hrun; [|done].
  pose proof (analyze_events_counted _ _ _ Hrun Hself1) as [Hparsed Hcompleted].
  destruct (save_results created output_path csv_fields self2) as [table'|] eqn:Hsave;
    [|done].
  intros [= <- <- <-]. unfold print_summary. cbn [fst snd events results].
  destruct (read_metric_counter "files_processed" (metrics self2)) as [_ H1].
  destruct (read_metric_counter "events_parsed"
              (read_metric "files_processed" (metrics self2)).2) as [H2 H2'].
  destruct (read_metric_counter "cycles_completed"
              (read_metric "events_parsed"
                 (read_metric "files_processed" (metrics self2)).2).2) as [H3 _].
  rewrite H2, H1, Hparsed, H3, H2', H1, Hcompleted.
  split_and!.
  - right. left.
  - do 2 right. left.
  - do 3 right. apply elem_of_app. right. left.
  - unfold save_results in Hsave. destruct (results self2); [by injection Hsave as <-|].
    apply bind_Ok in Hsave as (opened & _ & Hsave).
    apply bind_Ok in Hsave as (rows & _ & [= <-]). done.
  - intros rows ->. unfold save_results in Hsave.
    destruct (results self2) as [|r rs] eqn:Hres; [done|].
    apply bind_Ok in Hsave as (opened & _ & Hsave).
    apply bind_Ok in Hsave as (rows' & Hrows & [= <-]).
    apply mapM_Forall2, Forall2_length in Hrows. simpl in *. lia.
Qed.

End whole_run.

(** ** Complete passes through the sequence *)

Lemma NoDup_index seq i x : NoDup seq → seq !! i = Some x → index seq x = Some i.
Proof.
  intros Hnd. revert i. induction Hnd as [|y seq Hy _ IH]; intros i; [done|].
  destruct i as [|i]; simpl.
  - intros [= ->]. by rewrite decide_True.
  - intros Hi. rewrite decide_False.
    + by rewrite (IH _ Hi).
    + intros ->. apply Hy. by eapply list_elem_of_lookup_2.
Qed.

Section passes.
Variable seq : list string.
Hypothesis Hnodup : NoDup seq.
Hypothesis Hlen : (2 ≤ length seq)%nat.

Lemma pass_step block i m e name :
  (1 ≤ i)%nat → pass_inv seq block i m →
  seq !! i = Some name → block !! i = Some e → event_of name e →
  ∃ m', step record_call seq m e = Ok m'
        ∧ pass_inv seq block (S i) m' ∧ m_self m' = m_self m.
Proof using Hnodup Hlen.
  intros Hi (Hst & Hcyc & Hlast & Hfiles) Hname He [Hty [file Hfile]].
  pose proof (NoDup_index _ _ _ Hnodup Hname) as Hidx.
  pose proof (lookup_lt_Some _ _ _ Hname) as Hlt.
  assert (∀ j name', (j < i)%nat → seq !! j = Some name' → name ≠ name') as Hne.
  { intros j name' Hj Hname' <-.
    pose proof (NoDup_lookup _ _ _ _ Hnodup Hname Hname'). lia. }
  assert (∀ file', file' ∈ ({[file]} ∪ m_sources m : gset evval)
          ↔ ∃ j e', (j < S i)%nat ∧ block !! j = Some e' ∧ e' !! "file" = Some file')
    as Hfiles'.
  { intros file'. rewrite elem_of_union, elem_of_singleton, Hfiles. split.
    - intros [->|(j & e' & Hj & He' & Hf)].
      + exists i, e. split_and!; [lia|done|done].
      + exists j, e'. split_and!; [lia|done|done].
    - intros (j & e' & Hj & He' & Hf).
      destruct (decide (j = i)) as [->|Hji].
      + left. rewrite He in He'. injection He' as <-. rewrite Hfile in Hf.
        by injection Hf.
      + right. exists j, e'. split_and!; [lia|done|done]. }
  destruct (decide (S i = length seq)) as [Hend|Hmid].
  - destruct (last seq) as [l|] eqn:Hl;
      [|apply last_None in Hl; rewrite Hl in Hlen; simpl in Hlen; lia].
    pose proof (last_lookup_pred _ _ Hl) as Hl'.
    replace (length seq - 1)%nat with i in Hl' by lia.
    rewrite Hname in Hl'. injection Hl' as <-.
    eexists. split_and!.
    + apply (step_last _ _ _ _ name file []); rewrite ?Hst; try done; try lia.
      by apply Hlast; [lia|].
    + split_and!; simpl; [by rewrite Hst| |lia|done].
      intros j name' e' Hj Hname' He'.
      destruct (decide (j = i)) as [->|Hji].
      * rewrite Hname in Hname'. injection Hname' as <-.
        rewrite He in He'. injection He' as <-.
        rewrite lookup_insert_eq. unfold stage_slot. by rewrite decide_True.
      * rewrite lookup_insert_ne by (apply (Hne j); [lia|done]).
        apply Hcyc; [lia|done|done].
    + done.
  - exists (Machine (S (m_state m)) (<[name := SEvent e]> (m_cycle m))
              ({[file]} ∪ m_sources m) (m_self m)).
    split_and!.
    + unfold step, getitem, bind. rewrite Hty, Hidx, Hfile, Hst.
      destruct (Nat.eqb_spec i 0); [lia|]. rewrite Nat.eqb_refl.
      destruct (Nat.eqb_spec i (length seq - 1)); [lia|done].
    + split_and!; simpl; [by rewrite Hst| | |done].
      * intros j name' e' Hj Hname' He'.
        destruct (decide (j = i)) as [->|Hji].
        -- rewrite Hname in Hname'. injection Hname' as <-.
           rewrite He in He'. injection He' as <-.
           rewrite lookup_insert_eq. unfold stage_slot. by rewrite decide_False.
        -- rewrite lookup_insert_ne by (apply (Hne j); [lia|done]).
           apply Hcyc; [lia|done|done].
      * intros Hlt' l Hl. pose proof (last_lookup_pred _ _ Hl) as Hl'.
        rewrite lookup_insert_ne; [apply Hlast; [lia|done]|].
        intros ->. pose proof (NoDup_lookup _ _ _ _ Hnodup Hname Hl'). lia.
    + done.
Qed.

Lemma pass_steps block k i m :
  (i + k = length seq)%nat → (1 ≤ i)%nat → pass seq block →
  pass_inv seq block i m →
  ∃ m', foldM (step record_call seq) m (drop i block) = Ok m'
        ∧ pass_inv seq block (length seq) m' ∧ m_self m' = m_self m.
Proof using Hnodup Hlen.
  intros Hk Hi Hpass. revert i m Hk Hi. induction k as [|k IH]; intros i m Hk Hi Hinv.
  - rewrite drop_ge by (rewrite <- (Forall2_length _ _ _ Hpass); lia).
    exists m. simpl. replace (length seq) with i by lia. done.
  - assert (i < length seq)%nat as Hlt by lia.
    destruct (lookup_lt_is_Some_2 seq i Hlt) as [name Hname].
    destruct (Forall2_lookup_l _ _ _ _ _ Hpass Hname) as (e & He & Hev).
    rewrite (drop_S _ _ _ He). simpl.
    destruct (pass_step block i m e name Hi Hinv Hname He Hev)
      as (m1 & -> & Hinv1 & Hself1).
    simpl. destruct (IH (S i) m1) as (m' & Hrun & Hinv' & Hself'); [lia|lia|done|].
    exists m'. split_and!; [done|done|congruence].
Qed.

(** A pass, from any state: what was complete is finalized by its first
    event, and its last event completes a cycle that holds it. *)
Lemma pass_block block m :
  pass seq block →
  ∃ m', foldM (step record_call seq) m block = Ok m'
        ∧ m_state m' = length seq
        ∧ holds_pass seq block (m_cycle m', m_sources m')
        ∧ m_self m' = flush record_call seq m.
Proof using Hnodup Hlen.
  intros Hpass. pose proof (Forall2_length _ _ _ Hpass) as Hlength.
  destruct (lookup_lt_is_Some_2 seq 0%nat) as [name0 Hname0]; [lia|].
  destruct (Forall2_lookup_l _ _ _ _ _ Hpass Hname0) as (e0 & He0 & Hty & file & Hfile).
  pose proof (drop_S _ _ _ He0) as Hblock. rewrite drop_0 in Hblock.
  destruct (last seq) as [l|] eqn:Hl;
    [|apply last_None in Hl; rewrite Hl in Hlen; simpl in Hlen; lia].
  destruct (empty_cycle seq) as [cyc0|] eqn:Hcyc0;
    [|unfold empty_cycle in Hcyc0; by rewrite Hl in Hcyc0].
  pose proof (step_first record_call seq m e0 name0 file cyc0 Hty
                (NoDup_index _ _ _ Hnodup Hname0) Hfile Hcyc0) as Hstep.
  set (m1 := Machine 1 (<[name0 := SEvent e0]> cyc0) {[file]}
               (flush record_call seq m)) in *.
  assert (pass_inv seq block 1 m1) as Hinv1.
  { split_and!; simpl; [done| | |].
    - intros j name e Hj Hname He. assert (j = 0%nat) as -> by lia.
      rewrite Hname0 in Hname. injection Hname as <-.
      rewrite He0 in He. injection He as <-.
      rewrite lookup_insert_eq. unfold stage_slot. rewrite decide_False; [done|lia].
    - intros _ l' Hl'. rewrite Hl in Hl'. injection Hl' as <-.
      rewrite lookup_insert_ne; [by eapply empty_cycle_last|].
      intros ->. pose proof (last_lookup_pred _ _ Hl) as Hl'.
      pose proof (NoDup_lookup _ _ _ _ Hnodup Hname0 Hl'). lia.
    - intros file'. rewrite elem_of_singleton. split.
      + intros ->. exists 0%nat, e0. split_and!; [lia|done|done].
      + intros (j & e & Hj & He & Hf). assert (j = 0%nat) as -> by lia.
        rewrite He0 in He. injection He as <-. rewrite Hfile in Hf. by injection Hf. }
  destruct (pass_steps block (length seq - 1) 1 m1) as (m' & Hrun & Hinv' & Hself');
    [lia|lia|done|done|].
  exists m'. rewrite Hblock at 1. simpl. rewrite Hstep. simpl.
  destruct Hinv' as (Hst' & Hcyc' & _ & Hfiles').
  split_and!; [done|done| |done].
  split; simpl.
  - intros i name e Hname He. apply Hcyc'; [|done|done].
    by eapply lookup_lt_Some.
  - intros file'. rewrite Hfiles'. split.
    + intros (j & e & _ & He & Hf). exists e. split; [|done].
      by eapply list_elem_of_lookup_2.
    + intros (e & [j He]%list_elem_of_lookup_1 & Hf). exists j, e.
      split_and!; [|done|done]. rewrite Hlength. by eapply lookup_lt_Some.
Qed.

Lemma pass_blocks blocks m :
  Forall (pass seq) blocks →
  ∃ m' log, foldM (step record_call seq) m (concat blocks) = Ok m'
            ∧ flush record_call seq m' = flush record_call seq m ++ log
            ∧ Forall2 (holds_pass seq) blocks log.
Proof using Hnodup Hlen.
  intros Hall. revert m. induction Hall as [|block blocks Hpass _ IH]; intros m.
  - exists m, []. simpl. rewrite app_nil_r. split_and!; [done|done|constructor].
  - simpl. rewrite foldM_app.
    destruct (pass_block block m Hpass) as (m1 & -> & Hst & Hholds & Hself).
    simpl. destruct (IH m1) as (m' & log & Hrun & Hflush & Hlog).
    exists m', ((m_cycle m1, m_sources m1) :: log). split_and!; [done| |by constructor].
    rewrite Hflush. unfold flush at 1. rewrite Hst, Nat.eqb_refl.
    unfold record_call. by rewrite Hself, <- app_assoc.
Qed.

Lemma finalized_passes blocks :
  Forall (pass seq) blocks →
  ∃ log, finalized seq (concat blocks) = Ok log
         ∧ Forall2 (holds_pass seq) blocks log.
Proof using Hnodup Hlen.
  intros Hall. unfold finalized, run.
  destruct (last seq) as [l|] eqn:Hl;
    [|apply last_None in Hl; rewrite Hl in Hlen; simpl in Hlen; lia].
  destruct (empty_cycle seq) as [cyc0|] eqn:Hcyc0;
    [|unfold empty_cycle in Hcyc0; by rewrite Hl in Hcyc0].
  simpl. destruct (pass_blocks blocks (Machine 0 cyc0 ∅ []) Hall)
    as (m' & log & -> & Hflush & Hlog).
  simpl. exists log. split; [|done]. rewrite Hflush. unfold flush.
  cbn [m_state m_self]. destruct (Nat.eqb_spec 0 (length seq)); [lia|done].
Qed.

End passes.

Section passes_analyzed.
Context `{Runtime}.

(** With two or more distinct stages, events that make complete passes
    through the sequence, one event for each stage in order, and that
    are in time order, make [analyze_events] finalize one cycle for each
    pass, in order: the cycle holds the events of the pass, each under
    its stage, the last in a list, and the files are those of its
    events. *)
Theorem complete_passes_are_finalized cfg blocks rs ms :
  NoDup (EVENT_SEQUENCE cfg) → (2 ≤ length (EVENT_SEQUENCE cfg))%nat →
  Forall (pass (EVENT_SEQUENCE cfg)) blocks →
  time_ordered (concat blocks) →
  ∃ log,
    Forall2 (holds_pass (EVENT_SEQUENCE cfg)) blocks log
    ∧ finalized (EVENT_SEQUENCE cfg) (concat blocks) = Ok log
    ∧ analyze_events cfg (Processor (concat blocks) rs ms)
      = Ok (replay (finalize_cycle cfg) log (Processor (concat blocks) rs ms)).
Proof.
  intros Hnodup Hlen Hall Hordered.
  destruct (finalized_passes _ Hnodup Hlen blocks Hall) as (log & Hlog & Hholds).
  exists log. split_and!; [done|done|].
  rewrite analyze_events_replay. simpl.
  destruct (concat blocks) as [|e evs] eqn:Hevs.
  - unfold finalized, run in Hlog.
    apply bind_Ok in Hlog as (cyc & Hcyc & Hlog). simpl in Hlog.
    injection Hlog as <-. unfold flush. cbn [m_state m_self].
    destruct (Nat.eqb_spec 0 (length (EVENT_SEQUENCE cfg))); [lia|done].
  - rewrite (sort_events_ordered _ Hordered). simpl. by rewrite Hlog.
Qed.

End passes_analyzed.

(** ** The natural order of the files *)

Lemma all_digits_app a b : all_digits (a +:+ b) = all_digits a && all_digits b.
Proof. induction a as [|c a IH]; simpl; [done|]. rewrite IH. by destruct (is_digit c). Qed.

Lemma no_digits_app a b : no_digits (a +:+ b) = no_digits a && no_digits b.
Proof. induction a as [|c a IH]; simpl; [done|]. rewrite IH. by destruct (is_digit c). Qed.

Lemma isdigit_app a c :
  all_digits a = true → is_digit c = true →
  isdigit (a +:+ String c EmptyString) = true.
Proof.
  intros Ha Hc. unfold isdigit.
  assert (all_digits (a +:+ String c EmptyString) = true) as Hall.
  { rewrite all_digits_app, Ha. simpl. by rewrite Hc. }
  by destruct a.
Qed.

Lemma isdigit_all_digits p : isdigit p = true → all_digits p = true.
Proof. by destruct p. Qed.

Lemma no_digits_isdigit p : no_digits p = true → isdigit p = false.
Proof. destruct p as [|c p]; simpl; [done|]. by destruct (is_digit c). Qed.

(** The pieces of the split are text and digits in turn. *)
Lemma split_alternates s :
  (∀ text, no_digits text = true →
     alternates true (key_part <$> split_text text s) = true)
  ∧ (∀ digits, isdigit digits = true →
       alternates false (key_part <$> split_digits digits s) = true).
Proof.
  induction s as [|c s [IHt IHd]]; split.
  - intros text Ht. simpl. unfold key_part. by rewrite (no_digits_isdigit _ Ht).
  - intros digits Hd. simpl. unfold key_part. by rewrite Hd.
  - intros text Ht. simpl. destruct (is_digit c) eqn:Hc.
    + csimpl. unfold key_part at 1. rewrite (no_digits_isdigit _ Ht). simpl.
      apply IHd. simpl. by rewrite Hc.
    + apply IHt. rewrite no_digits_app, Ht. simpl. by rewrite Hc.
  - intros digits Hd. simpl. destruct (is_digit c) eqn:Hc.
    + apply IHd. by apply isdigit_app; [apply isdigit_all_digits|].
    + csimpl. unfold key_part at 1. rewrite Hd. simpl.
      apply IHt. simpl. by rewrite Hc.
Qed.

Lemma natural_sort_key_alternates path :
  alternates true (natural_sort_key path) = true.
Proof. unfold natural_sort_key. by apply split_alternates. Qed.

Lemma alternates_comparable text a b :
  alternates text a = true → alternates text b = true →
  ∃ r, list_lt a b = Ok r.
Proof.
  revert text b. induction a as [|x a IH]; intros text [|y b] Ha Hb; simpl;
    try by eexists.
  destruct x, y, text; simpl in *; try done.
  - destruct (n =? n0); [by eapply IH|by eexists].
  - destruct (String.eqb s s0); [by eapply IH|by eexists].
Qed.

(** Ordering the keys of two paths never raises: each key is text and
    numbers in turn, starting with a text, so that elements in the same
    place are both texts or both numbers. *)
Theorem natural_sort_keys_are_comparable p q :
  ∃ r, list_lt (natural_sort_key p) (natural_sort_key q) = Ok r.
Proof.
  eapply alternates_comparable; apply natural_sort_key_alternates.
Qed.

Lemma part_eq_eq a b : part_eq a b = true ↔ a = b.
Proof.
  destruct a, b; simpl; split; try done.
  - by intros ->%Z.eqb_eq.
  - intros [= ->]. apply Z.eqb_refl.
  - by intros ->%String.eqb_eq.
  - intros [= ->]. apply String.eqb_refl.
Qed.

Lemma list_lt_irrefl k : list_lt k k ≠ Ok true.
Proof.
  induction k as [|x k IH]; simpl; [done|].
  by rewrite (proj2 (part_eq_eq x x) eq_refl).
Qed.

Lemma ltb_asym a b : String.ltb a b = true → String.ltb b a = false.
Proof.
  unfold String.ltb. rewrite (String.compare_antisym b a).
  by destruct (String.compare a b).
Qed.

Lemma list_lt_asym a b : list_lt a b = Ok true → list_lt b a = Ok false.
Proof.
  revert b. induction a as [|x a IH]; intros [|y b]; simpl; try done.
  destruct (part_eq x y) eqn:Hxy.
  - apply part_eq_eq in Hxy as ->. rewrite (proj2 (part_eq_eq y y) eq_refl). apply IH.
  - assert (part_eq y x = false) as ->.
    { destruct (part_eq y x) eqn:Hyx; [|done].
      apply part_eq_eq in Hyx as ->.
      by rewrite (proj2 (part_eq_eq x x) eq_refl) in Hxy. }
    destruct x, y; simpl; try done.
    + intros [= Hlt]. f_equal. apply Z.ltb_lt in Hlt. apply Z.ltb_ge. lia.
    + intros [= Hlt]. f_equal. by apply ltb_asym.
Qed.

Lemma key_ltb_asym a b : key_ltb a b = true → key_ltb b a = false.
Proof.
  unfold key_ltb. destruct (list_lt a b) as [[]|] eqn:Hab; try done.
  by rewrite (list_lt_asym _ _ Hab).
Qed.

Lemma key_ltb_irrefl k : key_ltb k k = false.
Proof.
  unfold key_ltb. pose proof (list_lt_irrefl k).
  by destruct (list_lt k k) as [[]|].
Qed.

Lemma insert_compared_Permutation k path l : insert_compared k path l ≡ₚ (k, path) :: l.
Proof.
  induction l as [|[k' path'] l IH]; simpl; [done|].
  destruct (key_ltb k' k); [|done]. rewrite IH. apply Permutation_swap.
Qed.

Lemma sort_compared_Permutation l : sort_compared l ≡ₚ l.
Proof.
  induction l as [|[k path] l IH]; simpl; [done|].
  by rewrite insert_compared_Permutation, IH.
Qed.

Lemma insert_compared_Sorted k path l :
  Sorted (λ x y : list part * string, key_ltb y.1 x.1 = false) l →
  Sorted (λ x y : list part * string, key_ltb y.1 x.1 = false)
    (insert_compared k path l).
Proof.
  induction 1 as [|[k' path'] l Hs IH Hhd]; simpl; [by repeat constructor|].
  destruct (key_ltb k' k) eqn:Hlt.
  - constructor; [done|]. destruct Hhd as [|[k2 path2] l2 Hle]; simpl.
    + constructor. simpl. by apply key_ltb_asym.
    + destruct (key_ltb k2 k); constructor; simpl; [done|by apply key_ltb_asym].
  - repeat constructor; simpl; done.
Qed.

Lemma sort_compared_Sorted l :
  Sorted (λ x y : list part * string, key_ltb y.1 x.1 = false) (sort_compared l).
Proof.
  induction l as [|[k path] l IH]; simpl; [constructor|].
  by apply insert_compared_Sorted.
Qed.

(** Inserting moves the new path past strictly lesser keys only. *)
Lemma insert_compared_filter k path l k0 :
  filter (λ x : list part * string, x.1 = k0) (insert_compared k path l)
  = filter (λ x : list part * string, x.1 = k0) ((k, path) :: l).
Proof.
  induction l as [|[k' path'] l IH]; simpl; [done|].
  destruct (key_ltb k' k) eqn:Hlt; [|done].
  rewrite !filter_cons in *. simpl in *. rewrite IH.
  repeat case_decide; try done. subst. by rewrite key_ltb_irrefl in Hlt.
Qed.

Lemma sort_compared_filter l k0 :
  filter (λ x : list part * string, x.1 = k0) (sort_compared l)
  = filter (λ x : list part * string, x.1 = k0) l.
Proof.
  induction l as [|[k path] l IH]; simpl; [done|].
  rewrite insert_compared_filter, !filter_cons. simpl. by rewrite IH.
Qed.

Lemma insert_path_compared k path l :
  alternates true k = true →
  Forall (λ x : list part * string, alternates true x.1 = true) l →
  insert_path k path l = Ok (insert_compared k path l).
Proof.
  intros Hk. induction 1 as [|[k' path'] l Hk' _ IH]; simpl; [done|].
  unfold key_ltb. destruct (alternates_comparable true k' k Hk' Hk) as [lt ->].
  simpl. destruct lt; [|done]. by rewrite IH.
Qed.

Lemma sort_paths_compared l :
  Forall (λ x : list part * string, alternates true x.1 = true) l →
  sort_paths l = Ok (sort_compared l).
Proof.
  induction 1 as [|[k path] l Hk Hl IH]; simpl; [done|].
  rewrite IH. simpl. apply insert_path_compared; [done|].
  by rewrite sort_compared_Permutation.
Qed.

Lemma with_keys_alternate paths :
  Forall (λ x : list part * string, alternates true x.1 = true) (with_keys paths).
Proof.
  unfold with_keys. apply Forall_fmap, Forall_forall. intros path _. simpl.
  apply natural_sort_key_alternates.
Qed.

Lemma with_keys_consistent paths :
  Forall (λ x : list part * string, x.1 = natural_sort_key x.2) (with_keys paths).
Proof. unfold with_keys. by apply Forall_fmap, Forall_forall. Qed.

Lemma filter_snd_key (l : list (list part * string)) k :
  Forall (λ x : list part * string, x.1 = natural_sort_key x.2) l →
  filter (λ path, natural_sort_key path = k) l.*2
  = (filter (λ x : list part * string, x.1 = k) l).*2.
Proof.
  induction 1 as [|[k' path] l Hx _ IH]; csimpl; [done|].
  rewrite !filter_cons. csimpl in *. subst k'.
  case_decide; csimpl; by rewrite IH.
Qed.

(** [gather_files] returns normally: ordering the keys never raises.
    What it returns is the paths found, rearranged so that no path is
    followed by one of a lesser key, paths of one key staying in the
    order in which they were found. *)
Theorem gather_files_sorts_found_paths exts walked :
  ∃ paths,
    gather_files exts walked = Ok paths
    ∧ paths ≡ₚ walked_paths exts walked
    ∧ Sorted key_le paths
    ∧ ∀ k, filter (λ path, natural_sort_key path = k) paths
           = filter (λ path, natural_sort_key path = k) (walked_paths exts walked).
Proof.
  unfold gather_files. fold (with_keys (walked_paths exts walked)).
  set (found := walked_paths exts walked).
  rewrite (sort_paths_compared _ (with_keys_alternate found)). simpl.
  assert (Forall (λ x : list part * string, x.1 = natural_sort_key x.2)
            (sort_compared (with_keys found))) as Hcons.
  { rewrite sort_compared_Permutation. apply with_keys_consistent. }
  assert ((with_keys found).*2 = found) as Hsnd.
  { unfold with_keys. rewrite <- list_fmap_compose. apply list_fmap_id. }
  eexists. split_and!; [done| | |].
  - by rewrite sort_compared_Permutation, Hsnd.
  - pose proof (sort_compared_Sorted (with_keys found)) as Hs.
    induction Hs as [|x l Hs IH Hhd]; simpl; [constructor|].
    apply Forall_cons in Hcons as [Hx Hcons]. constructor; [by apply IH|].
    destruct Hhd as [|y l' Hle]; simpl; [constructor|].
    apply Forall_cons in Hcons as [Hy _]. constructor.
    unfold key_le. rewrite <- Hx, <- Hy. unfold key_ltb in Hle.
    destruct (alternates_comparable true y.1 x.1) as [r Hr].
    + rewrite Hy. apply natural_sort_key_alternates.
    + rewrite Hx. apply natural_sort_key_alternates.
    + rewrite Hr in *. by destruct r.
  - intros k. rewrite (filter_snd_key _ _ Hcons), sort_compared_filter.
    by rewrite <- (filter_snd_key _ _ (with_keys_consistent found)), Hsnd.
Qed.

(** *** Case *)

Lemma lower_char_slash c : Ascii.eqb (lower_char c) "/" = Ascii.eqb c "/".
Proof. by destruct c as [[] [] [] [] [] [] [] []]. Qed.

Lemma lower_char_digit c : is_digit (lower_char c) = is_digit c.
Proof. by destruct c as [[] [] [] [] [] [] [] []]. Qed.

Lemma lower_char_lower c : lower_char (lower_char c) = lower_char c.
Proof. by destruct c as [[] [] [] [] [] [] [] []]. Qed.

Lemma lower_char_of_digit c : is_digit c = true → lower_char c = c.
Proof. by destruct c as [[] [] [] [] [] [] [] []]. Qed.

Lemma lower_app a b : lower (a +:+ b) = lower a +:+ lower b.
Proof. induction a as [|c a IH]; simpl; [done|]. by rewrite IH. Qed.

Lemma lower_lower p : lower (lower p) = lower p.
Proof. induction p as [|c p IH]; simpl; [done|]. by rewrite lower_char_lower, IH. Qed.

Lemma lower_digits p : all_digits p = true → lower p = p.
Proof.
  induction p as [|c p IH]; simpl; [done|].
  intros [Hc Hp]%andb_prop. by rewrite (lower_char_of_digit _ Hc), (IH Hp).
Qed.

Lemma all_digits_lower p : all_digits (lower p) = all_digits p.
Proof. induction p as [|c p IH]; simpl; [done|]. by rewrite lower_char_digit, IH. Qed.

Lemma isdigit_lower p : isdigit (lower p) = isdigit p.
Proof. destruct p as [|c p]; simpl; [done|]. by rewrite lower_char_digit, all_digits_lower. Qed.

Lemma key_part_lower p : key_part (lower p) = key_part p.
Proof.
  unfold key_part. rewrite isdigit_lower. destruct (isdigit p) eqn:Hp.
  - by rewrite (lower_digits _ (isdigit_all_digits _ Hp)).
  - by rewrite lower_lower.
Qed.

Lemma basename_from_lower base path :
  basename_from (lower base) (lower path) = lower (basename_from base path).
Proof.
  revert base. induction path as [|c path IH]; intros base; simpl; [done|].
  rewrite lower_char_slash. destruct (Ascii.eqb c "/").
  - apply (IH EmptyString).
  - rewrite <- IH. by rewrite lower_app.
Qed.

Lemma split_lower s :
  (∀ text, split_text (lower text) (lower s) = lower <$> split_text text s)
  ∧ (∀ digits, split_digits (lower digits) (lower s) = lower <$> split_digits digits s).
Proof.
  induction s as [|c s [IHt IHd]]; split; intros p; simpl; try done.
  - rewrite lower_char_digit. destruct (is_digit c) eqn:Hc; csimpl.
    + f_equal. rewrite <- IHd. simpl. by rewrite (lower_char_of_digit _ Hc).
    + rewrite <- IHt. by rewrite lower_app.
  - rewrite lower_char_digit. destruct (is_digit c) eqn:Hc; csimpl.
    + rewrite <- IHd. by rewrite lower_app.
    + f_equal. by rewrite <- IHt.
Qed.

Lemma natural_sort_key_lower path :
  natural_sort_key (lower path) = natural_sort_key path.
Proof.
  unfold natural_sort_key, basename.
  pose proof (basename_from_lower EmptyString path) as Hbase.
  pose proof (proj1 (split_lower (basename_from EmptyString path)) EmptyString) as Hsplit.
  simpl in Hbase, Hsplit. rewrite Hbase, Hsplit, <- list_fmap_compose.
  apply list_fmap_ext. intros i p _. simpl. apply key_part_lower.
Qed.

(** The key ignores case: paths that differ in the case of their letters
    only have the same key. *)
Theorem natural_sort_key_ignores_case p q :
  lower p = lower q → natural_sort_key p = natural_sort_key q.
Proof.
  intros Heq. by rewrite <- (natural_sort_key_lower p), Heq, natural_sort_key_lower.
Qed.

(** *** Numbers *)

Lemma append_assoc (a b c : string) : (a +:+ b) +:+ c = a +:+ (b +:+ c).
Proof. induction a as [|x a IH]; [done|]. exact (f_equal (String x) IH). Qed.

Lemma append_empty_r (a : string) : a +:+ EmptyString = a.
Proof. induction a as [|x a IH]; [done|]. exact (f_equal (String x) IH). Qed.

Lemma no_slash_app a b : no_slash (a +:+ b) = no_slash a && no_slash b.
Proof.
  induction a as [|c a IH]; simpl; [done|]. rewrite IH.
  by destruct (Ascii.eqb c "/").
Qed.

Lemma basename_from_no_slash base path :
  no_slash path = true → basename_from base path = base +:+ path.
Proof.
  revert base. induction path as [|c path IH]; intros base; simpl.
  - by rewrite append_empty_r.
  - destruct (Ascii.eqb c "/"); [done|]. simpl. intros Hpath.
    by rewrite (IH _ Hpath), append_assoc.
Qed.

Lemma split_text_text acc text s :
  no_digits text = true →
  split_text acc (text +:+ s) = split_text (acc +:+ text) s.
Proof.
  revert acc. induction text as [|c text IH]; intros acc; simpl.
  - by rewrite append_empty_r.
  - destruct (is_digit c); [done|]. simpl. intros Htext.
    by rewrite (IH _ Htext), append_assoc.
Qed.

Lemma split_digits_digits acc digits s :
  all_digits digits = true → text_first s = true →
  split_digits acc (digits +:+ s)
  = (acc +:+ digits) :: split_text EmptyString s.
Proof.
  revert acc. induction digits as [|c digits IH]; intros acc; simpl.
  - intros _ Hs. rewrite append_empty_r.
    destruct s as [|c s]; simpl in *; [done|]. by destruct (is_digit c).
  - destruct (is_digit c); [|done]. simpl. intros Hdigits Hs.
    by rewrite (IH _ Hdigits Hs), append_assoc.
Qed.

Lemma split_text_number acc text digits rest :
  no_digits text = true → isdigit digits = true → text_first rest = true →
  split_text acc (text +:+ digits +:+ rest)
  = (acc +:+ text) :: digits :: split_text EmptyString rest.
Proof.
  intros Htext Hdigits Hrest. rewrite (split_text_text _ _ _ Htext).
  destruct digits as [|c digits]; [done|]. simpl in Hdigits.
  apply andb_prop in Hdigits as [Hc Hdigits].
  change (String c digits +:+ rest) with (String c (digits +:+ rest)).
  simpl. rewrite Hc. by rewrite (split_digits_digits _ _ _ Hdigits Hrest).
Qed.

Lemma natural_sort_key_number text digits rest :
  no_slash (text +:+ digits +:+ rest) = true →
  no_digits text = true → isdigit digits = true → text_first rest = true →
  natural_sort_key (text +:+ digits +:+ rest)
  = PStr (lower text) :: PInt (int_of digits)
    :: (key_part <$> split_text EmptyString rest).
Proof.
  intros Hslash Htext Hdigits Hrest. unfold natural_sort_key, basename.
  rewrite (basename_from_no_slash _ _ Hslash).
  change (EmptyString +:+ text +:+ digits +:+ rest) with (text +:+ digits +:+ rest).
  rewrite (split_text_number _ _ _ _ Htext Hdigits Hrest).
  change (EmptyString +:+ text) with text. csimpl.
  unfold key_part at 1 2. rewrite (no_digits_isdigit _ Htext). by rewrite Hdigits.
Qed.

(** Runs of digits are ordered as numbers: of two names that start with
    the same text, the one with the lesser number next has the lesser
    key, whatever the lengths of the two runs of digits. *)
Theorem digit_runs_are_ordered_as_numbers text d1 d2 rest1 rest2 :
  no_slash (text +:+ d1 +:+ rest1) = true →
  no_slash (text +:+ d2 +:+ rest2) = true →
  no_digits text = true → isdigit d1 = true → isdigit d2 = true →
  text_first rest1 = true → text_first rest2 = true →
  int_of d1 < int_of d2 →
  list_lt (natural_sort_key (text +:+ d1 +:+ rest1))
    (natural_sort_key (text +:+ d2 +:+ rest2)) = Ok true.
Proof.
  intros Hs1 Hs2 Htext Hd1 Hd2 Hr1 Hr2 Hlt.
  rewrite (natural_sort_key_number _ _ _ Hs1 Htext Hd1 Hr1).
  rewrite (natural_sort_key_number _ _ _ Hs2 Htext Hd2 Hr2).
  simpl. rewrite String.eqb_refl.
  destruct (Z.eqb_spec (int_of d1) (int_of d2)); [lia|].
  f_equal. apply Z.ltb_lt. lia.
Qed.


(** * The statements on the sample inputs *)

Import Sample Examples.

Lemma time_ordered_intro (evs : list event) ts :
  Forall2 (λ (e : event) t, e !! "time" = Some (ETime t)) evs ts →
  Sorted Z.le ts → time_ordered evs.
Proof. intros. by exists ts. Defined.

Lemma event_of_intro name (e : event) file :
  e !! "type" = Some (EStr name) → e !! "file" = Some file → event_of name e.
Proof. intros. split; [done|by exists file]. Defined.

(** Results found by running the definitions. *)
Lemma returns {A : Type} (r : res A) :
  match r with Ok _ => true | Raise _ => false end = true → ∃ a, r = Ok a.
Proof. destruct r as [a|e]; [by exists a|discriminate]. Defined.

Lemma returned {A : Type} (r : res A) (test : A → bool) a :
  r = Ok a →
  match r with Ok a' => test a' | Raise _ => false end = true → test a = true.
Proof. intros ->. exact id. Defined.

Lemma summarizes `{Runtime} (o : outcome) :
  match o with Summary _ _ _ => true | _ => false end = true →
  ∃ self table counts, o = Summary self table counts.
Proof. destruct o as [|e|self table counts]; [discriminate..|by eexists _, _, _]. Defined.

Ltac lookups := repeat first [constructor | vm_compute; reflexivity].
Ltac ordered := unfold t0; repeat constructor; lia.

(** C1 at four events one second apart, and at two events out of order. *)
Lemma init_execute_twice_two_cycles_witness :
  (∃ c1 f1 c2 f2,
     finalized ["init"; "execute"]
       [ev "init" 0 "Step" "1"; ev "execute" 1 "Value" "100";
        ev "init" 2 "Step" "2"; ev "execute" 3 "Value" "200"]
     = Ok [(c1, f1); (c2, f2)])
  ∧ finalized ["init"; "execute"]
      [ev "execute" 0 "Value" "100"; ev "init" 1 "Step" "1"] = Ok [].
Proof.
  destruct (init_execute_twice_two_cycles cfg
              (ev "init" 0 "Step" "1") (ev "execute" 1 "Value" "100")
              (ev "init" 2 "Step" "2") (ev "execute" 3 "Value" "200")
              (ev "execute" 0 "Value" "100") (ev "init" 1 "Step" "1") [] ∅)
    as ((c1 & f1 & c2 & f2 & _ & _ & _ & _ & Hfour & _) & Htwo & _).
  - reflexivity.
  - apply (event_of_intro _ _ (EStr "a.log")); vm_compute; reflexivity.
  - apply (event_of_intro _ _ (EStr "a.log")); vm_compute; reflexivity.
  - apply (event_of_intro _ _ (EStr "a.log")); vm_compute; reflexivity.
  - apply (event_of_intro _ _ (EStr "a.log")); vm_compute; reflexivity.
  - apply (event_of_intro _ _ (EStr "a.log")); vm_compute; reflexivity.
  - apply (event_of_intro _ _ (EStr "a.log")); vm_compute; reflexivity.
  - apply (time_ordered_intro _ [t0; t0 + 1000000; t0 + 2000000; t0 + 3000000]);
      [lookups|ordered].
  - apply (time_ordered_intro _ [t0; t0 + 1000000]); [lookups|ordered].
  - split; [by exists c1, f1, c2, f2|done].
Defined.

(** C2, counterexample. The two lines of the test give one cycle with a
    single event in the accumulating stage, and its record holds a
    duration of zero seconds, not [None]. *)
Lemma single_sample_has_duration :
  ∃ self rec,
    process cfg ["[2025/07/09 00:00:00.000] Step=1";
                 "[2025/07/09 00:00:01.000] Value=100"] = Ok self
    ∧ results self = [rec]
    ∧ rec !! "frames" = Some (VInt 1)
    ∧ rec !! "Duration(s)" = Some (VFloat (Dec 0)).
Proof.
  eexists _, _. split_and!.
  - vm_compute. reflexivity.
  - reflexivity.
  - vm_compute. reflexivity.
  - vm_compute. reflexivity.
Qed.

(** C2 at the cycle of a single event. *)
Lemma duration_of_single_sample_is_zero_witness :
  ∃ rec,
    build_record cfg cycle_one {[EStr "a.log"]} = Ok rec
    ∧ rec !! "Duration(s)" = Some (VFloat (float_round (total_seconds 0) 3)).
Proof.
  destruct (returns (build_record cfg cycle_one {[EStr "a.log"]})) as [rec Hrec];
    [vm_compute; reflexivity|].
  exists rec. split; [exact Hrec|].
  destruct (duration_of_single_sample_is_zero cfg cycle_one {[EStr "a.log"]} rec
              "execute" [ev "execute" 1 "Value" "100"] Hrec)
    as (_ & _ & Hone & _); [reflexivity|vm_compute; reflexivity|].
  eapply Hone; [reflexivity|vm_compute; reflexivity].
Defined.

(** C3 at the two events of the test, and at a second execute event
    arriving after them. *)
Lemma finalized_cycle_has_one_timing_event_witness :
  ∃ self new m,
    analyze_events cfg
      (Processor [ev "init" 0 "Step" "1"; ev "execute" 1 "Value" "100"] [] ∅)
    = Ok self
    ∧ results self = new
    ∧ Forall (λ rec : record, rec !! "frames" = Some (VInt 1)) new
    ∧ foldM (step record_call ["init"; "execute"]) (Machine 0 cycle_empty2 ∅ [])
        [ev "init" 0 "Step" "1"; ev "execute" 1 "Value" "100"] = Ok m
    ∧ m_state m = 2%nat
    ∧ step record_call ["init"; "execute"] m (ev "execute" 2 "Value" "200")
      = Ok (Machine 0 (m_cycle m) (m_sources m) (m_self m))
    ∧ finalized ["init"; "execute"]
        ([ev "init" 0 "Step" "1"; ev "execute" 1 "Value" "100"]
         ++ ev "execute" 2 "Value" "200" :: [])
      = (later <- finalized ["init"; "execute"] [];; Ok (m_self m ++ later)).
Proof.
  destruct (returns (analyze_events cfg
              (Processor [ev "init" 0 "Step" "1"; ev "execute" 1 "Value" "100"] [] ∅)))
    as [self Hrun]; [vm_compute; reflexivity|].
  destruct (returns (foldM (step record_call ["init"; "execute"])
              (Machine 0 cycle_empty2 ∅ [])
              [ev "init" 0 "Step" "1"; ev "execute" 1 "Value" "100"]))
    as [m Hpre]; [vm_compute; reflexivity|].
  assert (m_state m = 2%nat) as Hfull.
  { apply Nat.eqb_eq.
    apply (returned _ (λ m : machine, (m_state m =? 2)%nat) m Hpre).
    vm_compute. reflexivity. }
  assert (2 ≤ length (EVENT_SEQUENCE cfg))%nat as Hlen by (simpl; lia).
  destruct (finalized_cycle_has_one_timing_event cfg _ self Hlen Hrun)
    as (l & sorted & log & new & Hlast & _ & _ & _ & Hnew & Hframes & Hreset).
  injection Hlast as <-.
  destruct (Hreset [ev "init" 0 "Step" "1"; ev "execute" 1 "Value" "100"]
              (ev "execute" 2 "Value" "200") [] cycle_empty2 m)
    as [Hstep Hlater];
    [vm_compute; reflexivity|exact Hpre|exact Hfull|vm_compute; reflexivity|].
  exists self, new, m.
  split; [exact Hrun|]. split; [exact Hnew|]. split; [exact Hframes|].
  split; [exact Hpre|]. split; [exact Hfull|]. split; [exact Hstep|exact Hlater].
Defined.

(** C4, counterexample. The second line matches the pattern of [Temp]
    only, so the event has no [Value]; [AvgValue] is zero, not [None]. *)
Lemma absent_field_averages_to_zero :
  ∃ self e1 e2 rec,
    process cfg_two_fields ["[2025/07/09 00:00:00.000] Step=1";
                            "[2025/07/09 00:00:01.000] Temp=20"] = Ok self
    ∧ events self = [e1; e2]
    ∧ e2 !! "Value" = None
    ∧ results self = [rec]
    ∧ rec !! "AvgValue" = Some (VFloat (Dec 0)).
Proof.
  eexists _, _, _, _. split_and!.
  - vm_compute. reflexivity.
  - reflexivity.
  - vm_compute. reflexivity.
  - reflexivity.
  - vm_compute. reflexivity.
Qed.

(** C4 at a cycle whose single event has no [Value]. *)
Lemma average_counts_absent_field_as_zero_witness :
  ∃ rec values,
    build_record cfg_two_fields cycle_no_value {[EStr "a.log"]} = Ok rec
    ∧ contributions "Value" [ev "execute" 1 "Temp" "20"] values
    ∧ rec !! "AvgValue"
      = Some match values with
             | [] => VNone
             | _ => VFloat (float_round
                              (float_div (float_sum values)
                                 (float_of_int (Z.of_nat (length values)))) 2)
             end.
Proof.
  destruct (returns (build_record cfg_two_fields cycle_no_value {[EStr "a.log"]}))
    as [rec Hrec]; [vm_compute; reflexivity|].
  destruct (average_counts_absent_field_as_zero cfg_two_fields cycle_no_value
              {[EStr "a.log"]} rec "execute" [ev "execute" 1 "Temp" "20"] "Value" Hrec)
    as (values & Hvalues & Havg).
  - reflexivity.
  - vm_compute. reflexivity.
  - vm_compute. left.
  - exists rec, values. split; [exact Hrec|]. split; [exact Hvalues|exact Havg].
Defined.

(** C5, counterexample. The captured text ["nan"] converts to a NaN, the
    record of the cycle fails validation, and the run ends with no record
    and no count under [cycle_errors]. *)
Lemma rejected_record_leaves_cycle_errors :
  ∃ cyc files rec self,
    finalized ["init"; "execute"]
      [ev "init" 0 "Step" "1"; ev "execute" 1 "Value" "nan"] = Ok [(cyc, files)]
    ∧ build_record cfg cyc files = Ok rec
    ∧ validate_record rec = false
    ∧ analyze_events cfg
        (Processor [ev "init" 0 "Step" "1"; ev "execute" 1 "Value" "nan"] [] ∅)
      = Ok self
    ∧ results self = []
    ∧ metrics self !! "cycle_errors" = None.
Proof.
  eexists _, _, _, _. split_and!.
  - vm_compute. reflexivity.
  - vm_compute. reflexivity.
  - vm_compute. reflexivity.
  - vm_compute. reflexivity.
  - reflexivity.
  - vm_compute. reflexivity.
Qed.

(** C6, counterexample. The sequence of the test has no stage named
    [technique], the record's [StartTime] is ["NA"], and the record is
    accepted. *)
Lemma default_start_time_is_accepted :
  ∃ self rec,
    process cfg ["[2025/07/09 00:00:00.000] Step=1";
                 "[2025/07/09 00:00:01.000] Value=100"] = Ok self
    ∧ results self = [rec]
    ∧ rec !! "StartTime" = Some (VStr "NA")
    ∧ validate_record rec = true
    ∧ metrics self !! "cycles_completed" = Some 1.
Proof.
  eexists _, _. split_and!.
  - vm_compute. reflexivity.
  - reflexivity.
  - vm_compute. reflexivity.
  - vm_compute. reflexivity.
  - vm_compute. reflexivity.
Qed.

(** C6 at the cycle of the test. *)
Lemma validation_accepts_default_start_time_witness :
  ∃ rec,
    build_record cfg cycle_one {[EStr "a.log"]} = Ok rec
    ∧ ∃ n, rec !! "frames" = Some (VInt n) ∧ 0 ≤ n.
Proof.
  destruct (returns (build_record cfg cycle_one {[EStr "a.log"]})) as [rec Hrec];
    [vm_compute; reflexivity|].
  exists rec. split; [exact Hrec|].
  exact (proj1 (validation_accepts_default_start_time cfg cycle_one
                  {[EStr "a.log"]} rec Hrec)).
Defined.

(** C7 at three stages: after init, an execute arrives where prepare is
    expected. *)
Lemma out_of_order_event_discards_cycle_witness :
  ∃ m,
    foldM (step record_call ["init"; "prepare"; "execute"])
      (Machine 0 cycle_empty3 ∅ []) [ev "init" 0 "Step" "1"] = Ok m
    ∧ finalized ["init"; "prepare"; "execute"]
        ([ev "init" 0 "Step" "1"] ++ ev "execute" 1 "Value" "100"
           :: [ev "prepare" 2 "Mode" "3"])
      = (later <- finalized ["init"; "prepare"; "execute"] [ev "prepare" 2 "Mode" "3"];;
         Ok (m_self m ++ later)).
Proof.
  destruct (returns (foldM (step record_call ["init"; "prepare"; "execute"])
              (Machine 0 cycle_empty3 ∅ []) [ev "init" 0 "Step" "1"]))
    as [m Hpre]; [vm_compute; reflexivity|].
  exists m. split; [exact Hpre|].
  refine (proj2 (out_of_order_event_discards_cycle ["init"; "prepare"; "execute"]
                   [ev "init" 0 "Step" "1"] (ev "execute" 1 "Value" "100")
                   [ev "prepare" 2 "Mode" "3"] "execute" 2 cycle_empty3 m
                   _ Hpre _ _ _ _)).
  - vm_compute. reflexivity.
  - vm_compute. reflexivity.
  - reflexivity.
  - discriminate.
  - assert (m_state m = 1%nat) as ->; [|discriminate].
    apply Nat.eqb_eq.
    apply (returned _ (λ m : machine, (m_state m =? 1)%nat) m Hpre).
    vm_compute. reflexivity.
Defined.

(** C8, at the failing input. With a sequence of the single stage
    [execute], the fresh cycle holds the empty list under [execute]; after
    one event of that type it holds the event itself, and finalizing the
    cycle raises, which [cycle_errors] counts. *)
Theorem single_stage_cycle_holds_event :
  ∃ cyc0 m self,
    empty_cycle ["execute"] = Ok cyc0
    ∧ cyc0 !! "execute" = Some (SList [])
    ∧ foldM (step record_call ["execute"]) (Machine 0 cyc0 ∅ [])
        [ev "execute" 1 "Value" "100"] = Ok m
    ∧ m_cycle m !! "execute" = Some (SEvent (ev "execute" 1 "Value" "100"))
    ∧ process cfg_one_stage ["[2025/07/09 00:00:01.000] Value=100"] = Ok self
    ∧ results self = []
    ∧ metrics self !! "cycle_errors" = Some 1.
Proof.
  eexists _, _, _. split_and!.
  - vm_compute. reflexivity.
  - vm_compute. reflexivity.
  - vm_compute. reflexivity.
  - vm_compute. reflexivity.
  - vm_compute. reflexivity.
  - reflexivity.
  - vm_compute. reflexivity.
Qed.

(** C9, at the failing input. With a field named [time], the line has the
    timestamp 2025-07-09 00:00:00, and the event [parse_line] appends
    holds the captured text ["5"] under ['time'], not the timestamp. *)
Theorem field_named_time_replaces_timestamp :
  ∃ self e,
    extract_timestamp cfg_time_field "[2025/07/09 00:00:00.000] time=5"
    = Ok (Some (Naive t0))
    ∧ parse_line cfg_time_field "[2025/07/09 00:00:00.000] time=5" "a.log" fresh
      = Ok self
    ∧ events self = [e]
    ∧ e !! "type" = Some (EStr "execute")
    ∧ e !! "time" = Some (EStr "5").
Proof.
  eexists _, _. split_and!.
  - vm_compute. reflexivity.
  - vm_compute. reflexivity.
  - reflexivity.
  - vm_compute. reflexivity.
  - vm_compute. reflexivity.
Qed.

(** C10, counterexample. The second format parses the bracketed text, but
    the first repeats a directive: [strptime] raises an error that is no
    [ValueError], the loop does not go on to the second format, and
    [extract_timestamp] and [parse_line] raise instead of returning the
    timestamp or none. *)
Lemma repeated_directive_raises :
  first_bracketed "[2025/07/09 00:00:00.000] Step=1"
    "" "2025/07/09 00:00:00.000" " Step=1"
  ∧ TIMESTAMP_FORMATS cfg_repeated_directive = ["%Y %Y"; "%Y/%m/%d %H:%M:%S.%f"]
  ∧ strptime "2025/07/09 00:00:00.000" "%Y %Y" = ParseRaises RegexError
  ∧ strptime "2025/07/09 00:00:00.000" "%Y/%m/%d %H:%M:%S.%f" = Parsed (Naive t0)
  ∧ extract_timestamp cfg_repeated_directive "[2025/07/09 00:00:00.000] Step=1"
    = Raise RegexError
  ∧ parse_line cfg_repeated_directive "[2025/07/09 00:00:00.000] Step=1" "a.log" fresh
    = Raise RegexError.
Proof.
  split_and!.
  - split.
    + split; [reflexivity|]. split; [discriminate|reflexivity].
    + intros pre' g' post' _. simpl. lia.
  - reflexivity.
  - vm_compute. reflexivity.
  - vm_compute. reflexivity.
  - vm_compute. reflexivity.
  - vm_compute. reflexivity.
Qed.

(** The first line of the test adds one event, of type init. *)
Lemma parse_line_adds_first_matching_event_witness :
  ∃ self,
    parse_line cfg "[2025/07/09 00:00:00.000] Step=1" "a.log" fresh = Ok self
    ∧ ((extract_timestamp cfg "[2025/07/09 00:00:00.000] Step=1" = Ok None
        ∧ self = fresh)
       ∨ ∃ ts, extract_timestamp cfg "[2025/07/09 00:00:00.000] Step=1" = Ok (Some ts)
               ∧ extracted cfg ts "[2025/07/09 00:00:00.000] Step=1" "a.log"
                   (EVENT_SEQUENCE cfg) fresh self).
Proof.
  destruct (returns (parse_line cfg "[2025/07/09 00:00:00.000] Step=1" "a.log" fresh))
    as [self Hrun]; [vm_compute; reflexivity|].
  exists self. split; [exact Hrun|].
  exact (parse_line_adds_first_matching_event cfg _ _ _ _ Hrun).
Defined.

(** The cycle after the two events of the test. *)
Lemma stages_stay_well_formed_witness :
  ∃ cyc0 m,
    empty_cycle ["init"; "execute"] = Ok cyc0
    ∧ foldM (step record_call ["init"; "execute"]) (Machine 0 cyc0 ∅ [])
        [ev "init" 0 "Step" "1"; ev "execute" 1 "Value" "100"] = Ok m
    ∧ stages_well_formed "execute" (m_cycle m).
Proof.
  assert (empty_cycle ["init"; "execute"] = Ok cycle_empty2) as Hcyc
    by (vm_compute; reflexivity).
  destruct (returns (foldM (step record_call ["init"; "execute"])
              (Machine 0 cycle_empty2 ∅ [])
              [ev "init" 0 "Step" "1"; ev "execute" 1 "Value" "100"]))
    as [m Hrun]; [vm_compute; reflexivity|].
  exists cycle_empty2, m. split; [exact Hcyc|]. split; [exact Hrun|].
  refine (stages_stay_well_formed record_call ["init"; "execute"] "execute"
            _ _ _ cycle_empty2 [] _ m Hcyc Hrun).
  - reflexivity.
  - reflexivity.
  - simpl. lia.
Defined.

(** ** Further statements on the sample inputs *)

Import Inputs.

(** Two events out of order are sorted; an event with a naive time and
    one with an aware time are not. *)
Lemma sort_events_is_stable_sort_witness :
  (∃ sorted,
     sort_events [ev "execute" 1 "Value" "100"; ev "init" 0 "Step" "1"] = Ok sorted
     ∧ sorted ≡ₚ [ev "execute" 1 "Value" "100"; ev "init" 0 "Step" "1"]
     ∧ Sorted (λ a b, time_of a ≤ time_of b) sorted
     ∧ ∀ t, filter (λ e, time_of e = t) sorted
            = filter (λ e, time_of e = t)
                [ev "execute" 1 "Value" "100"; ev "init" 0 "Step" "1"])
  ∧ sort_events [new_event (Naive t0) "a.log" "init";
                 new_event (Aware t0 0) "a.log" "execute"] = Raise TypeError.
Proof.
  split.
  - apply (proj1 (sort_events_is_stable_sort
                    [ev "execute" 1 "Value" "100"; ev "init" 0 "Step" "1"])).
    apply Forall_cons. split; [exists (t0 + 1 * 1000000); vm_compute; reflexivity|].
    apply Forall_cons. split; [exists (t0 + 0 * 1000000); vm_compute; reflexivity|].
    apply Forall_nil_2.
  - apply (proj2 (sort_events_is_stable_sort
                    [new_event (Naive t0) "a.log" "init";
                     new_event (Aware t0 0) "a.log" "execute"])
             ltac:(repeat constructor; eexists; vm_compute; reflexivity)
             (new_event (Naive t0) "a.log" "init")
             (new_event (Aware t0 0) "a.log" "execute") t0 t0 0).
    + left.
    + right. left.
    + vm_compute. reflexivity.
    + vm_compute. reflexivity.
Defined.

(** An event of a type outside the sequence, between two others. *)
Lemma unknown_events_are_skipped_witness :
  run record_call ["init"; "execute"] []
    [ev "init" 0 "Step" "1"; ev "other" 1 "Step" "2"; ev "execute" 2 "Value" "100"]
  = run record_call ["init"; "execute"] []
      (filter (λ e, known ["init"; "execute"] e = true)
         [ev "init" 0 "Step" "1"; ev "other" 1 "Step" "2";
          ev "execute" 2 "Value" "100"]).
Proof.
  apply (unknown_events_are_skipped record_call ["init"; "execute"] []).
  apply Forall_cons. split; [exists (EStr "init"); vm_compute; reflexivity|].
  apply Forall_cons. split; [exists (EStr "other"); vm_compute; reflexivity|].
  apply Forall_cons. split; [exists (EStr "execute"); vm_compute; reflexivity|].
  apply Forall_nil_2.
Defined.

(** Two events of the single stage: two cycle errors, no record. *)
Lemma single_stage_sequence_yields_no_record_witness :
  ∃ self,
    analyze_events cfg_one_stage
      (Processor [ev "execute" 0 "Value" "100"; ev "execute" 1 "Value" "200"] [] ∅)
    = Ok self
    ∧ results self = []
    ∧ metrics self
      = Nat.iter
          (length (filter (λ e, known ["execute"] e = true)
                     [ev "execute" 0 "Value" "100"; ev "execute" 1 "Value" "200"]))
          (incr "cycle_errors") ∅.
Proof.
  destruct (returns (analyze_events cfg_one_stage
              (Processor [ev "execute" 0 "Value" "100"; ev "execute" 1 "Value" "200"]
                 [] ∅))) as [self Hrun];
    [vm_compute; reflexivity|].
  exists self. split; [exact Hrun|].
  refine (single_stage_sequence_yields_no_record cfg_one_stage "execute" _ self _ _ Hrun).
  - reflexivity.
  - intros Heq. vm_compute in Heq. discriminate.
Defined.

(** The two events of the test: one record, one cycle counted. *)
Lemma analyze_events_counts_records_witness :
  ∃ self,
    analyze_events cfg
      (Processor [ev "init" 0 "Step" "1"; ev "execute" 1 "Value" "100"] [] ∅)
    = Ok self
    ∧ events self ≡ₚ [ev "init" 0 "Step" "1"; ev "execute" 1 "Value" "100"]
    ∧ ∃ log,
        analyzed cfg
          (Processor [ev "init" 0 "Step" "1"; ev "execute" 1 "Value" "100"] [] ∅) log
        ∧ results self = [] ++ accepted cfg log
        ∧ Forall (appended cfg) (accepted cfg log)
        ∧ counter (metrics self) "cycles_completed"
          = counter ∅ "cycles_completed" + Z.of_nat (length (accepted cfg log))
        ∧ counter (metrics self) "cycle_errors"
          = counter ∅ "cycle_errors"
            + Z.of_nat (length (filter (λ call, raises cfg call = true) log))
        ∧ ∀ k, k ≠ "cycles_completed" → k ≠ "cycle_errors" →
            metrics self !! k = (∅ : gmap string Z) !! k.
Proof.
  destruct (returns (analyze_events cfg
              (Processor [ev "init" 0 "Step" "1"; ev "execute" 1 "Value" "100"] [] ∅))) as [self Hrun];
    [vm_compute; reflexivity|].
  exists self. split; [exact Hrun|].
  exact (analyze_events_counts_records cfg _ self Hrun).
Defined.

(** The record of the pass through query, technique, execute. *)
Lemma build_record_copies_stage_fields_witness :
  ∃ rec,
    build_record cfg_query cycle_query {[EStr "a.log"]} = Ok rec
    ∧ rec !! "Mode"
      = Some (from_option evval_to_py (VStr "NA")
                (ev "technique" 1 "Mode" "2" !! "Mode")).
Proof.
  destruct (returns (build_record cfg_query cycle_query {[EStr "a.log"]})) as [rec Hrec];
    [vm_compute; reflexivity|].
  exists rec. split; [exact Hrec|].
  destruct (build_record_copies_stage_fields cfg_query cycle_query
              {[EStr "a.log"]} rec "Mode" Hrec) as [Htechnique _].
  - discriminate.
  - discriminate.
  - intros l g _ _ Heq. simpl in Heq. discriminate.
  - apply (Htechnique (ev "technique" 1 "Mode" "2")).
    + vm_compute. reflexivity.
    + intros Heq. apply (f_equal (λ e : event, e !! "type")) in Heq.
      vm_compute in Heq. discriminate.
    + vm_compute. left.
Defined.


Lemma build_record_source_files_witness :
  ∃ rec names,
    build_record cfg_query cycle_query {[EStr "b.log"; EStr "a.log"]} = Ok rec
    ∧ rec !! "SourceFiles" = Some (VStr (join "+" names))
    ∧ Sorted str_le names ∧ NoDup names
    ∧ ∀ v, v ∈ ({[EStr "b.log"; EStr "a.log"]} : gset evval)
           ↔ ∃ s, v = EStr s ∧ s ∈ names.
Proof.
  destruct (returns (build_record cfg_query cycle_query {[EStr "b.log"; EStr "a.log"]})) as [rec Hrec];
    [vm_compute; reflexivity|].
  exists rec.
  destruct (build_record_source_files cfg_query cycle_query
              {[EStr "b.log"; EStr "a.log"]} rec Hrec) as (names & Hnames).
  - vm_compute. intros Hin. inversion Hin as [|? ? ? Hin']. inversion Hin'.
  - vm_compute. intros Hin. inversion Hin as [|? ? ? Hin']. inversion Hin'.
  - exists names. split; [exact Hrec|exact Hnames].
Defined.

(** The patterns of the sample runtime never raise. *)
Lemma search_literal_returns lit line e : search_literal lit line ≠ SearchRaises e.
Proof.
  induction line as [|c line IH]; simpl.
  - destruct (if String.prefix lit "" then _ else _); discriminate.
  - destruct (if String.prefix lit (String c line) then _ else _); [exact IH|discriminate].
Defined.

Lemma searchable_cfg : searchable cfg.
Proof.
  split; [|split].
  - apply Forall_cons. split; [eexists; reflexivity|].
    apply Forall_cons. split; [eexists; reflexivity|]. apply Forall_nil_2.
  - intros name patterns field pat line e Hname Hin.
    unfold cfg in Hname. simpl in Hname.
    apply lookup_insert_Some in Hname as [[_ <-]|[_ Hname]].
    + apply list_elem_of_singleton in Hin. injection Hin as -> ->.
      apply search_literal_returns.
    + apply lookup_insert_Some in Hname as [[_ <-]|[_ Hname]].
      * apply list_elem_of_singleton in Hin. injection Hin as -> ->.
        apply search_literal_returns.
      * rewrite lookup_empty in Hname. discriminate.
  - intros fmt text e Hin. apply list_elem_of_singleton in Hin. subst fmt.
    unfold strptime. simpl. unfold sample_strptime. simpl.
    destruct (parse_fields text); discriminate.
Defined.

(** The two lines of the test are parsed and the file is counted. *)
Lemma process_file_counts_searchable_file_witness :
  ∃ self,
    foldM (λ self line, parse_line cfg line "a.log" self) fresh lines = Ok self
    ∧ process_file cfg "a.log" lines fresh
      = Processor (events self) (results self)
          (incr "files_processed" (metrics self)).
Proof. exact (process_file_counts_searchable_file cfg "a.log" lines fresh searchable_cfg). Defined.

(** A pattern that does not compile ends the file at its first line
    with a timestamp. *)
Lemma process_file_stops_at_raising_line_witness :
  process_file cfg_bad_pattern "a.log"
    (["no timestamp"] ++ "[2025/07/09 00:00:00.000] Step=1" :: ["never read"]) fresh
  = process_file cfg_bad_pattern "a.log"
      (["no timestamp"] ++ ["[2025/07/09 00:00:00.000] Step=1"]) fresh
  ∧ metrics (process_file cfg_bad_pattern "a.log"
               (["no timestamp"] ++ "[2025/07/09 00:00:00.000] Step=1"
                :: ["never read"]) fresh) !! "files_processed"
    = metrics fresh !! "files_processed".
Proof.
  apply (process_file_stops_at_raising_line cfg_bad_pattern "a.log"
           ["no timestamp"] "[2025/07/09 00:00:00.000] Step=1" ["never read"]
           fresh fresh RegexError).
  vm_compute. reflexivity.
Defined.

(** A record with one of the two columns. *)
Lemma save_results_keeps_every_value_witness :
  ∃ table rows,
    save_results (Ok ()) "./results/output.csv" ["StartTime"; "frames"]
      (Processor [] [<["frames" := VInt 1]> ∅] ∅) = Ok (Some table)
    ∧ table = (VStr <$> ["StartTime"; "frames"]) :: rows
    ∧ Forall2 (λ (rec : record) row,
        length row = length ["StartTime"; "frames"]
        ∧ (∀ k v, rec !! k = Some v →
             ∃ i, ["StartTime"; "frames"] !! i = Some k ∧ row !! i = Some v)
        ∧ (∀ i k, ["StartTime"; "frames"] !! i = Some k → rec !! k = None →
             row !! i = Some (VStr "")))
        [<["frames" := VInt 1]> ∅] rows.
Proof.
  destruct (save_results (Ok ()) "./results/output.csv" ["StartTime"; "frames"]
              (Processor [] [<["frames" := VInt 1]> ∅] ∅))
    as [[table|]|e] eqn:Hsave;
    [|vm_compute in Hsave; discriminate|vm_compute in Hsave; discriminate].
  destruct (save_results_keeps_every_value _ _ _ _ table Hsave)
    as (rows & Htable & Hrows).
  exists table, rows. split; [reflexivity|]. split; [exact Htable|exact Hrows].
Defined.

(** The record of the test and the default, empty [CSV_FIELDS]: with the
    default output path the writer raises, and with a path that has no
    directory part the directory cannot be made. *)
Lemma save_results_needs_record_columns_witness :
  ∃ rec,
    build_record cfg cycle_one {[EStr "a.log"]} = Ok rec
    ∧ save_results (Ok ()) "./results/output.csv" [] (Processor [] [rec] ∅)
      = Raise ValueError
    ∧ save_results (Ok ()) "out.csv" [] (Processor [] [rec] ∅)
      = Raise FileNotFoundError.
Proof.
  destruct (returns (build_record cfg cycle_one {[EStr "a.log"]})) as [rec Hrec];
    [vm_compute; reflexivity|].
  exists rec. split; [exact Hrec|].
  assert (Forall (appended cfg) [rec]) as Happ.
  { apply Forall_cons. split; [|apply Forall_nil_2]. split.
    + apply (returned _ validate_record rec Hrec). vm_compute. reflexivity.
    + exists cycle_one, {[EStr "a.log"]}. exact Hrec. }
  split.
  - apply (save_results_needs_record_columns cfg (Ok ()) "./results/output.csv" []
             (Processor [] [rec] ∅) "frames").
    + discriminate.
    + exact Happ.
    + right. right. left.
    + intros Hin. inversion Hin.
  - apply (save_results_needs_record_columns cfg (Ok ()) "out.csv" []
             (Processor [] [rec] ∅) "frames").
    + discriminate.
    + exact Happ.
    + right. right. left.
    + intros Hin. inversion Hin.
Defined.

Lemma save_results_accepts_record_keys_witness :
  ∃ rec table,
    build_record cfg cycle_one {[EStr "a.log"]} = Ok rec
    ∧ save_results (Ok ()) "./results/output.csv" (record_keys cfg)
        (Processor [] [rec] ∅) = Ok table.
Proof.
  destruct (returns (build_record cfg cycle_one {[EStr "a.log"]})) as [rec Hrec];
    [vm_compute; reflexivity|].
  destruct (save_results_accepts_record_keys cfg "./results/output.csv"
              (record_keys cfg) (Processor [] [rec] ∅)) as [table Htable].
  - apply Forall_cons. split; [|apply Forall_nil_2]. split.
    + apply (returned _ validate_record rec Hrec). vm_compute. reflexivity.
    + exists cycle_one, {[EStr "a.log"]}. exact Hrec.
  - intros k Hk. exact Hk.
  - reflexivity.
  - exists rec, table. split; [exact Hrec|exact Htable].
Defined.

(** The run of the test on its file. *)
Lemma process_files_summary_agrees_witness :
  ∃ self table counts,
    process_files cfg (Ok ()) "./results/output.csv" (record_keys cfg)
      [("a.log", Some lines)] fresh
    = Summary self table counts
    ∧ ("Events parsed:     ", Z.of_nat (length (events self))) ∈ counts
    ∧ ("Cycles completed:  ", Z.of_nat (length (results self))) ∈ counts
    ∧ ("Records saved:     ", Z.of_nat (length (results self))) ∈ counts
    ∧ (table = None ↔ results self = [])
    ∧ ∀ rows, table = Some rows → length rows = S (length (results self)).
Proof.
  destruct (summarizes
              (process_files cfg (Ok ()) "./results/output.csv" (record_keys cfg)
                 [("a.log", Some lines)] fresh))
    as (self & table & counts & Hrun); [vm_compute; reflexivity|].
  exists self, table, counts. split; [exact Hrun|].
  apply (process_files_summary_agrees cfg (Ok ()) "./results/output.csv"
           (record_keys cfg) [("a.log", Some lines)] fresh self table counts);
    [|exact Hrun].
  split; vm_compute; reflexivity.
Defined.

(** Two passes through init, execute. *)
Lemma complete_passes_are_finalized_witness :
  ∃ log,
    Forall2 (holds_pass ["init"; "execute"])
      [[ev "init" 0 "Step" "1"; ev "execute" 1 "Value" "100"];
       [ev "init" 2 "Step" "2"; ev "execute" 3 "Value" "200"]] log
    ∧ finalized ["init"; "execute"]
        [ev "init" 0 "Step" "1"; ev "execute" 1 "Value" "100";
         ev "init" 2 "Step" "2"; ev "execute" 3 "Value" "200"] = Ok log
    ∧ analyze_events cfg
        (Processor [ev "init" 0 "Step" "1"; ev "execute" 1 "Value" "100";
                    ev "init" 2 "Step" "2"; ev "execute" 3 "Value" "200"] [] ∅)
      = Ok (replay (finalize_cycle cfg) log
              (Processor [ev "init" 0 "Step" "1"; ev "execute" 1 "Value" "100";
                          ev "init" 2 "Step" "2"; ev "execute" 3 "Value" "200"] [] ∅)).
Proof.
  apply (complete_passes_are_finalized cfg
           [[ev "init" 0 "Step" "1"; ev "execute" 1 "Value" "100"];
            [ev "init" 2 "Step" "2"; ev "execute" 3 "Value" "200"]] [] ∅).
  - apply NoDup_cons. split; [intros Hin; inversion Hin as [|? ? ? Hin']; inversion Hin'|].
    apply NoDup_cons. split; [intros Hin; inversion Hin|]. apply NoDup_nil_2.
  - simpl. lia.
  - apply Forall_cons. split.
    { apply Forall2_cons. split; [apply (event_of_intro _ _ (EStr "a.log")); vm_compute; reflexivity|].
      apply Forall2_cons. split; [apply (event_of_intro _ _ (EStr "a.log")); vm_compute; reflexivity|].
      apply Forall2_nil_2. }
    apply Forall_cons. split; [|apply Forall_nil_2].
    apply Forall2_cons. split; [apply (event_of_intro _ _ (EStr "a.log")); vm_compute; reflexivity|].
    apply Forall2_cons. split; [apply (event_of_intro _ _ (EStr "a.log")); vm_compute; reflexivity|].
    apply Forall2_nil_2.
  - apply (time_ordered_intro _ [t0 + 0 * 1000000; t0 + 1 * 1000000;
                                  t0 + 2 * 1000000; t0 + 3 * 1000000]).
    + lookups.
    + ordered.
Defined.

(** Two names that differ in case only. *)
Lemma natural_sort_key_ignores_case_witness :
  natural_sort_key "logs/File10.LOG" = natural_sort_key "logs/file10.log".
Proof.
  apply (natural_sort_key_ignores_case "logs/File10.LOG" "logs/file10.log").
  vm_compute. reflexivity.
Defined.

(** [file2.log] comes before [file10.log]. *)
Lemma digit_runs_are_ordered_as_numbers_witness :
  list_lt (natural_sort_key ("file" +:+ "2" +:+ ".log"))
    (natural_sort_key ("file" +:+ "10" +:+ ".log")) = Ok true.
Proof.
  apply (digit_runs_are_ordered_as_numbers "file" "2" "10" ".log" ".log").
  - vm_compute. reflexivity.
  - vm_compute. reflexivity.
  - vm_compute. reflexivity.
  - vm_compute. reflexivity.
  - vm_compute. reflexivity.
  - vm_compute. reflexivity.
  - vm_compute. reflexivity.
  - vm_compute. reflexivity.
Defined.
